(** * gps_heatmap: a shallow embedding of the geometry, clustering and
      density-map core, with the properties its specification states.

    Conventions of the embedding.

    - Python [int] is [Z]; Python [float] is idealised as a real number [R]
      (no rounding error, no NaN, no overflow).  Counts written by
      [Heatmap.update] are integers; they live in the same dictionary as the
      floats written by [normalize], so dictionary values are reals.
    - Nothing in the sources fixes the interpreter.  The division of two
      ints in [quarter_group] is modelled for both ([interpreter],
      [int_div]).  [round] rounds halves away from zero under Python 2 and
      to even under Python 3; [py_round] is the former.  The proofs use of
      it only that the result is within 1/2 of the argument, that it is
      monotone, and that it is exact strictly within 1/2 of an integer,
      which hold for both; no example rounds an exact half.
    - A [dict] is a [gmap]; a generator is the list of what it yields.
    - Exceptions are values of [exn]; fallible pure code returns [result],
      code that reads or writes [Heatmap] objects runs in the state and
      error monad [M] over a store of objects. *)

From Stdlib Require Import Reals Lra Lia ZArith QArith Qround Permutation.
From stdpp Require Import gmap list sorting.

Open Scope Z_scope.

(** ** Exceptions and results *)

Inductive exn : Set :=
| ValueError          (* max()/min() of an empty sequence, math domain error *)
| ZeroDivisionError
| AttributeError.     (* a reference that denotes no Heatmap *)

Inductive result (A : Type) : Type :=
| Ok (a : A)
| Raise (e : exn).
Arguments Ok {A} a.
Arguments Raise {A} e.

#[global] Instance result_ret : MRet result := @Ok.
#[global] Instance result_bind : MBind result := λ A B f r,
  match r with Ok a => f a | Raise e => Raise e end.

(** ** Numbers *)

#[global] Instance R_eq_dec : EqDecision R := Req_dec_T.

(** [int(round(x))]: nearest integer, halves away from zero. *)
Definition py_round (x : R) : Z :=
  if Rle_dec 0 x then Int_part (x + / 2) else - Int_part (- x + / 2).

(** [math.hypot(x, y)]. *)
Definition hypot (x y : R) : R := sqrt (x * x + y * y).

(** [math.radians(d)]. *)
Definition radians (d : R) : R := (d * PI / 180)%R.

(** [max(xs)] and [min(xs)] of a sequence: the first largest (smallest)
    element, [ValueError] when the sequence is empty. *)
Definition py_max_Z (xs : list Z) : result Z :=
  match xs with
  | [] => Raise ValueError
  | x :: xs' => Ok (foldl (λ m y, if Z.ltb m y then y else m) x xs')
  end.

Definition py_min_Z (xs : list Z) : result Z :=
  match xs with
  | [] => Raise ValueError
  | x :: xs' => Ok (foldl (λ m y, if Z.ltb y m then y else m) x xs')
  end.

Definition py_max (xs : list R) : result R :=
  match xs with
  | [] => Raise ValueError
  | x :: xs' => Ok (foldl (λ m y, if Rlt_dec m y then y else m) x xs')
  end.

Definition py_min (xs : list R) : result R :=
  match xs with
  | [] => Raise ValueError
  | x :: xs' => Ok (foldl (λ m y, if Rlt_dec y m then y else m) x xs')
  end.

(** ** geo.py *)

Definition MAX_GAP : R := 700.
Definition AVG_EARTH_RADIUS : R := 6371000.
Definition METERS_PER_DEGREE : R := (2 * PI * AVG_EARTH_RADIUS / 360)%R.

(** [Coord]: a pair of floats. *)
Record Coord : Type := mkCoord { cx : R; cy : R }.

(** [Point]: a pair of ints; it is the key type of the density map. *)
Record Point : Set := mkPoint { x : Z; y : Z }.

#[global] Instance Point_eq_dec : EqDecision Point.
Proof. solve_decision. Defined.

#[global] Instance Point_countable : Countable Point.
Proof.
  refine (inj_countable' (λ p, (x p, y p)) (λ q, mkPoint q.1 q.2) _).
  by intros [].
Defined.

(** [Point.__new__(cls, x, y)] on float arguments.  On int arguments
    [int(round(n))] is [n] (lemma [Point_new_IZR]), so call sites that pass
    ints build the pair directly with [mkPoint]. *)
Definition Point_new (x y : R) : Point := mkPoint (py_round x) (py_round y).

(** [Coord.distance] on two points (the other one is never [None] here). *)
Definition Point_distance (self other : Point) : R :=
  let dx := IZR (x self - x other) in
  let dy := IZR (y self - y other) in
  sqrt (dx ^ 2 + dy ^ 2).

(** [LatLon]: [x] is the latitude, [y] the longitude, in degrees. *)
Record LatLon : Type := mkLatLon { lat : R; lon : R }.

(** [LatLon.distance(other)]: [None] without a previous point, else the
    equirectangular approximation in meters. *)
Definition LatLon_distance (self : LatLon) (other : option LatLon) : option R :=
  match other with
  | None => None
  | Some other =>
      let coef := cos (radians (lat self)) in
      let x := (lat self - lat other)%R in
      let y := ((lon self - lon other) * coef)%R in
      Some (hypot x y * METERS_PER_DEGREE)%R
  end.

Module Extent.

(** [self.min] and [self.max] start as [None]. *)
Record t : Set := mk { min : option Point; max : option Point }.

Definition empty : t := mk None None.

(** The idiom [a and f(a) or c] with [a] a point or [None] and [f(a)],
    [c] ints: a point is always true, an int is true when it is not 0. *)
Definition and_or (a : option Point) (f : Point → Z) (c : Z) : Z :=
  match a with
  | Some p => if Z.eqb (f p) 0 then c else f p
  | None => c
  end.

Definition update (self : t) (coords : list Point) : result t :=
  max_x ← py_max_Z (x <$> coords);
  min_x ← py_min_Z (x <$> coords);
  max_y ← py_max_Z (y <$> coords);
  min_y ← py_min_Z (y <$> coords);
  let new_max :=
    mkPoint (and_or (max self) (λ m, Z.max (x m) max_x) max_x)
            (and_or (max self) (λ m, Z.max (y m) max_y) max_y) in
  let new_min :=
    mkPoint (and_or (min self) (λ m, Z.min (x m) min_x) min_x)
            (and_or (min self) (λ m, Z.min (y m) min_y) min_y) in
  mret (mk (Some new_min) (Some new_max)).

End Extent.

Module PolyLine.

(** [self.coords]. *)
Definition t : Set := list Point.

Definition empty : t := [].

(** [append]: the coordinate is added unless it equals the last one. *)
Definition append (self : t) (coord : Point) : t :=
  match last self with
  | Some c => if decide (c = coord) then self else self ++ [coord]
  | None => self ++ [coord]
  end.

(** [bool(line)], through [__len__]. *)
Definition nonempty (self : t) : bool :=
  match self with [] => false | _ => true end.

End PolyLine.

(** [EquirectangularProjection.project], for a projection whose
    [pixels_per_degree] is [ppd]. *)
Definition Equirectangular_project (ppd : R) (latlon : LatLon) : Coord :=
  mkCoord (lon latlon * ppd) (lat latlon * ppd).

Section get_lines.

(** [projection.project]: the method of whichever projection the caller
    passes.  It is taken to return; the Web-Mercator one raises at the
    poles, which the segmenter does not handle. *)
Variable project : LatLon → Coord.
Variable max_gap : R.

(** [Point( *projection.project(latlon))]. *)
Definition project_point (latlon : LatLon) : Point :=
  let c := project latlon in Point_new (cx c) (cy c).

(** [distance and distance > max_gap]: [None] and [0.0] are false. *)
Definition is_gap (distance : option R) : bool :=
  match distance with
  | None => false
  | Some d =>
      if decide (d = 0%R) then false
      else if Rgt_dec d max_gap then true else false
  end.

(** The loop of [get_lines], from the state ([line], [prev_latlon]) on
    what is left of the activity; the result lists the polylines in the
    order they are yielded, the last one by the [yield] after the loop.
    A yielded polyline is not written again: the loop goes on with a new
    object. *)
Fixpoint get_lines_from (line : PolyLine.t) (prev_latlon : option LatLon)
    (activity : list LatLon) : list PolyLine.t :=
  match activity with
  | [] => [line]
  | latlon :: activity =>
      let distance := LatLon_distance latlon prev_latlon in
      let coord := project_point latlon in
      if is_gap distance then
        (if PolyLine.nonempty line then [line] else [])
        ++ get_lines_from (PolyLine.append PolyLine.empty coord)
                          (Some latlon) activity
      else
        get_lines_from (PolyLine.append line coord) (Some latlon) activity
  end.

Definition get_lines (activity : list LatLon) : list PolyLine.t :=
  get_lines_from PolyLine.empty None activity.

(** How many points of an activity are consecutive duplicates: points
    that follow another one without a gap and project to the same pixel.
    This is counted on the input alone. *)
Fixpoint duplicates_after (prev : option LatLon) (activity : list LatLon)
    : nat :=
  match activity with
  | [] => 0
  | latlon :: activity =>
      (match prev with
       | Some p =>
           if negb (is_gap (LatLon_distance latlon prev))
              && bool_decide (project_point latlon = project_point p)
           then 1 else 0
       | None => 0
       end + duplicates_after (Some latlon) activity)%nat
  end.

Definition duplicates (activity : list LatLon) : nat :=
  duplicates_after None activity.

(** The state of the loop: there is a previous point exactly when the
    current polyline is not empty, and then the polyline ends with the
    pixel of that point. *)
Definition loop_state (line : PolyLine.t) (prev : option LatLon) : Prop :=
  match prev with
  | None => line = []
  | Some p => last line = Some (project_point p)
  end.

End get_lines.

(** ** timeseries.py *)

Record date : Set := mkDate { year : Z; month : Z; day : Z }.

(** What [datetime.date] guarantees of the month. *)
Definition valid_month (d : date) : Prop := 1 ≤ month d ≤ 12.

Definition year_group (d : date) : Z := year d.

(** [/] between two ints is the floor division of Python 2 or the true
    division of Python 3: the module does not import [division] from
    [__future__] and nothing in the sources tells the interpreter. *)
Inductive interpreter : Set :=
| Python2
| Python3.

(** A number: an int or a float. *)
Inductive number : Type :=
| PyInt (n : Z)
| PyFloat (r : R).

(** [a / b] for two ints, [b] not 0. *)
Definition int_div (py : interpreter) (a b : Z) : number :=
  match py with
  | Python2 => PyInt (a / b)
  | Python3 => PyFloat (IZR a / IZR b)
  end.

(** [n + k] for an int [k]. *)
Definition add_int (n : number) (k : Z) : number :=
  match n with
  | PyInt z => PyInt (z + k)
  | PyFloat r => PyFloat (r + IZR k)
  end.

(** [(date.year, (date.month-1)/3+1)]. *)
Definition quarter_group (py : interpreter) (d : date) : Z * number :=
  (year d, add_int (int_div py (month d - 1) 3) 1).

Definition month_group (d : date) : Z * Z := (year d, month d).

(** ** heatmap.py *)

(** *** The clusterer classes

    [Clusterer] is the base class and the identity strategy;
    [ScaledClusterer] and the two subclasses of [KernelClusterer] override
    some of its three methods.  A value of [Clusterer] is an instance: the
    constructor tells the class, the arguments are the attributes that
    [__init__] has set. *)

Inductive KernelClusterer : Type :=
| LinearKernel (radius : Z)
| GaussianKernel (radius : Z) (scale : R).

Inductive Clusterer : Type :=
| Identity
| Scaled (cluster_scale : R) (count_cluster_point_once : bool)
| Kernel (k : KernelClusterer).

(** [ScaledClusterer.__init__]: a magnification is inverted. *)
Definition ScaledClusterer (cluster_scale : R) (count_cluster_point_once : bool)
  : Clusterer :=
  Scaled (if Rgt_dec cluster_scale 1 then (1 / cluster_scale)%R
          else cluster_scale)
         count_cluster_point_once.

Definition OnceScaledClusterer (cluster_scale : R) : Clusterer :=
  ScaledClusterer cluster_scale true.

Definition MultiScaledClusterer (cluster_scale : R) : Clusterer :=
  ScaledClusterer cluster_scale false.

Definition LinearKernelClusterer (radius : Z) : Clusterer :=
  Kernel (LinearKernel radius).

(** [GaussianKernelClusterer.__init__] divides by the radius. *)
Definition GaussianKernelClusterer (radius : Z) : result Clusterer :=
  if decide (radius = 0) then Raise ZeroDivisionError
  else Ok (Kernel (GaussianKernel radius (ln 256 / IZR radius))).

Definition radius (k : KernelClusterer) : Z :=
  match k with LinearKernel r => r | GaussianKernel r _ => r end.

(** [cluster_point]: only the scaled clusterer overrides it. *)
Definition cluster_point (c : Clusterer) (point : Point) : Point :=
  match c with
  | Scaled cluster_scale _ =>
      Point_new (IZR (x point) * cluster_scale) (IZR (y point) * cluster_scale)
  | Identity | Kernel _ => point
  end.

(** The loop of [ScaledClusterer.cluster_points]; [prev_cluster_point] is a
    local of the call. *)
Fixpoint scaled_cluster_points (c : Clusterer) (once : bool)
    (prev_cluster_point : option Point) (line : list Point) : list Point :=
  match line with
  | [] => []
  | point :: line =>
      let cluster_point := cluster_point c point in
      (if once then
         if decide (Some cluster_point = prev_cluster_point) then []
         else [cluster_point]
       else [cluster_point])
      ++ scaled_cluster_points c once (Some cluster_point) line
  end.

(** [cluster_points]: what the generator yields for a line. *)
Definition cluster_points (c : Clusterer) (line : list Point) : list Point :=
  match c with
  | Scaled _ once => scaled_cluster_points c once None line
  | Identity | Kernel _ => line
  end.

(** [get_weight].  [distance] is a [math.hypot], hence not negative, so
    with radius 0 the first branch is taken and the division is never by
    zero. *)
Definition get_weight (k : KernelClusterer) (distance : R) : R :=
  match k with
  | LinearKernel radius =>
      if Rge_dec distance (IZR radius) then 0
      else 1 - distance / IZR radius
  | GaussianKernel radius scale =>
      if Rge_dec distance (IZR radius) then 0
      else Rpower (exp 1) (- distance * scale)
  end%R.

(** [range(a, b)]. *)
Definition range (a b : Z) : list Z := seqZ a (b - a).

(** [weights_matrix]: the dictionary [{(x, y): weight}] as the list of its
    items in insertion order (the keys are pairwise different).  The
    property caches it in [_weights_matrix]; it depends on the radius and
    the class only, so the cache is not modelled. *)
Definition weights_matrix (k : KernelClusterer) : list (Z * Z * R) :=
  x ← range (- radius k) (radius k + 1);
  y ← range (- radius k) (radius k + 1);
  let distance := hypot (IZR x) (IZR y) in
  let weight := get_weight k distance in
  if decide (weight = 0%R) then [] else [((x, y), weight)].

(** [KernelClusterer.points(point)]: the neighbours with their weights. *)
Definition kernel_points (k : KernelClusterer) (point : Point)
  : list (Point * R) :=
  (λ '((dx, dy), weight), (mkPoint (x point + dx) (y point + dy), weight))
    <$> weights_matrix k.

(** *** Heatmap objects and the store

    A [Heatmap] object has a clusterer and the counter [points].  Objects
    live in a store and are denoted by references, so that two names of one
    object ([cluster_heatmap] of the base class returns its argument) see
    the same writes. *)

Record Heatmap : Type := mkHeatmap {
  clusterer : Clusterer;
  points : gmap Point R
}.

Abbreviation ref := nat (only parsing).
Abbreviation store := (list Heatmap) (only parsing).

(** Computations that read and write the store and may raise; the store
    survives an exception. *)
Definition M (A : Type) : Type := store → result A * store.

#[global] Instance M_ret : MRet M := λ A a σ, (Ok a, σ).
#[global] Instance M_bind : MBind M := λ A B f m σ,
  match m σ with
  | (Ok a, σ') => f a σ'
  | (Raise e, σ') => (Raise e, σ')
  end.

Definition lift {A : Type} (r : result A) : M A := λ σ, (r, σ).

Definition deref (h : ref) : M Heatmap := λ σ,
  match σ !! h with
  | Some o => (Ok o, σ)
  | None => (Raise AttributeError, σ)
  end.

Definition alloc (o : Heatmap) : M ref := λ σ, (Ok (length σ), σ ++ [o]).

(** Replaces the counter of the object [h] denotes. *)
Definition write_points (h : ref) (pts : gmap Point R) : M unit := λ σ,
  match σ !! h with
  | Some o => (Ok tt, <[h := mkHeatmap (clusterer o) pts]> σ)
  | None => (Raise AttributeError, σ)
  end.

(** [for x in xs: body(x)]. *)
Fixpoint for_each {A : Type} (xs : list A) (body : A → M unit) : M unit :=
  match xs with
  | [] => mret tt
  | x :: xs => body x ≫= λ _, for_each xs body
  end.

(** A loop that carries an accumulator. *)
Fixpoint fold_each {A B : Type} (xs : list A) (acc : B) (body : B → A → M B)
  : M B :=
  match xs with
  | [] => mret acc
  | x :: xs => body acc x ≫= λ acc, fold_each xs acc body
  end.

(** [Heatmap(clusterer)]. *)
Definition Heatmap_new (c : Clusterer) : M ref := alloc (mkHeatmap c ∅).

(** [self.points[point]] of a [Counter]: 0 for a missing key, which is not
    inserted. *)
Definition Heatmap_getitem (self : ref) (point : Point) : M R :=
  o ← deref self; mret (default 0%R (points o !! point)).

(** [self.points[point] = value]. *)
Definition Heatmap_setitem (self : ref) (point : Point) (value : R) : M unit :=
  o ← deref self; write_points self (<[point := value]> (points o)).

(** [self.points.get(self.clusterer.cluster_point(point), 0)]. *)
Definition Heatmap_get (self : ref) (point : Point) : M R :=
  o ← deref self;
  mret (default 0%R (points o !! cluster_point (clusterer o) point)).

Definition Heatmap_len (self : ref) : M nat :=
  o ← deref self; mret (size (points o)).

(** [self.points.items()] and [self.points.values()]. *)
Definition Heatmap_items (self : ref) : M (list (Point * R)) :=
  o ← deref self; mret (map_to_list (points o)).

Definition Heatmap_values (self : ref) : M (list R) :=
  o ← deref self; mret ((map_to_list (points o)).*2).

Definition Heatmap_min_value (self : ref) : M R :=
  values ← Heatmap_values self; lift (py_min values).

Definition Heatmap_max_value (self : ref) : M R :=
  values ← Heatmap_values self; lift (py_max values).

(** [update]: every point that [cluster_points] yields is counted. *)
Definition Heatmap_update (self : ref) (line : list Point) : M unit :=
  o ← deref self;
  for_each (cluster_points (clusterer o) line) (λ point,
    count ← Heatmap_getitem self point;
    Heatmap_setitem self point (count + 1)%R).

(** [Heatmap.from_lines(clusterer, lines)]. *)
Definition Heatmap_from_lines (c : Clusterer) (lines : list (list Point))
  : M ref :=
  heatmap ← Heatmap_new c;
  for_each lines (Heatmap_update heatmap);;
  mret heatmap.

(** [cluster_heatmap]: the base class (and with it the scaled clusterer)
    returns the heatmap it is given; a kernel clusterer fills a new one,
    reading the given one. *)
Definition cluster_heatmap (c : Clusterer) (heatmap : ref) : M ref :=
  match c with
  | Identity | Scaled _ _ => mret heatmap
  | Kernel k =>
      clustered ← Heatmap_new c;
      items ← Heatmap_items heatmap;
      for_each items (λ '(point, _),
        clustered_value ←
          fold_each (kernel_points k point) 0%R
            (λ clustered_value '(kernel_point, weight),
               value ← Heatmap_getitem heatmap kernel_point;
               mret (if decide (value = 0%R) then clustered_value
                     else (clustered_value + value * weight)%R));
        Heatmap_setitem clustered point clustered_value);;
      mret clustered
  end.

(** A [norm_func(value, max_value)] of the caller; it may raise. *)
Definition NormFunc : Type := R → R → result R.

Definition apply_norm (norm_func : option NormFunc) (value max_value : R)
  : result R :=
  match norm_func with
  | Some f => f value max_value
  | None => Ok value
  end.

(** [a / b] on floats. *)
Definition py_div (a b : R) : result R :=
  if decide (b = 0%R) then Raise ZeroDivisionError else Ok (a / b)%R.

(** [math.log(x)]. *)
Definition py_log (x : R) : result R :=
  if Rlt_dec 0 x then Ok (ln x) else Raise ValueError.

Definition Heatmap_normalize (self : ref) (norm_func : option NormFunc)
  : M ref :=
  o ← deref self;
  clustered ← cluster_heatmap (clusterer o) self;
  max_value ← Heatmap_max_value clustered;
  max_value ← lift (apply_norm norm_func max_value max_value);
  normalized ← Heatmap_new (clusterer o);
  items ← Heatmap_items clustered;
  for_each items (λ '(point, value),
    value ← lift (apply_norm norm_func value max_value);
    quotient ← lift (py_div (value * 1) max_value);
    Heatmap_setitem normalized point quotient);;
  mret normalized.

(** [lambda value, max_value: math.log(value+1)]. *)
Definition log_norm : NormFunc := λ value max_value, py_log (value + 1).

Definition Heatmap_normalize_log (self : ref) : M ref :=
  Heatmap_normalize self (Some log_norm).

(** *** What the loops compute

    The functions below describe the counter an object ends with; the
    lemmas [*_run] relate them to the loops above. *)

(** One pass of [self.points[point] += 1]. *)
Definition incr (point : Point) (pts : gmap Point R) : gmap Point R :=
  <[point := (default 0 (pts !! point) + 1)%R]> pts.

Definition count_points (line : list Point) (pts : gmap Point R)
  : gmap Point R :=
  foldl (λ pts point, incr point pts) pts line.

Definition count_lines (c : Clusterer) (lines : list (list Point))
    (pts : gmap Point R) : gmap Point R :=
  foldl (λ pts line, count_points (cluster_points c line) pts) pts lines.

(** The weighted sum that a kernel clusterer stores for [point]. *)
Definition kernel_value (k : KernelClusterer) (pts : gmap Point R)
    (point : Point) : R :=
  foldl (λ clustered_value '(kernel_point, weight),
           let value := default 0%R (pts !! kernel_point) in
           if decide (value = 0%R) then clustered_value
           else (clustered_value + value * weight)%R)
        0%R (kernel_points k point).

(** The counter of the heatmap that [cluster_heatmap] returns. *)
Definition clustered_points (c : Clusterer) (pts : gmap Point R)
  : gmap Point R :=
  match c with
  | Identity | Scaled _ _ => pts
  | Kernel k => map_imap (λ point _, Some (kernel_value k pts point)) pts
  end.

(** How often [point] occurs in a sequence. *)
Definition occurrences (point : Point) (line : list Point) : nat :=
  length (filter (λ p, p = point) line).

(** The sum of a list of reals. *)
Definition sumR (l : list R) : R := foldr Rplus 0%R l.

(** The contribution of one neighbour to the sum of a kernel clusterer. *)
Definition kernel_term (pts : gmap Point R) (kp : Point * R) : R :=
  let value := default 0%R (pts !! kp.1) in
  if decide (value = 0%R) then 0%R else (value * kp.2)%R.

(** What [normalize] stores for a value of the clustered heatmap: the
    transformed value over the transformed maximum [max_value]. *)
Definition norm_entry (norm_func : option NormFunc) (max_value value : R)
  : result R :=
  value ← apply_norm norm_func value max_value;
  py_div (value * 1) max_value.

(** The clusterers [normalize] is meant for: a kernel clusterer needs a
    radius of at least 1, otherwise no offset has a weight. *)
Definition usable (c : Clusterer) : Prop :=
  match c with
  | Identity | Scaled _ _ => True
  | Kernel k => 1 ≤ radius k
  end.

(** A point lies on the coarse grid of a clusterer when it is its own
    cluster representative. *)
Definition on_coarse_grid (c : Clusterer) (point : Point) : Prop :=
  cluster_point c point = point.

(** ** More of geo.py *)

(** [Extent(coords)]: [None] and the empty list leave min and max unset. *)
Definition Extent_init (coords : option (list Point)) : result Extent.t :=
  match coords with
  | Some (c :: cs) => Extent.update Extent.empty (c :: cs)
  | Some [] | None => Ok Extent.empty
  end.

(** [self.min], [self.max] of an extent that must have them: reading [.x]
    of [None] raises. *)
Definition Extent_bounds (self : Extent.t) : result (Point * Point) :=
  match Extent.min self, Extent.max self with
  | Some lo, Some hi => Ok (lo, hi)
  | _, _ => Raise AttributeError
  end.

(** [resize(size)], for an int [size]. *)
Definition Extent_resize (self : Extent.t) (size : Z) : result Extent.t :=
  b ← Extent_bounds self;
  Extent_init (Some [mkPoint (x b.2 + size) (y b.2 + size);
                     mkPoint (x b.1 - size) (y b.1 - size)]).

(** The loop of [Extent.from_lines]. *)
Fixpoint Extent_update_lines (extent : Extent.t) (lines : list PolyLine.t)
  : result Extent.t :=
  match lines with
  | [] => Ok extent
  | line :: lines =>
      extent ← Extent.update extent line; Extent_update_lines extent lines
  end.

(** [Extent.from_lines(lines, margin)]: [if margin] is false for [None]
    and for 0. *)
Definition Extent_from_lines (lines : list PolyLine.t) (margin : option Z)
  : result Extent.t :=
  extent ← Extent_update_lines Extent.empty lines;
  match margin with
  | Some m => if Z.eqb m 0 then Ok extent else Extent_resize extent m
  | None => Ok extent
  end.

Definition Extent_width (self : Extent.t) : result Z :=
  b ← Extent_bounds self; Ok (x b.2 - x b.1 + 1).

Definition Extent_height (self : Extent.t) : result Z :=
  b ← Extent_bounds self; Ok (y b.2 - y b.1 + 1).

(** [translate(coord)] of a point. *)
Definition Extent_translate (self : Extent.t) (coord : Point) : result Point :=
  b ← Extent_bounds self; Ok (mkPoint (x coord - x b.1) (y coord - y b.1)).

(** [is_inside(coord)], also [coord in extent]. *)
Definition Extent_is_inside (self : Extent.t) (coord : Point) : result bool :=
  b ← Extent_bounds self;
  Ok ((Z.leb (x b.1) (x coord) && Z.leb (x coord) (x b.2))
      && (Z.leb (y b.1) (y coord) && Z.leb (y coord) (y b.2))).

(** [PolyLine.extend]. *)
Definition PolyLine_extend (self : PolyLine.t) (coords : list Point)
  : PolyLine.t :=
  foldl PolyLine.append self coords.

(** [PolyLine.extent]: [None] for a polyline without coordinates. *)
Definition PolyLine_extent (self : PolyLine.t) : result (option Extent.t) :=
  if PolyLine.nonempty self then
    e ← Extent_init (Some self); Ok (Some e)
  else Ok None.

(** No two neighbours of a sequence are equal. *)
Fixpoint no_adjacent_dup (l : list Point) : Prop :=
  match l with
  | [] => True
  | a :: l' =>
      match l' with
      | [] => True
      | b :: _ => a ≠ b ∧ no_adjacent_dup l'
      end
  end.

(** An extent that has no bounds yet, or whose bounds are in order and
    strictly positive (the idiom of [Extent.update] then never meets 0). *)
Definition positive_extent (e : Extent.t) : Prop :=
  match Extent.min e, Extent.max e with
  | None, None => True
  | Some lo, Some hi => 0 < x lo ∧ 0 < y lo ∧ x lo ≤ x hi ∧ y lo ≤ y hi
  | _, _ => False
  end.

Definition positive_point (c : Point) : Prop := 0 < x c ∧ 0 < y c.

(** [math.degrees(r)]. *)
Definition degrees (r : R) : R := (r * 180 / PI)%R.

(** The two projection classes and what [Projection.__init__] stores. *)
Inductive ProjectionKind : Set :=
| EquirectangularProjection
| WebMercatorProjection.

Definition EARTH_RADIUS (kind : ProjectionKind) : R :=
  match kind with
  | EquirectangularProjection => AVG_EARTH_RADIUS
  | WebMercatorProjection => 6378137
  end.

Record Projection : Type := mkProjection {
  kind : ProjectionKind;
  meters_per_degree : R;
  meters_per_radian : R;
  pixels_per_degree : R;
  pixels_per_radian : R
}.

(** [set_pixels_per_degree(value)]. *)
Definition set_pixels_per_degree (self : Projection) (value : R) : Projection :=
  mkProjection (kind self) (meters_per_degree self) (meters_per_radian self)
               value (degrees value).

(** [set_meters_per_pixel(value)]. *)
Definition set_meters_per_pixel (self : Projection) (value : R)
  : result Projection :=
  ppd ← py_div (meters_per_degree self) value;
  Ok (set_pixels_per_degree self ppd).

(** [Projection.__init__(scale)] of the class [kind].  The two pixel
    attributes are [None] until [set_meters_per_pixel] writes both of them
    or raises, in which case no instance is built; the 0 that stands for
    [None] here is never read. *)
Definition Projection_init (kind : ProjectionKind) (scale : R)
  : result Projection :=
  let mpd := (2 * PI * EARTH_RADIUS kind / 360)%R in
  set_meters_per_pixel (mkProjection kind mpd (degrees mpd) 0 0) scale.

(** [project(latlon)] of the two classes. *)
Definition Projection_project (self : Projection) (latlon : LatLon)
  : result Coord :=
  match kind self with
  | EquirectangularProjection =>
      Ok (mkCoord (lon latlon * pixels_per_degree self)
                  (lat latlon * pixels_per_degree self))
  | WebMercatorProjection =>
      l ← py_log (tan (PI / 4 + radians (lat latlon / 2)));
      Ok (mkCoord (lon latlon * pixels_per_degree self)
                  (pixels_per_radian self * l))
  end.

(** How many gaps [get_lines] sees in an activity. *)
Fixpoint gaps_after (max_gap : R) (prev : option LatLon)
    (activity : list LatLon) : nat :=
  match activity with
  | [] => 0
  | latlon :: activity =>
      ((if is_gap max_gap (LatLon_distance latlon prev) then 1 else 0)
       + gaps_after max_gap (Some latlon) activity)%nat
  end.

(** ** loaders.py: the distances of an activity *)

(** The loop of [Activity.distance]: the sum of the distances between
    consecutive points. *)
Fixpoint Activity_distance_from (distance : R) (prev_latlon : option LatLon)
    (latlons : list LatLon) : R :=
  match latlons with
  | [] => distance
  | latlon :: latlons =>
      Activity_distance_from
        (match LatLon_distance latlon prev_latlon with
         | Some d => distance + d
         | None => distance
         end)%R
        (Some latlon) latlons
  end.

Definition Activity_distance (latlons : list LatLon) : R :=
  Activity_distance_from 0 None latlons.

(** [avg_distance]: the distance over the number of points. *)
Definition Activity_avg_distance (latlons : list LatLon) : result R :=
  py_div (Activity_distance latlons) (INR (length latlons)).

(** The clusterers whose [cluster_heatmap] is the one of the base class. *)
Definition plain_clusterer (c : Clusterer) : Prop :=
  match c with Identity | Scaled _ _ => True | Kernel _ => False end.

(** ** timeseries.py: [Timeseries]

    The class keeps values sorted by date.  The dates of the program are
    [datetime] objects; the class uses nothing of them but [<] and [==],
    so the model takes any type [T] with a decidable order [before].  The
    values are any type [A]. *)

(** The group keys of the module: [None] ([all_group]) or a tuple of
    integers (the other group functions). *)
Inductive key : Set :=
| KNone
| KTuple (items : list Z).

#[global] Instance key_eq_dec : EqDecision key.
Proof. solve_decision. Defined.

(** Truth value of a key: [None] and the empty tuple are false. *)
Definition truthy (k : key) : bool :=
  match k with
  | KTuple (_ :: _) => true
  | _ => false
  end.

(** Calling [None] as a function. *)
Inductive ts_exn : Set :=
| TypeError.

Section Timeseries.

Context {T : Type} `{Countable T} (before : relation T) `{!RelDecision before}.
Context {A : Type}.

(** [bisect.bisect_left(a, x)]: the loop of the library,
    [while lo < hi: mid = (lo+hi)//2; if a[mid] < x: lo = mid+1 else:
    hi = mid].  The distance between [lo] and [hi] decreases in every
    round, so [length a] rounds are enough. *)
Fixpoint bisect_left_loop (rounds : nat) (a : list T) (x : T)
    (lo hi : nat) : nat :=
  match rounds with
  | O => lo
  | S rounds =>
      if decide (lo < hi)%nat then
        let mid := ((lo + hi) / 2)%nat in
        match a !! mid with
        | Some a_mid =>
            if decide (before a_mid x)
            then bisect_left_loop rounds a x (mid + 1) hi
            else bisect_left_loop rounds a x lo mid
        | None => lo
        end
      else lo
  end.

Definition bisect_left (a : list T) (x : T) : nat :=
  bisect_left_loop (length a) a x 0 (length a).

(** [list.insert(index, x)]: before position [index], at the end when
    [index] is the length or more. *)
Definition py_insert (index : nat) (x : T) (l : list T) : list T :=
  take index l ++ x :: drop index l.

(** An instance: the sorted list [_dates] and the [defaultdict(list)]
    [_values]. *)
Record Timeseries : Type := mkTimeseries {
  _dates : list T;
  _values : gmap T (list A)
}.

Definition Timeseries_init : Timeseries := mkTimeseries [] ∅.

(** [d[date]] on a [defaultdict(list)]: a missing key is added with an
    empty list. *)
Definition defaultdict_get (date : T) (values : gmap T (list A))
  : list A * gmap T (list A) :=
  match values !! date with
  | Some l => (l, values)
  | None => ([], <[date := []]> values)
  end.

Definition Timeseries_add (date : T) (value : A) (self : Timeseries)
  : Timeseries :=
  let index := bisect_left (_dates self) date in
  let dates :=
    if bool_decide (index < length (_dates self))%nat
       && bool_decide (_dates self !! index = Some date)
    then _dates self
    else py_insert index date (_dates self) in
  let '(l, values) := defaultdict_get date (_values self) in
  mkTimeseries dates (<[date := l ++ [value]]> values).

(** A sequence of [add] calls, as the loop of [main.py] makes them. *)
Definition Timeseries_adds (entries : list (T * A)) (self : Timeseries)
  : Timeseries :=
  foldl (λ ts e, Timeseries_add e.1 e.2 ts) self entries.

(** [__len__] *)
Definition Timeseries_len (self : Timeseries) : nat :=
  sum_list (length <$> (map_to_list (_values self)).*2).

(** [__iter__]: the values yielded and the instance afterwards
    ([self._values[date]] writes when the date has no values). *)
Fixpoint iter_from (dates : list T) (values : gmap T (list A))
  : list A * gmap T (list A) :=
  match dates with
  | [] => ([], values)
  | date :: dates =>
      let '(l, values) := defaultdict_get date values in
      let '(rest, values) := iter_from dates values in
      (l ++ rest, values)
  end.

Definition Timeseries_iter (self : Timeseries) : list A * Timeseries :=
  let '(out, values) := iter_from (_dates self) (_values self) in
  (out, mkTimeseries (_dates self) values).

(** What [_grouped_values] yields as second component: the instance
    itself or a list of values. *)
Inductive group_values : Type :=
| Whole (self : Timeseries)
| Values (values : list A).

(** The loop of [_grouped_values] from the dates left, with the locals
    [values] and [prev_group]: the pairs yielded, the exception that ended
    the generator if any, and [_values] afterwards. *)
Fixpoint grouped_from (group_func : option (T → key)) (dates : list T)
    (store : gmap T (list A)) (values : list A) (prev_group : key)
  : list (key * group_values) * option ts_exn * gmap T (list A) :=
  match dates with
  | [] =>
      (match values with
       | [] => []
       | _ :: _ => [(prev_group, Values values)]
       end, None, store)
  | date :: dates =>
      match group_func with
      | None => ([], Some TypeError, store)
      | Some f =>
          let group := f date in
          let split :=
            truthy prev_group && negb (bool_decide (group = prev_group)) in
          let '(l, store) := defaultdict_get date store in
          let '(out, e, store) :=
            grouped_from group_func dates store
              ((if split then [] else values) ++ l) group in
          ((if split then [(prev_group, Values values)] else []) ++ out,
           e, store)
      end
  end.

Definition Timeseries_grouped_values (group_func : option (T → key))
    (self : Timeseries)
  : list (key * group_values) * option ts_exn * Timeseries :=
  let first :=
    match group_func with
    | None => [(KNone, Whole self)]
    | Some _ => []
    end in
  let '(out, e, store) :=
    grouped_from group_func (_dates self) (_values self) [] KNone in
  (first ++ out, e, mkTimeseries (_dates self) store).

Definition all_group (date : T) : key := KNone.

(** The property [all]. *)
Definition Timeseries_all (self : Timeseries) :=
  Timeseries_grouped_values (Some all_group) self.

(** The values in the order of [__iter__], each with its date. *)
Definition Timeseries_entries (self : Timeseries) : list (T * A) :=
  d ← _dates self; (λ v, (d, v)) <$> default [] (_values self !! d).

End Timeseries.

(** The group functions as [_grouped_values] gets them: tuples. *)
Definition year_key (d : date) : key := KTuple [year_group d].

Definition month_key (d : date) : key :=
  KTuple [(month_group d).1; (month_group d).2].

Definition day_key (d : date) : key := KTuple [year d; month d; day d].

(** The order of dates. *)
Definition date_before (a b : date) : Prop :=
  year a < year b
  ∨ (year a = year b
     ∧ (month a < month b ∨ (month a = month b ∧ day a < day b))).

#[global] Instance date_eq_dec : EqDecision date.
Proof. solve_decision. Defined.

#[global] Instance date_countable : Countable date.
Proof.
  refine (inj_countable' (λ d, (year d, month d, day d))
            (λ t, mkDate t.1.1 t.1.2 t.2) _).
  by intros [].
Defined.

#[global] Instance date_before_dec : RelDecision date_before.
Proof. intros a b. unfold date_before. apply _. Defined.

Definition Timeseries_yearly {A} (self : @Timeseries date _ _ A) :=
  Timeseries_grouped_values (Some year_key) self.

Definition Timeseries_monthly {A} (self : @Timeseries date _ _ A) :=
  Timeseries_grouped_values (Some month_key) self.

Definition Timeseries_daily {A} (self : @Timeseries date _ _ A) :=
  Timeseries_grouped_values (Some day_key) self.

(** A list of keys without the adjacent repetitions: the keys of the
    groups in the order of the dates. *)
Fixpoint uniq (ks : list key) : list key :=
  match ks with
  | [] => []
  | k :: ks' =>
      match ks' with
      | [] => [k]
      | k' :: _ => if decide (k = k') then uniq ks' else k :: uniq ks'
      end
  end.

(** ** Properties *)

Lemma py_round_near (r : R) (z : Z) :
  (IZR z - / 2 < r < IZR z + / 2)%R → py_round r = z.
Proof.
  intros [Hlo Hhi]. unfold py_round. destruct (Rle_dec 0 r) as [Hr|Hr].
  - symmetry. apply Int_part_spec. lra.
  - assert (Hz : (- z)%Z = Int_part (- r + / 2)).
    { apply Int_part_spec. rewrite opp_IZR. lra. }
    lia.
Qed.

Lemma py_round_IZR (z : Z) : py_round (IZR z) = z.
Proof. apply py_round_near. lra. Qed.

Lemma Point_new_IZR (a b : Z) : Point_new (IZR a) (IZR b) = mkPoint a b.
Proof. unfold Point_new. by rewrite !py_round_IZR. Qed.

(** *** Extent.update (C3) *)

(** C3 (the code departs from the claim).  The claim: once an extent holds
    a min and a max, [update] never increases a component of min and never
    decreases a component of max.  The code computes the new bound with
    [self.min and min(self.min.x, min_x) or min_x]; when the right bound is
    0 the [or] branch replaces it by the bound of the new coordinates alone.
    An extent whose min and max are (0, 0), updated with the single
    coordinate (5, 5), ends with min = (5, 5): both components of min
    increased, and the origin is no longer inside the extent. *)
Theorem Extent_update_zero_min_increases :
  Extent.update (Extent.mk (Some (mkPoint 0 0)) (Some (mkPoint 0 0)))
                [mkPoint 5 5]
  = Ok (Extent.mk (Some (mkPoint 5 5)) (Some (mkPoint 5 5))).
Proof. reflexivity. Qed.

(** The same slip on the other bound: max = (0, 0) updated with (-5, -5)
    drops to (-5, -5). *)
Lemma Extent_update_zero_max_decreases :
  Extent.update (Extent.mk (Some (mkPoint 0 0)) (Some (mkPoint 0 0)))
                [mkPoint (-5) (-5)]
  = Ok (Extent.mk (Some (mkPoint (-5) (-5))) (Some (mkPoint (-5) (-5)))).
Proof. reflexivity. Qed.

(** Away from 0 the idiom is harmless: when no component of the current
    min and max is 0, [update] does not increase min and does not decrease
    max. *)
Lemma Extent_update_monotone_nonzero (lo hi : Point) (coords : list Point)
    (e' : Extent.t) :
  x lo ≠ 0 → y lo ≠ 0 → x hi ≠ 0 → y hi ≠ 0 →
  Extent.update (Extent.mk (Some lo) (Some hi)) coords = Ok e' →
  ∃ lo' hi',
    e' = Extent.mk (Some lo') (Some hi')
    ∧ x lo' ≤ x lo ∧ y lo' ≤ y lo ∧ x hi ≤ x hi' ∧ y hi ≤ y hi'.
Proof.
  intros Hxl Hyl Hxh Hyh. unfold Extent.update.
  destruct (py_max_Z (x <$> coords)) as [max_x|]; [|done].
  destruct (py_min_Z (x <$> coords)) as [min_x|]; [|done].
  destruct (py_max_Z (y <$> coords)) as [max_y|]; [|done].
  destruct (py_min_Z (y <$> coords)) as [min_y|]; [|done].
  simpl. intros [= <-]. eexists _, _. split; [reflexivity|].
  unfold Extent.and_or. simpl.
  repeat match goal with
         | |- context [Z.eqb ?a 0] => destruct (Z.eqb_spec a 0)
         end; lia.
Qed.

(** *** quarter_group (C4) *)

(** Under floor division [quarter_group] returns the year paired with the
    integer [(month - 1) // 3 + 1]; that integer is the ceiling of
    month / 3 and lies between 1 and 4. *)
Lemma quarter_group_floor_division (d : date) :
  valid_month d →
  quarter_group Python2 d = (year d, PyInt ((month d - 1) / 3 + 1))
  ∧ (month d - 1) / 3 + 1 = Qceiling (month d # 3)
  ∧ 1 ≤ (month d - 1) / 3 + 1 ≤ 4.
Proof.
  unfold valid_month, quarter_group. destruct d as [yr m dy]; simpl.
  intros Hm. split; [done|].
  assert (Hcases : m = 1 ∨ m = 2 ∨ m = 3 ∨ m = 4 ∨ m = 5 ∨ m = 6 ∨ m = 7
                   ∨ m = 8 ∨ m = 9 ∨ m = 10 ∨ m = 11 ∨ m = 12) by lia.
  repeat (destruct Hcases as [->|Hcases]); try subst m;
    (split; [reflexivity | vm_compute; split; discriminate]).
Qed.

(** C4.  Under true division the quarter that [quarter_group] returns is a
    float which, for every month that does not open a quarter, lies
    strictly between the quarter of the claim, [(month - 1) // 3 + 1], and
    the next integer: it is no integer at all. *)
Theorem quarter_group_true_division (d : date) :
  valid_month d → (month d - 1) mod 3 ≠ 0 →
  ∃ q,
    quarter_group Python3 d = (year d, PyFloat q)
    ∧ (IZR ((month d - 1) / 3 + 1) < q < IZR ((month d - 1) / 3 + 1) + 1)%R
    ∧ ∀ n : Z, q ≠ IZR n.
Proof.
  unfold valid_month, quarter_group. destruct d as [yr m dy]; simpl.
  intros Hm Hmod. eexists. split; [reflexivity|].
  assert (Hb : (IZR ((m - 1) / 3 + 1) < IZR (m - 1) / 3 + 1
                < IZR ((m - 1) / 3 + 1) + 1)%R).
  { pose proof (Z.div_mod (m - 1) 3 ltac:(lia)) as Hdm.
    pose proof (Z.mod_pos_bound (m - 1) 3 ltac:(lia)) as Hr.
    set (k := (m - 1) / 3) in *. set (r := (m - 1) mod 3) in *.
    assert (Hm1 : IZR (m - 1) = (3 * IZR k + IZR r)%R).
    { rewrite Hdm, plus_IZR, mult_IZR. lra. }
    assert (H1 : (1 <= IZR r)%R) by (apply IZR_le; lia).
    assert (H2 : (IZR r <= 2)%R) by (apply IZR_le; lia).
    rewrite plus_IZR, Hm1. lra. }
  split; [exact Hb|].
  intros n E. rewrite E in Hb. destruct Hb as [H1 H2].
  rewrite <- plus_IZR in H2. apply lt_IZR in H1, H2. lia.
Qed.

(** 5 November 2021: the quarter is 10/3 + 1, between 4 and 5. *)
Lemma quarter_group_true_division_witness :
  ∃ q,
    quarter_group Python3 (mkDate 2021 11 5) = (2021, PyFloat q)
    ∧ (4 < q < 5)%R.
Proof.
  destruct (quarter_group_true_division (mkDate 2021 11 5))
    as (q & E & Hb & _).
  - unfold valid_month. simpl. lia.
  - simpl. discriminate.
  - exists q. split; [exact E|].
    assert (Hq : (month (mkDate 2021 11 5) - 1) / 3 + 1 = 4) by reflexivity.
    rewrite Hq in Hb. lra.
Defined.

(** Under true division the quarters of two dates are equal only when the
    months are: grouping by [quarter_group] is then grouping by month. *)
Lemma quarter_group_true_division_by_month (d d' : date) :
  quarter_group Python3 d = quarter_group Python3 d' →
  year d = year d' ∧ month d = month d'.
Proof.
  unfold quarter_group. simpl. intros [= Hy Hq]. split; [done|].
  assert (E : IZR (month d - 1) = IZR (month d' - 1)) by lra.
  apply eq_IZR in E. lia.
Qed.

(** *** get_lines (C2) *)

Lemma PolyLine_last_append (line : PolyLine.t) (c : Point) :
  last (PolyLine.append line c) = Some c.
Proof.
  unfold PolyLine.append. destruct (last line) as [c'|] eqn:Hl.
  - destruct (decide (c' = c)) as [->|]; [done|]. apply last_snoc.
  - apply last_snoc.
Qed.

Lemma PolyLine_nonempty_last (line : PolyLine.t) (c : Point) :
  last line = Some c → PolyLine.nonempty line = true.
Proof. by destruct line. Qed.

Lemma PolyLine_append_empty (c : Point) :
  PolyLine.append PolyLine.empty c = [c].
Proof. reflexivity. Qed.

Lemma sum_list_app (l k : list nat) :
  sum_list (l ++ k) = (sum_list l + sum_list k)%nat.
Proof. induction l as [|n l IH]; simpl; lia. Qed.

Section get_lines_properties.

Variable project : LatLon → Coord.
Variable max_gap : R.

Local Abbreviation lines_from := (get_lines_from project max_gap).
Local Abbreviation lines := (get_lines project max_gap).
Local Abbreviation gap := (is_gap max_gap).
Local Abbreviation pixel := (project_point project).

Lemma is_gap_Some (latlon : LatLon) (prev : option LatLon) :
  gap (LatLon_distance latlon prev) = true → ∃ p, prev = Some p.
Proof. destruct prev; [eauto | discriminate]. Qed.

Lemma get_lines_from_count (activity : list LatLon) :
  ∀ line prev, loop_state project line prev →
    (sum_list (length <$> lines_from line prev activity)
     + duplicates_after project max_gap prev activity
     = length line + length activity)%nat.
Proof.
  induction activity as [|latlon activity IH]; intros line prev Hst.
  { simpl. lia. }
  cbn [get_lines_from duplicates_after].
  destruct (gap _) eqn:Hgap.
  - destruct (is_gap_Some _ _ Hgap) as [p ->]. simpl in Hst.
    rewrite (PolyLine_nonempty_last _ _ Hst).
    rewrite fmap_app, sum_list_app. simpl.
    specialize (IH (PolyLine.append PolyLine.empty (pixel latlon))
                   (Some latlon) (PolyLine_last_append _ _)).
    rewrite PolyLine_append_empty in *. simpl in IH. lia.
  - specialize (IH (PolyLine.append line (pixel latlon))
                   (Some latlon) (PolyLine_last_append _ _)).
    destruct prev as [p|]; simpl in Hst.
    + unfold PolyLine.append in *. rewrite Hst in *. simpl.
      destruct (decide (pixel p = pixel latlon)) as [Heq|Hne].
      * rewrite bool_decide_true by done. lia.
      * rewrite bool_decide_false by congruence.
        rewrite length_app in IH. simpl in IH. lia.
    + subst line. simpl in *. lia.
Qed.

Lemma get_lines_from_nonnil (activity : list LatLon) :
  ∀ line prev, lines_from line prev activity ≠ [].
Proof.
  induction activity as [|q activity IH]; intros line prev; [done|].
  cbn [get_lines_from]. destruct (gap _); [|apply IH].
  intros [_ E]%app_eq_nil. by apply IH in E.
Qed.

Lemma PolyLine_head_append (line : PolyLine.t) (c d : Point) :
  head line = Some c → head (PolyLine.append line d) = Some c.
Proof.
  intros Hc. unfold PolyLine.append.
  destruct (last line); [destruct (decide _)|]; by destruct line.
Qed.

(** The first polyline yielded from a state whose polyline starts with [c]
    starts with [c]. *)
Lemma get_lines_from_head (activity : list LatLon) :
  ∀ line prev c l ls,
    head line = Some c →
    lines_from line prev activity = l :: ls → head l = Some c.
Proof.
  induction activity as [|q activity IH]; intros line prev c l ls Hc E.
  - by inversion E; subst.
  - cbn [get_lines_from] in E. destruct (gap _).
    + destruct line as [|c' line]; [done|]. by inversion E; subst.
    + eapply IH, E. by apply PolyLine_head_append.
Qed.

Lemma get_lines_from_boundary (pre : list LatLon) (a b : LatLon)
    (post : list LatLon) :
  gap (LatLon_distance b (Some a)) = true →
  ∀ line prev,
    ∃ ls l1,
      lines_from line prev (pre ++ [a]) = ls ++ [l1]
      ∧ last l1 = Some (pixel a)
      ∧ lines_from line prev (pre ++ a :: b :: post)
        = ls ++ l1 :: lines_from [pixel b] (Some b) post.
Proof.
  intros Hgap. induction pre as [|q pre IH]; intros line prev.
  - cbn [app get_lines_from]. rewrite Hgap.
    destruct (gap (LatLon_distance a prev)).
    + exists (if PolyLine.nonempty line then [line] else []),
             (PolyLine.append PolyLine.empty (pixel a)).
      rewrite (PolyLine_nonempty_last _ _ (PolyLine_last_append _ _)).
      split_and!; [done | apply PolyLine_last_append | done].
    + exists [], (PolyLine.append line (pixel a)).
      rewrite (PolyLine_nonempty_last _ _ (PolyLine_last_append _ _)).
      split_and!; [done | apply PolyLine_last_append | done].
  - cbn [app get_lines_from].
    destruct (gap (LatLon_distance q prev)).
    + destruct (IH (PolyLine.append PolyLine.empty (pixel q))
                   (Some q)) as (ls & l1 & E1 & Hl & E2).
      exists ((if PolyLine.nonempty line then [line] else []) ++ ls), l1.
      rewrite E1, E2. by rewrite <- !(assoc_L (++)).
    + destruct (IH (PolyLine.append line (pixel q)) (Some q))
        as (ls & l1 & E1 & Hl & E2).
      exists ls, l1. by rewrite E1, E2.
Qed.

(** Whenever the distance between two consecutive input points [a], [b]
    is not zero and strictly exceeds the threshold, whatever the sign of
    the threshold, the output is the segmentation of the points up to [a]
    followed by the segmentation of the points from [b] on. *)
Lemma get_lines_gap_boundary (pre : list LatLon) (a b : LatLon)
    (post : list LatLon) (d : R) :
  LatLon_distance b (Some a) = Some d →
  d ≠ 0%R → (d > max_gap)%R →
  ∃ ls1 l1 l2 ls2,
    lines (pre ++ a :: b :: post) = ls1 ++ l1 :: l2 :: ls2
    ∧ lines (pre ++ [a]) = ls1 ++ [l1]
    ∧ lines (b :: post) = l2 :: ls2
    ∧ last l1 = Some (pixel a)
    ∧ head l2 = Some (pixel b).
Proof.
  intros Hd Hnz Hgt.
  assert (Hgap : gap (LatLon_distance b (Some a)) = true).
  { rewrite Hd. unfold is_gap.
    destruct (decide (d = 0%R)); [done|].
    by destruct (Rgt_dec d max_gap). }
  destruct (get_lines_from_boundary pre a b post Hgap [] None)
    as (ls & l1 & E1 & Hl & E2).
  assert (Hb : lines (b :: post)
               = lines_from [pixel b] (Some b) post)
    by reflexivity.
  destruct (lines_from [pixel b] (Some b) post) as [|l2 ls2] eqn:E3.
  { by apply get_lines_from_nonnil in E3. }
  exists ls, l1, l2, ls2. split_and!; try done.
  by apply (get_lines_from_head post [pixel b] (Some b) (pixel b) l2 ls2).
Qed.

(** C2.  For every activity and every threshold that is a distance (not
    negative), the point counts of the polylines that [lines] yields add
    up to the number of input points minus the number of consecutive
    duplicates; and whenever the distance between two consecutive input
    points [a], [b] strictly exceeds the threshold, the output is the
    segmentation of the points up to [a] followed by the segmentation of
    the points from [b] on: a polyline ending with [a] is followed by a
    polyline starting with [b]. *)
Theorem get_lines_segmentation (activity : list LatLon) :
  (0 <= max_gap)%R →
  (Z.of_nat (sum_list (length <$> lines activity))
   = Z.of_nat (length activity)
     - Z.of_nat (duplicates project max_gap activity))
  ∧ ∀ pre a b post d,
      activity = pre ++ a :: b :: post →
      LatLon_distance b (Some a) = Some d →
      (d > max_gap)%R →
      ∃ ls1 l1 l2 ls2,
        lines activity = ls1 ++ l1 :: l2 :: ls2
        ∧ lines (pre ++ [a]) = ls1 ++ [l1]
        ∧ lines (b :: post) = l2 :: ls2
        ∧ last l1 = Some (pixel a)
        ∧ head l2 = Some (pixel b).
Proof.
  intros Hgap0. split.
  - pose proof (get_lines_from_count activity [] None eq_refl) as H.
    unfold lines, duplicates, PolyLine.empty. simpl in H. lia.
  - intros pre a b post d -> Hd Hgt.
    apply (get_lines_gap_boundary pre a b post d Hd); [|done].
    intros ->. lra.
Qed.

End get_lines_properties.

Lemma PI_gt_3 : (3 < PI)%R.
Proof. pose proof PI2_3_2. lra. Qed.

Lemma METERS_PER_DEGREE_lower : (100000 < METERS_PER_DEGREE)%R.
Proof.
  unfold METERS_PER_DEGREE, AVG_EARTH_RADIUS. pose proof PI_gt_3. lra.
Qed.

Lemma hypot_ge_abs (a b : R) : (0 <= a → a <= hypot (- a) b)%R.
Proof.
  intros Ha. unfold hypot.
  rewrite <- (sqrt_square a) at 1 by done.
  apply sqrt_le_1_alt. nra.
Qed.

Lemma hypot_0_0 : hypot 0 0 = 0%R.
Proof. unfold hypot. rewrite Rmult_0_l, Rplus_0_l. apply sqrt_0. Qed.

Lemma LatLon_distance_self (p : LatLon) :
  LatLon_distance p (Some p) = Some 0%R.
Proof.
  unfold LatLon_distance. f_equal.
  rewrite !Rminus_diag, Rmult_0_l, hypot_0_0. lra.
Qed.

(** Ten degrees south-west of (10, 10), seen from the equator: far more than
    700 m. *)
Lemma LatLon_distance_far :
  ∃ d, LatLon_distance (mkLatLon 0 0) (Some (mkLatLon 10 10)) = Some d
       ∧ d ≠ 0%R ∧ (d > 700)%R.
Proof.
  eexists. split; [reflexivity|]. simpl.
  assert (H : (10 <= hypot (0 - 10) ((0 - 10) * cos (radians 0)))%R).
  { replace (0 - 10)%R with (- 10)%R by lra. apply hypot_ge_abs. lra. }
  pose proof METERS_PER_DEGREE_lower. split; nra.
Qed.

(** The boundary between (10, 10) and (0, 0), more than 700 m apart. *)
Lemma get_lines_segmentation_witness :
  ∃ d, LatLon_distance (mkLatLon 0 0) (Some (mkLatLon 10 10)) = Some d
       ∧ (0 <= 700)%R ∧ (d > 700)%R
       ∧ ∃ ls1 l1 l2 ls2,
           get_lines (Equirectangular_project 1) 700
                     [mkLatLon 10 10; mkLatLon 0 0]
           = ls1 ++ l1 :: l2 :: ls2
           ∧ get_lines (Equirectangular_project 1) 700 [mkLatLon 10 10]
             = ls1 ++ [l1]
           ∧ get_lines (Equirectangular_project 1) 700 [mkLatLon 0 0]
             = l2 :: ls2
           ∧ last l1
             = Some (project_point (Equirectangular_project 1) (mkLatLon 10 10))
           ∧ head l2
             = Some (project_point (Equirectangular_project 1) (mkLatLon 0 0)).
Proof.
  destruct LatLon_distance_far as (d & Hd & Hnz & Hgt).
  exists d. split_and!; [done|lra|done|].
  exact (proj2 (get_lines_segmentation (Equirectangular_project 1) 700
                  [mkLatLon 10 10; mkLatLon 0 0] ltac:(lra))
               [] (mkLatLon 10 10) (mkLatLon 0 0) [] d eq_refl Hd Hgt).
Defined.

(** With a threshold of -1 and the same point twice, the distance 0 exceeds
    the threshold and [get_lines] yields one polyline of one pixel. *)
Lemma get_lines_same_point_negative_gap :
  get_lines (Equirectangular_project 1) (-1) [mkLatLon 0 0; mkLatLon 0 0]
  = [[mkPoint 0 0]].
Proof.
  unfold get_lines. cbn [get_lines_from].
  rewrite LatLon_distance_self. cbn [LatLon_distance is_gap].
  destruct (decide (0%R = 0%R)) as [_|]; [|done].
  assert (Hp : project_point (Equirectangular_project 1) (mkLatLon 0 0)
               = mkPoint 0 0).
  { unfold project_point, Equirectangular_project. simpl.
    rewrite Rmult_0_l. apply Point_new_IZR. }
  rewrite Hp. reflexivity.
Qed.

(** A threshold below 0 is no distance, and for it the boundary is not
    guaranteed: the distance 0 between two equal points exceeds -1, but the
    test [distance and distance > max_gap] takes 0 as false and keeps the
    points in one polyline. *)
Lemma get_lines_negative_threshold :
  ¬ ∀ (project : LatLon → Coord) (max_gap : R) (pre : list LatLon)
      (a b : LatLon) (post : list LatLon) (d : R),
      LatLon_distance b (Some a) = Some d → (d > max_gap)%R →
      ∃ ls1 l1 l2 ls2,
        get_lines project max_gap (pre ++ a :: b :: post)
        = ls1 ++ l1 :: l2 :: ls2.
Proof.
  intros H.
  destruct (H (Equirectangular_project 1) (-1)%R [] (mkLatLon 0 0)
              (mkLatLon 0 0) [] 0%R (LatLon_distance_self _) ltac:(lra))
    as (ls1 & l1 & l2 & ls2 & E).
  simpl in E. rewrite get_lines_same_point_negative_gap in E.
  apply (f_equal length) in E. rewrite length_app in E. simpl in E. lia.
Qed.

(** *** Running computations on a store *)

Lemma bind_run {A B : Type} (m : M A) (f : A → M B) (σ : store) :
  (m ≫= f) σ
  = match m σ with
    | (Ok a, σ') => f a σ'
    | (Raise e, σ') => (Raise e, σ')
    end.
Proof. reflexivity. Qed.

Lemma deref_run (h : ref) (o : Heatmap) (σ : store) :
  σ !! h = Some o → deref h σ = (Ok o, σ).
Proof. intros H. unfold deref. by rewrite H. Qed.

Lemma deref_fail (h : ref) (σ : store) :
  σ !! h = None → deref h σ = (Raise AttributeError, σ).
Proof. intros H. unfold deref. by rewrite H. Qed.

Lemma Heatmap_getitem_run (h : ref) (o : Heatmap) (p : Point) (σ : store) :
  σ !! h = Some o →
  Heatmap_getitem h p σ = (Ok (default 0%R (points o !! p)), σ).
Proof.
  intros H. unfold Heatmap_getitem. by rewrite bind_run, (deref_run h o).
Qed.

Lemma Heatmap_setitem_run (h : ref) (o : Heatmap) (p : Point) (v : R)
    (σ : store) :
  σ !! h = Some o →
  Heatmap_setitem h p v σ
  = (Ok tt, <[h := mkHeatmap (clusterer o) (<[p := v]> (points o))]> σ).
Proof.
  intros H. unfold Heatmap_setitem, write_points.
  by rewrite bind_run, (deref_run h o), H.
Qed.

Lemma Heatmap_values_run (h : ref) (o : Heatmap) (σ : store) :
  σ !! h = Some o →
  Heatmap_values h σ = (Ok ((map_to_list (points o)).*2), σ).
Proof.
  intros H. unfold Heatmap_values. by rewrite bind_run, (deref_run h o).
Qed.

Lemma Heatmap_items_run (h : ref) (o : Heatmap) (σ : store) :
  σ !! h = Some o →
  Heatmap_items h σ = (Ok (map_to_list (points o)), σ).
Proof.
  intros H. unfold Heatmap_items. by rewrite bind_run, (deref_run h o).
Qed.

Lemma Heatmap_max_value_run (h : ref) (o : Heatmap) (σ : store) :
  σ !! h = Some o →
  Heatmap_max_value h σ = (py_max ((map_to_list (points o)).*2), σ).
Proof.
  intros H. unfold Heatmap_max_value.
  by rewrite bind_run, (Heatmap_values_run h o).
Qed.

Lemma Heatmap_min_value_run (h : ref) (o : Heatmap) (σ : store) :
  σ !! h = Some o →
  Heatmap_min_value h σ = (py_min ((map_to_list (points o)).*2), σ).
Proof.
  intros H. unfold Heatmap_min_value.
  by rewrite bind_run, (Heatmap_values_run h o).
Qed.

(** *** update *)

Lemma count_loop_run (h : ref) (line : list Point) :
  ∀ (σ : store) (o : Heatmap),
    σ !! h = Some o →
    for_each line (λ point,
      count ← Heatmap_getitem h point;
      Heatmap_setitem h point (count + 1)%R) σ
    = (Ok tt, <[h := mkHeatmap (clusterer o) (count_points line (points o))]> σ).
Proof.
  induction line as [|p line IH]; intros σ o H.
  - simpl. unfold mret, M_ret. f_equal. symmetry.
    apply list_insert_id. by destruct o.
  - cbn [for_each]. rewrite bind_run, bind_run.
    rewrite (Heatmap_getitem_run h o), (Heatmap_setitem_run h o) by done.
    rewrite (IH _ (mkHeatmap (clusterer o) (incr p (points o)))).
    + by rewrite list_insert_insert_eq.
    + apply list_lookup_insert_eq. by eapply lookup_lt_Some.
Qed.

Lemma Heatmap_update_run (h : ref) (o : Heatmap) (line : list Point)
    (σ : store) :
  σ !! h = Some o →
  Heatmap_update h line σ
  = (Ok tt,
     <[h := mkHeatmap (clusterer o)
              (count_points (cluster_points (clusterer o) line) (points o))]> σ).
Proof.
  intros H. unfold Heatmap_update.
  rewrite bind_run, (deref_run h o) by done. by apply count_loop_run.
Qed.

Lemma Heatmap_update_fail (h : ref) (line : list Point) (σ : store) :
  σ !! h = None → Heatmap_update h line σ = (Raise AttributeError, σ).
Proof.
  intros H. unfold Heatmap_update. by rewrite bind_run, deref_fail.
Qed.

Lemma update_lines_run (h : ref) (lines : list (list Point)) :
  ∀ (σ : store) (o : Heatmap),
    σ !! h = Some o →
    for_each lines (Heatmap_update h) σ
    = (Ok tt,
       <[h := mkHeatmap (clusterer o)
                (count_lines (clusterer o) lines (points o))]> σ).
Proof.
  induction lines as [|line lines IH]; intros σ o H.
  - simpl. unfold mret, M_ret. f_equal. symmetry.
    apply list_insert_id. by destruct o.
  - cbn [for_each]. rewrite bind_run, (Heatmap_update_run h o) by done.
    rewrite (IH _ (mkHeatmap (clusterer o)
                     (count_points (cluster_points (clusterer o) line)
                                   (points o)))).
    + simpl. by rewrite list_insert_insert_eq.
    + apply list_lookup_insert_eq. by eapply lookup_lt_Some.
Qed.

Lemma incr_comm (p q : Point) (pts : gmap Point R) :
  incr p (incr q pts) = incr q (incr p pts).
Proof.
  destruct (decide (p = q)) as [->|Hne]; [done|]. unfold incr.
  rewrite !lookup_insert_ne by done. by apply insert_insert_ne.
Qed.

Lemma count_points_incr (line : list Point) :
  ∀ (q : Point) (pts : gmap Point R),
    count_points line (incr q pts) = incr q (count_points line pts).
Proof.
  induction line as [|p line IH]; intros q pts; [done|].
  cbn [count_points foldl]. fold (count_points line (incr p (incr q pts))).
  fold (count_points line (incr p pts)). by rewrite incr_comm, IH.
Qed.

Lemma count_points_comm (l1 l2 : list Point) :
  ∀ pts : gmap Point R,
    count_points l1 (count_points l2 pts)
    = count_points l2 (count_points l1 pts).
Proof.
  induction l2 as [|q l2 IH]; intros pts; [done|].
  cbn [count_points foldl]. fold (count_points l2 (incr q pts)).
  fold (count_points l2 (incr q (count_points l1 pts))).
  by rewrite IH, count_points_incr.
Qed.

Lemma count_lines_permutation (c : Clusterer) (ls ls' : list (list Point)) :
  ls ≡ₚ ls' →
  ∀ pts : gmap Point R, count_lines c ls pts = count_lines c ls' pts.
Proof.
  induction 1 as [|l ls ls' _ IH|l1 l2 ls|ls ls' ls'' _ IH1 _ IH2];
    intros pts.
  - done.
  - apply IH.
  - cbn [count_lines foldl]. by rewrite count_points_comm.
  - by rewrite IH1.
Qed.

(** C6.  Updating a heatmap with the same polylines in another order leaves
    the same store, so the same count in every cell; and [from_lines] builds
    the same heatmap from any order.  This holds for every clusterer. *)
Theorem Heatmap_update_commutative (ls ls' : list (list Point)) :
  ls ≡ₚ ls' →
  (∀ (h : ref) (σ : store),
     for_each ls (Heatmap_update h) σ = for_each ls' (Heatmap_update h) σ)
  ∧ (∀ (c : Clusterer) (σ : store),
       Heatmap_from_lines c ls σ = Heatmap_from_lines c ls' σ).
Proof.
  intros Hp.
  assert (Hloop : ∀ (h : ref) (σ : store),
    for_each ls (Heatmap_update h) σ = for_each ls' (Heatmap_update h) σ).
  { intros h σ. destruct (σ !! h) as [o|] eqn:Hh.
    - rewrite !(update_lines_run h _ σ o) by done.
      by rewrite (count_lines_permutation _ ls ls').
    - destruct Hp as [|l ls ls' Hp|l1 l2 ls|ls ls' ls'' Hp1 Hp2];
        cbn [for_each]; rewrite ?bind_run, ?Heatmap_update_fail by done;
        try done.
      destruct ls as [|l ls].
      + apply Permutation_nil in Hp1 as ->.
        by apply Permutation_nil in Hp2 as ->.
      + destruct ls'' as [|l'' ls''].
        { symmetry in Hp2. apply Permutation_nil in Hp2 as ->.
          symmetry in Hp1. by apply Permutation_nil in Hp1. }
        cbn [for_each]. by rewrite !bind_run, !Heatmap_update_fail. }
  split; [done|]. intros c σ. unfold Heatmap_from_lines.
  rewrite !bind_run. unfold Heatmap_new, alloc.
  rewrite !bind_run. by rewrite Hloop.
Qed.

(** Two polylines in both orders. *)
Lemma Heatmap_update_commutative_witness :
  [[mkPoint 0 0; mkPoint 1 0]; [mkPoint 1 0]]
  ≡ₚ [[mkPoint 1 0]; [mkPoint 0 0; mkPoint 1 0]]
  ∧ ∀ (c : Clusterer) (σ : store),
      Heatmap_from_lines c [[mkPoint 0 0; mkPoint 1 0]; [mkPoint 1 0]] σ
      = Heatmap_from_lines c [[mkPoint 1 0]; [mkPoint 0 0; mkPoint 1 0]] σ.
Proof.
  split; [apply perm_swap|].
  exact (proj2 (Heatmap_update_commutative
                  [[mkPoint 0 0; mkPoint 1 0]; [mkPoint 1 0]]
                  [[mkPoint 1 0]; [mkPoint 0 0; mkPoint 1 0]]
                  (perm_swap _ _ _))).
Defined.

(** *** min_value and max_value (C7) *)

Lemma max_loop_spec (xs : list R) :
  ∀ m0 : R,
    let m := foldl (λ m y, if Rlt_dec m y then y else m) m0 xs in
    m ∈ m0 :: xs ∧ ∀ v, v ∈ m0 :: xs → (v <= m)%R.
Proof.
  induction xs as [|a xs IH]; intros m0; simpl.
  - split; [by left|]. intros v ->%list_elem_of_singleton. lra.
  - destruct (IH (if Rlt_dec m0 a then a else m0)) as [Hin Hub].
    split.
    + apply elem_of_cons in Hin as [->|Hin].
      * destruct (Rlt_dec m0 a); [right; left | left].
      * by do 2 right.
    + intros v Hv. destruct (Rlt_dec m0 a) as [Hlt|Hge].
      * apply elem_of_cons in Hv as [->|Hv]; [|by apply Hub].
        pose proof (Hub a ltac:(left)). lra.
      * apply elem_of_cons in Hv as [->|Hv]; [by apply Hub; left|].
        apply elem_of_cons in Hv as [->|Hv]; [|by apply Hub; right].
        pose proof (Hub m0 ltac:(left)). lra.
Qed.

Lemma min_loop_spec (xs : list R) :
  ∀ m0 : R,
    let m := foldl (λ m y, if Rlt_dec y m then y else m) m0 xs in
    m ∈ m0 :: xs ∧ ∀ v, v ∈ m0 :: xs → (m <= v)%R.
Proof.
  induction xs as [|a xs IH]; intros m0; simpl.
  - split; [by left|]. intros v ->%list_elem_of_singleton. lra.
  - destruct (IH (if Rlt_dec a m0 then a else m0)) as [Hin Hlb].
    split.
    + apply elem_of_cons in Hin as [->|Hin].
      * destruct (Rlt_dec a m0); [right; left | left].
      * by do 2 right.
    + intros v Hv. destruct (Rlt_dec a m0) as [Hlt|Hge].
      * apply elem_of_cons in Hv as [->|Hv]; [|by apply Hlb].
        pose proof (Hlb a ltac:(left)). lra.
      * apply elem_of_cons in Hv as [->|Hv]; [by apply Hlb; left|].
        apply elem_of_cons in Hv as [->|Hv]; [|by apply Hlb; right].
        pose proof (Hlb m0 ltac:(left)). lra.
Qed.

Lemma py_max_spec (xs : list R) :
  xs ≠ [] → ∃ m, py_max xs = Ok m ∧ m ∈ xs ∧ ∀ v, v ∈ xs → (v <= m)%R.
Proof.
  destruct xs as [|a xs]; [done|]. intros _. eexists. split; [done|].
  apply max_loop_spec.
Qed.

Lemma py_min_spec (xs : list R) :
  xs ≠ [] → ∃ m, py_min xs = Ok m ∧ m ∈ xs ∧ ∀ v, v ∈ xs → (m <= v)%R.
Proof.
  destruct xs as [|a xs]; [done|]. intros _. eexists. split; [done|].
  apply min_loop_spec.
Qed.

(** The maximum is the one element that bounds the others. *)
Lemma py_max_unique (xs : list R) (m : R) :
  m ∈ xs → (∀ v, v ∈ xs → (v <= m)%R) → py_max xs = Ok m.
Proof.
  intros Hin Hub. destruct (py_max_spec xs) as (m' & -> & Hin' & Hub').
  { intros ->. by apply elem_of_nil in Hin. }
  f_equal. apply Rle_antisym; auto.
Qed.

Lemma elem_of_values (pts : gmap Point R) (v : R) :
  v ∈ (map_to_list pts).*2 ↔ ∃ p, pts !! p = Some v.
Proof.
  rewrite list_elem_of_fmap. split.
  - intros ([p v'] & -> & Hin). exists p. by apply elem_of_map_to_list.
  - intros [p Hp]. exists (p, v). split; [done|].
    by apply elem_of_map_to_list.
Qed.

Lemma values_nil (pts : gmap Point R) :
  (map_to_list pts).*2 = [] ↔ pts = ∅.
Proof.
  rewrite <- map_to_list_empty_iff. split.
  - apply fmap_nil_inv.
  - by intros ->.
Qed.

(** C7.  On a heatmap without points [min_value] and [max_value] raise
    (the [ValueError] of [min]/[max] on an empty sequence) and return
    nothing; on a heatmap with points they return the smallest and the
    largest stored value.  Neither changes the store. *)
Theorem min_max_value_defined_on_nonempty (σ : store) (h : ref) (o : Heatmap) :
  σ !! h = Some o →
  (points o = ∅ →
     Heatmap_min_value h σ = (Raise ValueError, σ)
     ∧ Heatmap_max_value h σ = (Raise ValueError, σ))
  ∧ (points o ≠ ∅ →
     ∃ lo hi,
       Heatmap_min_value h σ = (Ok lo, σ)
       ∧ Heatmap_max_value h σ = (Ok hi, σ)
       ∧ (∃ p, points o !! p = Some lo)
       ∧ (∃ p, points o !! p = Some hi)
       ∧ ∀ p v, points o !! p = Some v → (lo <= v <= hi)%R).
Proof.
  intros Hh.
  rewrite (Heatmap_min_value_run h o), (Heatmap_max_value_run h o) by done.
  split.
  - intros He. by rewrite (proj2 (values_nil _) He).
  - intros Hne.
    assert (Hvs : (map_to_list (points o)).*2 ≠ []) by by rewrite values_nil.
    destruct (py_min_spec _ Hvs) as (lo & -> & Hlo & Hlb).
    destruct (py_max_spec _ Hvs) as (hi & -> & Hhi & Hub).
    exists lo, hi. split_and!; try done.
    + by apply elem_of_values.
    + by apply elem_of_values.
    + intros p v Hp.
      assert (v ∈ (map_to_list (points o)).*2) by (apply elem_of_values; eauto).
      split; auto.
Qed.

(** The empty heatmap and a heatmap with one point. *)
Lemma min_max_value_defined_on_nonempty_witness :
  (Heatmap_min_value 0 [mkHeatmap Identity ∅]
   = (Raise ValueError, [mkHeatmap Identity ∅])
   ∧ Heatmap_max_value 0 [mkHeatmap Identity ∅]
     = (Raise ValueError, [mkHeatmap Identity ∅]))
  ∧ ∃ lo hi,
      Heatmap_min_value 0 [mkHeatmap Identity {[mkPoint 1 2 := 3%R]}]
      = (Ok lo, [mkHeatmap Identity {[mkPoint 1 2 := 3%R]}])
      ∧ Heatmap_max_value 0 [mkHeatmap Identity {[mkPoint 1 2 := 3%R]}]
        = (Ok hi, [mkHeatmap Identity {[mkPoint 1 2 := 3%R]}])
      ∧ (lo <= 3 <= hi)%R.
Proof.
  split.
  - exact (proj1 (min_max_value_defined_on_nonempty
                    [mkHeatmap Identity ∅] 0%nat (mkHeatmap Identity ∅)
                    eq_refl)
                 eq_refl).
  - destruct (proj2 (min_max_value_defined_on_nonempty
                       [mkHeatmap Identity {[mkPoint 1 2 := 3%R]}] 0%nat
                       (mkHeatmap Identity {[mkPoint 1 2 := 3%R]}) eq_refl)
                    (map_non_empty_singleton _ _))
      as (lo & hi & Hmin & Hmax & _ & _ & Hb).
    exists lo, hi. split_and!; [done..| |];
      apply (Hb (mkPoint 1 2) 3%R (lookup_singleton_eq _ _)).
Defined.

(** *** The scope of the count-once collapse (C10) *)

Lemma occurrences_cons (q p : Point) (line : list Point) :
  occurrences q (p :: line)
  = ((if decide (p = q) then 1 else 0) + occurrences q line)%nat.
Proof.
  unfold occurrences. rewrite filter_cons. by destruct (decide (p = q)).
Qed.

Lemma occurrences_pos (q : Point) (line : list Point) :
  q ∈ line → (1 ≤ occurrences q line)%nat.
Proof.
  induction 1 as [q line|q p line _ IH]; rewrite occurrences_cons.
  - rewrite decide_True by done. lia.
  - lia.
Qed.

Lemma count_points_lookup (q : Point) (line : list Point) :
  ∀ pts : gmap Point R,
    default 0%R (count_points line pts !! q)
    = (default 0 (pts !! q) + INR (occurrences q line))%R.
Proof.
  induction line as [|p line IH]; intros pts.
  - simpl. lra.
  - cbn [count_points foldl]. fold (count_points line (incr p pts)).
    rewrite IH, occurrences_cons. unfold incr.
    destruct (decide (p = q)) as [->|Hne].
    + rewrite lookup_insert_eq, plus_INR. simpl. lra.
    + rewrite lookup_insert_ne by done. simpl. lra.
Qed.

Lemma scaled_cluster_points_elem (c : Clusterer) (cell : Point)
    (line : list Point) :
  ∀ prev : option Point,
    prev ≠ Some cell →
    (∃ a, a ∈ line ∧ cluster_point c a = cell) →
    cell ∈ scaled_cluster_points c true prev line.
Proof.
  induction line as [|a0 line IH]; intros prev Hprev (a & Ha & Hcell).
  { by apply elem_of_nil in Ha. }
  cbn [scaled_cluster_points].
  destruct (decide (cluster_point c a0 = cell)) as [E|Hne].
  - rewrite E. rewrite decide_False by congruence. by left.
  - apply elem_of_app. right. apply IH; [congruence|].
    apply elem_of_cons in Ha as [->|Ha]; [done|]. eauto.
Qed.

Lemma scaled_cluster_points_snoc (c : Clusterer) (once : bool)
    (line rest : list Point) (p : Point) :
  ∀ prev : option Point,
    scaled_cluster_points c once prev ((line ++ [p]) ++ rest)
    = scaled_cluster_points c once prev (line ++ [p])
      ++ scaled_cluster_points c once (Some (cluster_point c p)) rest.
Proof.
  induction line as [|a line IH]; intros prev.
  - simpl. by rewrite app_nil_r.
  - cbn [app scaled_cluster_points]. by rewrite IH, (assoc_L (++)).
Qed.

(** C10.  A heatmap with a count-once scaled clusterer is updated with two
    polylines; the last point of the first and the first point of the second
    fall into the same cell.  Each call of [cluster_points] starts without a
    previous cell: the second call yields the cell first, the first call has
    yielded it at least once, and the count of the cell grows by what both
    calls yield, hence by at least 2.  Within one call the collapse does
    happen: the two polylines joined into one yield the cell once less. *)
Theorem cluster_points_collapse_per_call (s : R) (σ : store) (h : ref)
    (o : Heatmap) (l1 l2 : list Point) (p q : Point) :
  σ !! h = Some o →
  clusterer o = Scaled s true →
  cluster_point (Scaled s true) p = cluster_point (Scaled s true) q →
  ∃ (σ' : store) (o' : Heatmap) (n1 n2 : nat),
    (Heatmap_update h (l1 ++ [p]) ≫= λ _, Heatmap_update h (q :: l2)) σ
    = (Ok tt, σ')
    ∧ σ' !! h = Some o'
    ∧ n1 = occurrences (cluster_point (Scaled s true) q)
             (cluster_points (Scaled s true) (l1 ++ [p]))
    ∧ n2 = occurrences (cluster_point (Scaled s true) q)
             (cluster_points (Scaled s true) (q :: l2))
    ∧ (1 ≤ n1)%nat ∧ (1 ≤ n2)%nat
    ∧ head (cluster_points (Scaled s true) (q :: l2))
      = Some (cluster_point (Scaled s true) q)
    ∧ default 0%R (points o' !! cluster_point (Scaled s true) q)
      = (default 0 (points o !! cluster_point (Scaled s true) q)
         + INR n1 + INR n2)%R
    ∧ cluster_points (Scaled s true) ((l1 ++ [p]) ++ q :: l2)
      = cluster_points (Scaled s true) (l1 ++ [p])
        ++ tail (cluster_points (Scaled s true) (q :: l2)).
Proof.
  intros Hh Hc Hpq. set (c := Scaled s true) in *.
  set (cell := cluster_point c q) in *.
  assert (Hlt : (h < length σ)%nat) by by eapply lookup_lt_Some.
  eexists _, _, _, _. split_and!.
  - rewrite bind_run, (Heatmap_update_run h o) by done.
    erewrite Heatmap_update_run; [reflexivity|].
    by apply list_lookup_insert_eq.
  - rewrite list_insert_insert_eq. by apply list_lookup_insert_eq.
  - reflexivity.
  - reflexivity.
  - apply occurrences_pos. unfold c at 1. cbn [cluster_points].
    apply scaled_cluster_points_elem; [done|].
    exists p. split; [|done]. apply elem_of_app. right. by left.
  - apply occurrences_pos. unfold c at 1. cbn [cluster_points scaled_cluster_points].
    rewrite decide_False by done. by left.
  - unfold c at 1. cbn [cluster_points scaled_cluster_points].
    by rewrite decide_False.
  - cbn [points clusterer]. rewrite !count_points_lookup, Hc. reflexivity.
  - change (scaled_cluster_points c true None ((l1 ++ [p]) ++ q :: l2)
            = scaled_cluster_points c true None (l1 ++ [p])
              ++ tail (scaled_cluster_points c true None (q :: l2))).
    rewrite scaled_cluster_points_snoc. f_equal.
    cbn [scaled_cluster_points]. rewrite Hpq. fold cell.
    rewrite decide_True by done. by rewrite decide_False.
Qed.

Lemma ScaledClusterer_3 (once : bool) :
  ScaledClusterer 3 once = Scaled (/ 3) once.
Proof.
  unfold ScaledClusterer. destruct (Rgt_dec 3 1) as [_|Hn]; [|lra].
  f_equal. lra.
Qed.

Lemma cluster_point_third (once : bool) (a b a' b' : Z) :
  (IZR a' - / 2 < IZR a * / 3 < IZR a' + / 2)%R →
  (IZR b' - / 2 < IZR b * / 3 < IZR b' + / 2)%R →
  cluster_point (Scaled (/ 3) once) (mkPoint a b) = mkPoint a' b'.
Proof.
  intros Ha Hb. unfold cluster_point, Point_new. simpl.
  by rewrite (py_round_near _ a'), (py_round_near _ b').
Qed.

(** Magnification 3: the polyline (3, 0), (1, 0) ends in the cell (0, 0)
    and the polyline (0, 0), (4, 0) starts in it. *)
Lemma cluster_points_collapse_per_call_witness :
  ∃ (σ' : store) (o' : Heatmap) (n1 n2 : nat),
    (Heatmap_update 0 ([mkPoint 3 0] ++ [mkPoint 1 0])
       ≫= λ _, Heatmap_update 0 (mkPoint 0 0 :: [mkPoint 4 0]))
      [mkHeatmap (Scaled (/ 3) true) ∅]
    = (Ok tt, σ')
    ∧ σ' !! 0%nat = Some o'
    ∧ (1 ≤ n1)%nat ∧ (1 ≤ n2)%nat
    ∧ default 0%R
        (points o' !! cluster_point (Scaled (/ 3) true) (mkPoint 0 0))
      = (default 0 ((∅ : gmap Point R)
                      !! cluster_point (Scaled (/ 3) true) (mkPoint 0 0))
         + INR n1 + INR n2)%R.
Proof.
  assert (Hpq : cluster_point (Scaled (/ 3) true) (mkPoint 1 0)
                = cluster_point (Scaled (/ 3) true) (mkPoint 0 0)).
  { rewrite !(cluster_point_third true _ _ 0 0); [done|simpl; lra..]. }
  destruct (cluster_points_collapse_per_call (/ 3)
              [mkHeatmap (Scaled (/ 3) true) ∅] 0%nat
              (mkHeatmap (Scaled (/ 3) true) ∅)
              [mkPoint 3 0] [mkPoint 4 0] (mkPoint 1 0) (mkPoint 0 0)
              eq_refl eq_refl Hpq)
    as (σ' & o' & n1 & n2 & Hrun & Hh & _ & _ & Hn1 & Hn2 & _ & Hcount & _).
  exists σ', o', n1, n2. split_and!; done.
Defined.

(** *** cluster_point twice, and back (C9) *)

Lemma py_round_error (r : R) : (- / 2 <= IZR (py_round r) - r <= / 2)%R.
Proof.
  unfold py_round. destruct (Rle_dec 0 r) as [Hr|Hr].
  - destruct (base_Int_part (r + / 2)) as [H1 H2]. lra.
  - destruct (base_Int_part (- r + / 2)) as [H1 H2].
    rewrite opp_IZR. lra.
Qed.

Lemma py_round_fixed_small (s : R) (n : Z) :
  (0 < s < / 2)%R → py_round (IZR n * s) = n → n = 0.
Proof.
  intros Hs Hn. pose proof (py_round_error (IZR n * s)) as He.
  rewrite Hn in He.
  destruct (Z.lt_trichotomy n 0) as [Hlt|[->|Hgt]]; [|done|].
  - assert (IZR n <= -1)%R by (apply IZR_le; lia). nra.
  - assert (1 <= IZR n)%R by (apply IZR_le; lia). nra.
Qed.

Lemma cluster_point_origin (s : R) (once : bool) :
  cluster_point (Scaled s once) (mkPoint 0 0) = mkPoint 0 0.
Proof.
  unfold cluster_point. simpl. rewrite Rmult_0_l. apply Point_new_IZR.
Qed.

(** C9, as stated, fails: with a magnification of 3 the point (1, 0) is
    sent to (0, 0) by one application and by two, yet it is not on the coarse
    grid (it is not its own representative, nor a multiple of 3); and the
    point (3, 0), a corner of a 3x3 block, is sent to (1, 0) and then to
    (0, 0). *)
Lemma cluster_point_idempotence_counterexample :
  ¬ (∀ (s : R) (once : bool) (p : Point),
       cluster_point (ScaledClusterer s once)
         (cluster_point (ScaledClusterer s once) p)
       = cluster_point (ScaledClusterer s once) p
       ↔ on_coarse_grid (ScaledClusterer s once) p)
  ∧ cluster_point (ScaledClusterer 3 true) (mkPoint 3 0) = mkPoint 1 0
  ∧ cluster_point (ScaledClusterer 3 true) (mkPoint 1 0) = mkPoint 0 0.
Proof.
  assert (H1 : cluster_point (ScaledClusterer 3 true) (mkPoint 1 0)
               = mkPoint 0 0).
  { rewrite ScaledClusterer_3. apply cluster_point_third; simpl; lra. }
  split_and!; [|rewrite ScaledClusterer_3;
                 apply cluster_point_third; simpl; lra | done].
  intros H. specialize (H 3%R true (mkPoint 1 0)).
  unfold on_coarse_grid in H. rewrite H1 in H.
  rewrite ScaledClusterer_3, cluster_point_origin in H.
  by destruct H as [H _]; specialize (H eq_refl).
Qed.

Lemma ScaledClusterer_inverse (s : R) (once : bool) :
  (1 < s)%R → ScaledClusterer (1 / s) once = ScaledClusterer s once.
Proof.
  intros Hs. unfold ScaledClusterer.
  destruct (Rgt_dec s 1) as [_|Hn]; [|lra].
  destruct (Rgt_dec (1 / s) 1) as [Hgt|_]; [|done].
  exfalso. assert (0 < / s < 1)%R.
  { split; [apply Rinv_0_lt_compat; lra|].
    rewrite <- Rinv_1. apply Rinv_lt_contravar; lra. }
  lra.
Qed.

(** C9 (as the code has it).  A point on the coarse grid is sent to the same
    cell by one and by two applications of [cluster_point].  The converse
    fails; for a reduction factor below 1/2, two applications equal one
    exactly when the cell of the point is the origin.  A magnification [s]
    and its inverse [1/s] are the same clusterer, and applying the one after
    the other does not give back the point (4, 0). *)
Theorem cluster_point_twice :
  (∀ (c : Clusterer) (p : Point),
     on_coarse_grid c p →
     cluster_point c (cluster_point c p) = cluster_point c p)
  ∧ (∀ (s : R) (once : bool) (p : Point),
       (0 < s < / 2)%R →
       cluster_point (Scaled s once) (cluster_point (Scaled s once) p)
       = cluster_point (Scaled s once) p
       ↔ cluster_point (Scaled s once) p = mkPoint 0 0)
  ∧ (∀ (s : R) (once : bool),
       (1 < s)%R → ScaledClusterer (1 / s) once = ScaledClusterer s once)
  ∧ cluster_point (ScaledClusterer (1 / 3) true)
      (cluster_point (ScaledClusterer 3 true) (mkPoint 4 0))
    ≠ mkPoint 4 0.
Proof.
  split_and!.
  - intros c p Hp. unfold on_coarse_grid in Hp. by rewrite Hp.
  - intros s once p Hs. split.
    + destruct (cluster_point (Scaled s once) p) as [a b] eqn:E.
      unfold cluster_point, Point_new. simpl. intros [= Ha Hb].
      by rewrite (py_round_fixed_small s a), (py_round_fixed_small s b).
    + intros ->. apply cluster_point_origin.
  - apply ScaledClusterer_inverse.
  - rewrite ScaledClusterer_inverse, ScaledClusterer_3 by lra.
    rewrite (cluster_point_third true 4 0 1 0) by (simpl; lra).
    rewrite (cluster_point_third true 1 0 0 0) by (simpl; lra).
    discriminate.
Qed.

(** Reduction factor 1/3 on the points (1, 0) and (0, 0). *)
Lemma cluster_point_twice_witness :
  (0 < / 3 < / 2)%R
  ∧ (cluster_point (Scaled (/ 3) true)
       (cluster_point (Scaled (/ 3) true) (mkPoint 1 0))
     = cluster_point (Scaled (/ 3) true) (mkPoint 1 0)
     ↔ cluster_point (Scaled (/ 3) true) (mkPoint 1 0) = mkPoint 0 0)
  ∧ on_coarse_grid (Scaled (/ 3) true) (mkPoint 0 0)
  ∧ cluster_point (Scaled (/ 3) true)
      (cluster_point (Scaled (/ 3) true) (mkPoint 0 0))
    = cluster_point (Scaled (/ 3) true) (mkPoint 0 0).
Proof.
  assert (Hs : (0 < / 3 < / 2)%R) by lra.
  split; [exact Hs|]. split_and!.
  - exact (proj1 (proj2 cluster_point_twice) (/ 3)%R true (mkPoint 1 0) Hs).
  - apply cluster_point_origin.
  - exact (proj1 cluster_point_twice (Scaled (/ 3) true) (mkPoint 0 0)
             (cluster_point_origin _ _)).
Defined.

(** *** cluster_heatmap *)

Lemma lookup_snoc_new (σ : store) (o : Heatmap) :
  (σ ++ [o]) !! length σ = Some o.
Proof. by apply list_lookup_middle. Qed.

Lemma insert_snoc_new (σ : store) (o o' : Heatmap) :
  <[length σ := o']> (σ ++ [o]) = σ ++ [o'].
Proof.
  rewrite insert_app_r_alt by done. by rewrite Nat.sub_diag.
Qed.

Lemma kernel_fold_run (k : KernelClusterer) (h : ref) (o : Heatmap)
    (τ : store) (kps : list (Point * R)) :
  τ !! h = Some o →
  ∀ acc : R,
    fold_each kps acc
      (λ clustered_value '(kernel_point, weight),
         value ← Heatmap_getitem h kernel_point;
         mret (if decide (value = 0%R) then clustered_value
               else (clustered_value + value * weight)%R)) τ
    = (Ok (foldl (λ clustered_value '(kernel_point, weight),
                    let value := default 0%R (points o !! kernel_point) in
                    if decide (value = 0%R) then clustered_value
                    else (clustered_value + value * weight)%R)
                 acc kps), τ).
Proof.
  intros Hh. induction kps as [|[kp w] kps IH]; intros acc; [done|].
  cbn [fold_each foldl]. rewrite bind_run, bind_run.
  rewrite (Heatmap_getitem_run h o) by done. apply IH.
Qed.

(** The counter that the loop of [cluster_heatmap] has written after the
    given items. *)
Lemma kernel_loop_run (k : KernelClusterer) (h : ref) (o : Heatmap)
    (σ : store) (c : Clusterer) (items : list (Point * R)) :
  σ !! h = Some o →
  ∀ acc : gmap Point R,
    for_each items (λ '(point, _),
      clustered_value ←
        fold_each (kernel_points k point) 0%R
          (λ clustered_value '(kernel_point, weight),
             value ← Heatmap_getitem h kernel_point;
             mret (if decide (value = 0%R) then clustered_value
                   else (clustered_value + value * weight)%R));
      Heatmap_setitem (length σ) point clustered_value)
      (σ ++ [mkHeatmap c acc])
    = (Ok tt,
       σ ++ [mkHeatmap c
               (foldl (λ acc '(point, _),
                         <[point := kernel_value k (points o) point]> acc)
                      acc items)]).
Proof.
  intros Hh. induction items as [|[p v] items IH]; intros acc; [done|].
  cbn [for_each foldl]. rewrite bind_run, bind_run.
  rewrite (kernel_fold_run k h o) by by apply lookup_app_l_Some.
  rewrite (Heatmap_setitem_run _ (mkHeatmap c acc)) by apply lookup_snoc_new.
  rewrite insert_snoc_new. apply IH.
Qed.

Lemma foldl_insert_lookup {A : Type} (f : Point → R)
    (items : list (Point * A)) (q : Point) :
  ∀ acc : gmap Point R,
    foldl (λ acc '(point, _), <[point := f point]> acc) acc items !! q
    = if decide (q ∈ items.*1) then Some (f q) else acc !! q.
Proof.
  induction items as [|[p v] items IH]; intros acc.
  - cbn [foldl]. rewrite decide_False; [done|]. apply not_elem_of_nil.
  - cbn [foldl]. rewrite fmap_cons, IH. cbn [fst].
    destruct (decide (q ∈ items.*1)) as [Hin|Hnin].
    + rewrite decide_True; [done|]. by right.
    + destruct (decide (q = p)) as [->|Hne].
      * rewrite lookup_insert_eq. rewrite decide_True; [done|]. by left.
      * rewrite lookup_insert_ne by done. rewrite decide_False; [done|].
        intros [?|?]%elem_of_cons; done.
Qed.

Lemma elem_of_keys (pts : gmap Point R) (q : Point) :
  q ∈ (map_to_list pts).*1 ↔ is_Some (pts !! q).
Proof.
  rewrite list_elem_of_fmap. split.
  - intros ([p v] & -> & Hin). exists v. by apply elem_of_map_to_list.
  - intros [v Hv]. exists (q, v). split; [done|].
    by apply elem_of_map_to_list.
Qed.

Lemma foldl_insert_items (f : Point → R) (pts : gmap Point R) :
  foldl (λ acc '(point, _), <[point := f point]> acc) ∅ (map_to_list pts)
  = map_imap (λ point _, Some (f point)) pts.
Proof.
  apply map_eq. intros q.
  rewrite foldl_insert_lookup, map_lookup_imap, lookup_empty.
  destruct (decide (q ∈ (map_to_list pts).*1)) as [Hin|Hnin].
  - apply elem_of_keys in Hin as [v ->]. done.
  - destruct (pts !! q) as [v|] eqn:E; [|done].
    exfalso. apply Hnin, elem_of_keys. eauto.
Qed.

(** What [cluster_heatmap] does to a store: the base class returns the
    heatmap it is given and leaves the store alone, a kernel clusterer
    appends one heatmap. *)
Lemma cluster_heatmap_run (c : Clusterer) (h : ref) (o : Heatmap)
    (σ : store) :
  σ !! h = Some o →
  cluster_heatmap c h σ
  = match c with
    | Identity | Scaled _ _ => (Ok h, σ)
    | Kernel k =>
        (Ok (length σ), σ ++ [mkHeatmap c (clustered_points c (points o))])
    end.
Proof.
  intros Hh. destruct c as [| |k]; [done..|].
  unfold cluster_heatmap, Heatmap_new, alloc. rewrite !bind_run.
  rewrite (Heatmap_items_run h o) by by apply lookup_app_l_Some.
  rewrite bind_run, (kernel_loop_run k h o) by done.
  unfold clustered_points. by rewrite foldl_insert_items.
Qed.

(** *** Sums over the kernel *)

Lemma sumR_cons (a : R) (l : list R) : sumR (a :: l) = (a + sumR l)%R.
Proof. reflexivity. Qed.

Lemma sumR_app (l k : list R) : sumR (l ++ k) = (sumR l + sumR k)%R.
Proof. induction l as [|a l IH]; simpl; [|rewrite IH]; lra. Qed.

Lemma sumR_bind {A B : Type} (f : B → R) (g : A → list B) (l : list A) :
  sumR (f <$> (l ≫= g)) = sumR ((λ a, sumR (f <$> g a)) <$> l).
Proof.
  induction l as [|a l IH]; [done|].
  rewrite bind_cons, fmap_app, sumR_app, IH. done.
Qed.

Lemma sumR_ext {A : Type} (f g : A → R) (l : list A) :
  (∀ a, a ∈ l → f a = g a) → sumR (f <$> l) = sumR (g <$> l).
Proof.
  induction l as [|a l IH]; intros H; [done|].
  rewrite !fmap_cons, !sumR_cons.
  rewrite (H a) by by left. rewrite IH; [done|].
  intros b Hb. apply H. by right.
Qed.

Lemma sumR_zero {A : Type} (f : A → R) (l : list A) :
  (∀ a, a ∈ l → f a = 0%R) → sumR (f <$> l) = 0%R.
Proof.
  induction l as [|a l IH]; intros H; [done|].
  rewrite fmap_cons, sumR_cons.
  rewrite (H a) by by left. rewrite IH; [lra|].
  intros b Hb. apply H. by right.
Qed.

(** A sum with one term that may differ from 0. *)
Lemma sumR_only {A : Type} `{EqDecision A} (f : A → R) (a : A) (l : list A) :
  NoDup l →
  (∀ b, b ∈ l → b ≠ a → f b = 0%R) →
  sumR (f <$> l) = if decide (a ∈ l) then f a else 0%R.
Proof.
  induction 1 as [|b l Hb Hnd IH]; intros H.
  - rewrite decide_False by apply not_elem_of_nil. done.
  - rewrite fmap_cons, sumR_cons.
    destruct (decide (b = a)) as [->|Hne].
    + rewrite decide_True by by left.
      rewrite sumR_zero; [lra|]. intros c Hc. apply H; [by right|].
      by intros ->.
    + rewrite (H b) by (by left || done).
      rewrite IH by (intros c Hc; apply H; by right).
      destruct (decide (a ∈ l)) as [Hin|Hnin].
      * rewrite decide_True by by right. lra.
      * rewrite decide_False; [lra|].
        intros [?|?]%elem_of_cons; done.
Qed.

Lemma sumR_nonneg {A : Type} (f : A → R) (l : list A) :
  (∀ a, a ∈ l → (0 <= f a)%R) → (0 <= sumR (f <$> l))%R.
Proof.
  induction l as [|a l IH]; intros H; [simpl; lra|].
  rewrite fmap_cons, sumR_cons.
  pose proof (H a ltac:(left)).
  pose proof (IH (λ b Hb, H b ltac:(by right))). lra.
Qed.

Lemma sumR_ge_elem {A : Type} (f : A → R) (l : list A) (a : A) :
  (∀ b, b ∈ l → (0 <= f b)%R) → a ∈ l → (f a <= sumR (f <$> l))%R.
Proof.
  intros H Ha.
  induction Ha as [a l|a b l Ha IH]; rewrite fmap_cons, sumR_cons.
  - pose proof (sumR_nonneg f l (λ b Hb, H b ltac:(by right))). lra.
  - pose proof (H b ltac:(left)).
    pose proof (IH (λ c Hc, H c ltac:(by right))). lra.
Qed.

Lemma kernel_fold_sum (pts : gmap Point R) (kps : list (Point * R)) :
  ∀ acc : R,
    foldl (λ clustered_value '(kernel_point, weight),
             let value := default 0%R (pts !! kernel_point) in
             if decide (value = 0%R) then clustered_value
             else (clustered_value + value * weight)%R)
          acc kps
    = (acc + sumR (kernel_term pts <$> kps))%R.
Proof.
  induction kps as [|[kp w] kps IH]; intros acc.
  - simpl. lra.
  - cbn [foldl]. rewrite IH, fmap_cons, sumR_cons.
    unfold kernel_term at 2. cbn [fst snd].
    destruct (decide _); lra.
Qed.

(** The value a kernel clusterer stores, as a sum over the offsets of the
    weights matrix. *)
Lemma kernel_value_sum (k : KernelClusterer) (pts : gmap Point R) (p : Point) :
  kernel_value k pts p
  = sumR ((λ e : Z * Z * R,
             kernel_term pts (mkPoint (x p + e.1.1) (y p + e.1.2), e.2))
          <$> weights_matrix k).
Proof.
  unfold kernel_value, kernel_points. rewrite kernel_fold_sum, Rplus_0_l.
  rewrite <- list_fmap_compose. apply sumR_ext. by intros [[dx dy] w] _.
Qed.

Lemma hypot_origin : hypot (IZR 0) (IZR 0) = 0%R.
Proof. apply hypot_0_0. Qed.

Lemma get_weight_negative_radius (k : KernelClusterer) :
  radius k < 0 → get_weight k 0 = 0%R.
Proof.
  intros Hr.
  assert (IZR (radius k) < 0)%R by by apply IZR_lt.
  destruct k as [r|r sc]; simpl in *;
    (destruct (Rge_dec 0 (IZR r)); [done|lra]).
Qed.

(** Weighted sum around the only point of a map: what is left is the weight
    of the offset (0, 0). *)
Lemma kernel_value_single (k : KernelClusterer) (p : Point) (V : R) :
  kernel_value k {[p := V]} p = (V * get_weight k 0)%R.
Proof.
  rewrite kernel_value_sum. unfold weights_matrix.
  set (rng := range (- radius k) (radius k + 1)).
  set (F := λ e : Z * Z * R,
         kernel_term {[p := V]} (mkPoint (x p + e.1.1) (y p + e.1.2), e.2)).
  assert (Hoff : ∀ dx dy w, (dx, dy) ≠ (0, 0) → F ((dx, dy), w) = 0%R).
  { intros dx dy w Hne. unfold F, kernel_term. cbn [fst snd].
    rewrite lookup_singleton_ne; [by rewrite decide_True|].
    destruct p as [px py]. simpl. intros [= ? ?]. apply Hne. f_equal; lia. }
  assert (Horig : ∀ w, F ((0, 0), w) = (V * w)%R).
  { intros w. unfold F, kernel_term. cbn [fst snd].
    rewrite !Z.add_0_r. destruct p as [px py]. cbn [x y].
    rewrite lookup_singleton_eq. simpl.
    destruct (decide (V = 0%R)) as [->|]; lra. }
  rewrite sumR_bind.
  rewrite (sumR_only _ 0 rng) by
    (first [apply NoDup_seqZ |
      intros dx _ Hdx; rewrite sumR_bind; apply sumR_zero; intros dy _;
      destruct (decide _); [done|]; simpl; rewrite Hoff by congruence; lra]).
  destruct (decide (0 ∈ rng)) as [Hin|Hnin].
  - rewrite sumR_bind.
    rewrite (sumR_only _ 0 rng) by
      (first [apply NoDup_seqZ |
        intros dy _ Hdy; destruct (decide _); [done|]; simpl;
        rewrite Hoff by congruence; lra]).
    rewrite decide_True by done. rewrite hypot_origin.
    destruct (decide (get_weight k 0 = 0%R)) as [->|Hw]; simpl; [lra|].
    rewrite Horig. lra.
  - rewrite get_weight_negative_radius; [lra|].
    unfold rng, range in Hnin. rewrite elem_of_seqZ in Hnin. lia.
Qed.

Lemma clustered_points_single (k : KernelClusterer) (p : Point) (V : R) :
  clustered_points (Kernel k) {[p := V]}
  = {[p := (V * get_weight k 0)%R]}.
Proof.
  unfold clustered_points. apply map_eq. intros q.
  rewrite map_lookup_imap. destruct (decide (q = p)) as [->|Hne].
  - rewrite !lookup_singleton_eq. simpl. by rewrite kernel_value_single.
  - by rewrite !lookup_singleton_ne.
Qed.

Lemma Point_distance_self (p : Point) : Point_distance p p = 0%R.
Proof.
  unfold Point_distance. rewrite !Z.sub_diag. simpl.
  rewrite Rmult_0_l, Rplus_0_l. apply sqrt_0.
Qed.

Lemma get_weight_nonzero_radius (k : KernelClusterer) :
  get_weight k 0 ≠ 0%R → (0 < IZR (radius k))%R.
Proof.
  destruct k as [r|r sc]; simpl;
    (destruct (Rge_dec 0 (IZR r)); [done|lra]).
Qed.

(** C5.  A heatmap holds exactly one point [p], with value [V].  For every
    kernel clusterer, [cluster_heatmap] returns a new heatmap in which every
    cell whose value is not 0 lies within the radius of [p] (it is [p], and
    then the radius is positive), and the value at [p] is [V] times the
    weight at distance 0. *)
Theorem kernel_single_point (k : KernelClusterer) (σ : store) (h : ref)
    (o : Heatmap) (p : Point) (V : R) :
  σ !! h = Some o →
  points o = {[p := V]} →
  ∃ (clustered : ref) (co : Heatmap),
    cluster_heatmap (Kernel k) h σ = (Ok clustered, σ ++ [co])
    ∧ (σ ++ [co]) !! clustered = Some co
    ∧ (∀ q, default 0%R (points co !! q) ≠ 0%R →
            (Point_distance q p <= IZR (radius k))%R)
    ∧ points co !! p = Some (V * get_weight k 0)%R.
Proof.
  intros Hh Hp. eexists _, _. split; [|split_and!].
  - rewrite (cluster_heatmap_run _ h o) by done. reflexivity.
  - apply lookup_snoc_new.
  - cbn [points]. rewrite Hp, clustered_points_single. intros q Hq.
    destruct (decide (q = p)) as [->|Hne].
    + rewrite lookup_singleton_eq in Hq. simpl in Hq.
      rewrite Point_distance_self.
      apply Rlt_le, get_weight_nonzero_radius. intros E. apply Hq.
      rewrite E. lra.
    + rewrite lookup_singleton_ne in Hq by done. done.
  - cbn [points]. rewrite Hp, clustered_points_single.
    apply lookup_singleton_eq.
Qed.

(** A linear kernel of radius 3 on the single point (2, 7) of value 5. *)
Lemma kernel_single_point_witness :
  ∃ (clustered : ref) (co : Heatmap),
    cluster_heatmap (Kernel (LinearKernel 3)) 0
      [mkHeatmap (Kernel (LinearKernel 3)) {[mkPoint 2 7 := 5%R]}]
    = (Ok clustered,
       [mkHeatmap (Kernel (LinearKernel 3)) {[mkPoint 2 7 := 5%R]}] ++ [co])
    ∧ points co !! mkPoint 2 7
      = Some (5 * get_weight (LinearKernel 3) 0)%R.
Proof.
  destruct (kernel_single_point (LinearKernel 3)
              [mkHeatmap (Kernel (LinearKernel 3)) {[mkPoint 2 7 := 5%R]}]
              0%nat
              (mkHeatmap (Kernel (LinearKernel 3)) {[mkPoint 2 7 := 5%R]})
              (mkPoint 2 7) 5%R eq_refl eq_refl)
    as (clustered & co & Hrun & _ & _ & Hp).
  by exists clustered, co.
Defined.

(** *** normalize *)

Lemma lift_run {A : Type} (r : result A) (σ : store) : lift r σ = (r, σ).
Proof. reflexivity. Qed.

(** The loop of [normalize] writes the new heatmap only, whatever the
    outcome. *)
Lemma normalize_loop_frame (nf : option NormFunc) (M : R) (c : Clusterer)
    (τ : store) (items : list (Point * R)) :
  ∀ acc : gmap Point R,
    ∃ (res : result unit) (acc' : gmap Point R),
      for_each items (λ '(point, value),
        value ← lift (apply_norm nf value M);
        quotient ← lift (py_div (value * 1) M);
        Heatmap_setitem (length τ) point quotient)
        (τ ++ [mkHeatmap c acc])
      = (res, τ ++ [mkHeatmap c acc']).
Proof.
  induction items as [|[p v] items IH]; intros acc.
  - by exists (Ok tt), acc.
  - cbn [for_each]. rewrite bind_run, bind_run, lift_run.
    destruct (apply_norm nf v M) as [v'|e]; [|by eexists _, _].
    rewrite bind_run, lift_run.
    destruct (py_div (v' * 1) M) as [q|e]; [|by eexists _, _].
    rewrite (Heatmap_setitem_run _ (mkHeatmap c acc)) by apply lookup_snoc_new.
    rewrite insert_snoc_new. apply IH.
Qed.

Lemma normalize_loop_ok (nf : option NormFunc) (M : R) (c : Clusterer)
    (τ : store) (f : Point → R) (items : list (Point * R)) :
  (∀ p v, (p, v) ∈ items → norm_entry nf M v = Ok (f p)) →
  ∀ acc : gmap Point R,
    for_each items (λ '(point, value),
      value ← lift (apply_norm nf value M);
      quotient ← lift (py_div (value * 1) M);
      Heatmap_setitem (length τ) point quotient)
      (τ ++ [mkHeatmap c acc])
    = (Ok tt,
       τ ++ [mkHeatmap c
               (foldl (λ acc '(point, _), <[point := f point]> acc)
                      acc items)]).
Proof.
  induction items as [|[p v] items IH]; intros H acc; [done|].
  cbn [for_each foldl]. rewrite bind_run, bind_run, lift_run.
  pose proof (H p v ltac:(left)) as Hpv. unfold norm_entry in Hpv.
  destruct (apply_norm nf v M) as [v'|e]; [|done]. simpl in Hpv.
  rewrite bind_run, lift_run, Hpv.
  rewrite (Heatmap_setitem_run _ (mkHeatmap c acc)) by apply lookup_snoc_new.
  rewrite insert_snoc_new. apply IH. intros p' w' Hin. apply H. by right.
Qed.

(** After [cluster_heatmap] the store has grown by at most one heatmap and
    the returned reference denotes the clustered counter. *)
Lemma cluster_heatmap_result (c : Clusterer) (h : ref) (o : Heatmap)
    (σ : store) :
  σ !! h = Some o →
  ∃ (r : ref) (extra : store) (co : Heatmap),
    cluster_heatmap c h σ = (Ok r, σ ++ extra)
    ∧ (σ ++ extra) !! r = Some co
    ∧ points co = clustered_points c (points o).
Proof.
  intros Hh. rewrite (cluster_heatmap_run c h o) by done.
  destruct c as [| |k].
  - exists h, [], o. by rewrite app_nil_r.
  - exists h, [], o. by rewrite app_nil_r.
  - eexists _, [_], _. split_and!; [done|apply lookup_snoc_new|done].
Qed.

(** [normalize] only appends to the store; a reference it returns denotes
    one of the appended heatmaps. *)
Lemma Heatmap_normalize_frame (self : ref) (nf : option NormFunc) (σ : store) :
  ∃ (res : result ref) (extra : store),
    Heatmap_normalize self nf σ = (res, σ ++ extra)
    ∧ ∀ r, res = Ok r → (length σ ≤ r < length (σ ++ extra))%nat.
Proof.
  unfold Heatmap_normalize. rewrite bind_run.
  destruct (σ !! self) as [o|] eqn:Hh.
  2: { rewrite deref_fail by done. exists (Raise AttributeError), [].
       by rewrite app_nil_r. }
  rewrite (deref_run self o) by done. rewrite bind_run.
  destruct (cluster_heatmap_result (clusterer o) self o σ Hh)
    as (r0 & extra0 & co & -> & Hr0 & Hco).
  rewrite bind_run, (Heatmap_max_value_run r0 co) by done.
  destruct (py_max _) as [m|e]; [|by exists (Raise e), extra0].
  rewrite bind_run, lift_run.
  destruct (apply_norm nf m m) as [M|e]; [|by exists (Raise e), extra0].
  rewrite bind_run. unfold Heatmap_new, alloc. rewrite bind_run.
  rewrite (Heatmap_items_run r0 co) by by apply lookup_app_l_Some.
  rewrite bind_run.
  destruct (normalize_loop_frame nf M (clusterer o) (σ ++ extra0)
              (map_to_list (points co)) ∅) as (res & acc' & ->).
  destruct res as [[]|e].
  - eexists (Ok _), (extra0 ++ [_]). rewrite (assoc_L (++)).
    split; [reflexivity|]. intros r [= <-].
    rewrite !length_app. simpl. lia.
  - exists (Raise e), (extra0 ++ [mkHeatmap (clusterer o) acc']).
    by rewrite (assoc_L (++)).
Qed.

Lemma imap_key_fmap (G : R → R) (cp : gmap Point R) :
  map_imap (λ p _, Some (G (default 0%R (cp !! p)))) cp = G <$> cp.
Proof.
  apply map_eq. intros q. rewrite map_lookup_imap, lookup_fmap.
  by destruct (cp !! q).
Qed.

(** The run of [normalize] when nothing raises: the returned heatmap holds,
    for every cell of the clustered counter, the entry [G] computes. *)
Lemma Heatmap_normalize_run_ok (self : ref) (o : Heatmap)
    (nf : option NormFunc) (σ : store) (m M : R) (G : R → R) :
  σ !! self = Some o →
  py_max ((map_to_list (clustered_points (clusterer o) (points o))).*2)
  = Ok m →
  apply_norm nf m m = Ok M →
  (∀ p v, clustered_points (clusterer o) (points o) !! p = Some v →
          norm_entry nf M v = Ok (G v)) →
  ∃ (r : ref) (extra : store),
    Heatmap_normalize self nf σ = (Ok r, σ ++ extra)
    ∧ (σ ++ extra) !! r
      = Some (mkHeatmap (clusterer o)
                (G <$> clustered_points (clusterer o) (points o))).
Proof.
  intros Hh Hmax HM HG.
  unfold Heatmap_normalize. rewrite bind_run.
  rewrite (deref_run self o) by done. rewrite bind_run.
  destruct (cluster_heatmap_result (clusterer o) self o σ Hh)
    as (r0 & extra0 & co & -> & Hr0 & Hco).
  rewrite bind_run, (Heatmap_max_value_run r0 co) by done.
  rewrite Hco, Hmax, bind_run, lift_run, HM.
  rewrite bind_run. unfold Heatmap_new, alloc. rewrite bind_run.
  rewrite (Heatmap_items_run r0 co) by by apply lookup_app_l_Some.
  rewrite bind_run, Hco.
  rewrite (normalize_loop_ok nf M (clusterer o) (σ ++ extra0)
             (λ p, G (default 0%R
                        (clustered_points (clusterer o) (points o) !! p)))).
  2: { intros p v Hin%elem_of_map_to_list. rewrite Hin. by apply (HG p). }
  rewrite foldl_insert_items, imap_key_fmap.
  eexists _, (extra0 ++ [_]). rewrite (assoc_L (++)).
  split; [reflexivity|]. apply lookup_snoc_new.
Qed.

(** C8 (as the code has it).  Whatever the heatmap, its clusterer and the
    transform, [normalize] leaves every heatmap of the store as it was, the
    source among them; when it returns, it returns a reference to a heatmap
    that did not exist before. *)
Theorem normalize_preserves_source (σ : store) (self : ref)
    (norm_func : option NormFunc) :
  ∃ (res : result ref) (σ' : store),
    Heatmap_normalize self norm_func σ = (res, σ')
    ∧ (∀ h o, σ !! h = Some o → σ' !! h = Some o)
    ∧ (∀ normalized, res = Ok normalized →
         σ !! normalized = None
         ∧ is_Some (σ' !! normalized)
         ∧ normalized ≠ self).
Proof.
  destruct (Heatmap_normalize_frame self norm_func σ)
    as (res & extra & Hrun & Hfresh).
  exists res, (σ ++ extra). split_and!; [done|..].
  - intros h o Hh. by apply lookup_app_l_Some.
  - intros r Hr. destruct (Hfresh r Hr) as [Hlo Hhi]. split_and!.
    + by apply lookup_ge_None_2.
    + by apply lookup_lt_is_Some_2.
    + intros ->. subst res. unfold Heatmap_normalize in Hrun.
      rewrite bind_run in Hrun.
      destruct (σ !! self) as [o|] eqn:Hs.
      * apply lookup_lt_Some in Hs. lia.
      * by rewrite deref_fail in Hrun.
Qed.

(** C8, as stated, fails: on a heatmap without points [normalize] raises
    and returns no map. *)
Lemma normalize_empty_counterexample :
  Heatmap_normalize 0 None [mkHeatmap Identity ∅]
  = (Raise ValueError, [mkHeatmap Identity ∅])
  ∧ ¬ ∀ (σ : store) (self : ref) (o : Heatmap) (norm_func : option NormFunc),
        σ !! self = Some o →
        ∃ (normalized : ref) (σ' : store),
          Heatmap_normalize self norm_func σ = (Ok normalized, σ').
Proof.
  assert (Hrun : Heatmap_normalize 0 None [mkHeatmap Identity ∅]
                 = (Raise ValueError, [mkHeatmap Identity ∅])).
  { unfold Heatmap_normalize.
    rewrite bind_run, (deref_run 0 (mkHeatmap Identity ∅)) by done.
    rewrite bind_run, (cluster_heatmap_run _ 0 (mkHeatmap Identity ∅)) by done.
    cbn [clusterer].
    rewrite bind_run, (Heatmap_max_value_run 0 (mkHeatmap Identity ∅)) by done.
    cbn [points]. by rewrite map_to_list_empty. }
  split; [done|]. intros H.
  destruct (H [mkHeatmap Identity ∅] 0%nat (mkHeatmap Identity ∅) None eq_refl)
    as (r & σ' & E).
  rewrite Hrun in E. discriminate.
Qed.

(** A heatmap with one point stays in the store as it was. *)
Lemma normalize_preserves_source_witness :
  ∃ (res : result ref) (σ' : store),
    Heatmap_normalize 0 None [mkHeatmap Identity {[mkPoint 1 2 := 4%R]}]
    = (res, σ')
    ∧ σ' !! 0%nat = Some (mkHeatmap Identity {[mkPoint 1 2 := 4%R]}).
Proof.
  destruct (normalize_preserves_source
              [mkHeatmap Identity {[mkPoint 1 2 := 4%R]}] 0%nat None)
    as (res & σ' & Hrun & Hkeep & _).
  exists res, σ'. split; [exact Hrun|]. apply Hkeep. reflexivity.
Defined.

(** *** normalize: the maximum is 1 (C1) *)

(** With a radius of at least 1 the weight of the point itself is 1. *)
Lemma get_weight_origin (k : KernelClusterer) :
  1 ≤ radius k → get_weight k 0 = 1%R.
Proof.
  intros Hr. assert (1 <= IZR (radius k))%R by by apply IZR_le.
  destruct k as [r|r sc]; simpl in *;
    (destruct (Rge_dec 0 (IZR r)); [lra|]).
  - unfold Rdiv. rewrite Rmult_0_l. lra.
  - replace (- 0 * sc)%R with 0%R by lra. apply Rpower_O, exp_pos.
Qed.

Lemma get_weight_nonneg (k : KernelClusterer) (d : R) :
  1 ≤ radius k → (0 <= d)%R → (0 <= get_weight k d)%R.
Proof.
  intros Hr Hd. assert (1 <= IZR (radius k))%R by by apply IZR_le.
  destruct k as [r|r sc]; simpl in *;
    (destruct (Rge_dec d (IZR r)) as [|Hlt]; [lra|]).
  - assert (d / IZR r < 1)%R; [|lra].
    apply Rmult_lt_reg_r with (IZR r); [lra|].
    unfold Rdiv. rewrite Rmult_assoc, Rinv_l by lra. lra.
  - unfold Rpower. apply Rlt_le, exp_pos.
Qed.

Lemma hypot_nonneg (a b : R) : (0 <= hypot a b)%R.
Proof. apply sqrt_pos. Qed.

Lemma weights_matrix_nonneg (k : KernelClusterer) (e : Z * Z * R) :
  1 ≤ radius k → e ∈ weights_matrix k → (0 <= e.2)%R.
Proof.
  intros Hr. unfold weights_matrix.
  intros (dx & (dy & He & _)%list_elem_of_bind & _)%list_elem_of_bind.
  destruct (decide _); [by apply elem_of_nil in He|].
  apply list_elem_of_singleton in He as ->. simpl.
  apply get_weight_nonneg; [done|apply hypot_nonneg].
Qed.

Lemma weights_matrix_origin (k : KernelClusterer) :
  1 ≤ radius k → ((0, 0), 1%R) ∈ weights_matrix k.
Proof.
  intros Hr. unfold weights_matrix.
  assert (Hin : 0 ∈ range (- radius k) (radius k + 1)).
  { unfold range. rewrite elem_of_seqZ. lia. }
  apply list_elem_of_bind. exists 0. split; [|done].
  apply list_elem_of_bind. exists 0. split; [|done].
  rewrite hypot_origin, get_weight_origin by done.
  rewrite decide_False by lra. by left.
Qed.

Lemma kernel_term_nonneg (pts : gmap Point R) (kp : Point * R) :
  (∀ p v, pts !! p = Some v → (0 <= v)%R) → (0 <= kp.2)%R →
  (0 <= kernel_term pts kp)%R.
Proof.
  intros Hpts Hw. unfold kernel_term.
  destruct (decide _); [lra|].
  destruct (pts !! kp.1) as [v|] eqn:E; simpl in *; [|lra].
  pose proof (Hpts _ _ E). nra.
Qed.

(** With non-negative counts and a radius of at least 1 the weighted sum at
    a point is at least the count of the point. *)
Lemma kernel_value_ge (k : KernelClusterer) (pts : gmap Point R) (p : Point) :
  1 ≤ radius k →
  (∀ q v, pts !! q = Some v → (0 <= v)%R) →
  (default 0 (pts !! p) <= kernel_value k pts p)%R.
Proof.
  intros Hr Hpts. rewrite kernel_value_sum.
  set (F := λ e : Z * Z * R,
         kernel_term pts (mkPoint (x p + e.1.1) (y p + e.1.2), e.2)).
  assert (HF : F ((0, 0), 1%R) = default 0%R (pts !! p)).
  { unfold F, kernel_term. cbn [fst snd]. rewrite !Z.add_0_r.
    destruct p as [px py]. cbn [x y].
    destruct (decide _) as [->|]; lra. }
  rewrite <- HF. apply sumR_ge_elem; [|by apply weights_matrix_origin].
  intros e He. apply kernel_term_nonneg; [done|].
  by apply (weights_matrix_nonneg k e).
Qed.

Lemma clustered_points_ge (c : Clusterer) (pts : gmap Point R) :
  usable c →
  (∀ q v, pts !! q = Some v → (0 <= v)%R) →
  (∀ p v, pts !! p = Some v →
     ∃ cv, clustered_points c pts !! p = Some cv ∧ (v <= cv)%R)
  ∧ (∀ p cv, clustered_points c pts !! p = Some cv → (0 <= cv)%R).
Proof.
  intros Hc Hpts. destruct c as [| |k]; simpl in *.
  - split; [intros p v Hp; exists v; split; [done|lra] | done].
  - split; [intros p v Hp; exists v; split; [done|lra] | done].
  - split.
    + intros p v Hp. rewrite map_lookup_imap, Hp. simpl.
      eexists. split; [done|].
      pose proof (kernel_value_ge k pts p Hc Hpts) as H.
      by rewrite Hp in H.
    + intros p cv. rewrite map_lookup_imap.
      destruct (pts !! p) as [v|] eqn:Hp; [|done]. simpl. intros [= <-].
      pose proof (kernel_value_ge k pts p Hc Hpts) as H.
      rewrite Hp in H. simpl in H. pose proof (Hpts _ _ Hp). lra.
Qed.

Lemma quotient_bounds (a M : R) :
  (0 < M)%R → (0 <= a <= M)%R →
  (a * 1 / M <= 1)%R ∧ ((0 < a)%R → (0 < a * 1 / M)%R).
Proof.
  intros HM Ha. assert (0 < / M)%R by by apply Rinv_0_lt_compat.
  split.
  - apply Rmult_le_reg_r with M; [done|].
    unfold Rdiv. rewrite Rmult_assoc, Rinv_l by lra. lra.
  - intros Hpos. unfold Rdiv. nra.
Qed.

Lemma py_max_Ok (xs : list R) (m : R) :
  py_max xs = Ok m → m ∈ xs ∧ ∀ v, v ∈ xs → (v <= m)%R.
Proof.
  intros Hm. destruct (py_max_spec xs) as (m' & Hm' & Hin & Hub).
  { by intros ->. }
  rewrite Hm in Hm'. by injection Hm' as ->.
Qed.

(** [normalize] with a transform that is defined, monotone and positive on
    the positive values. *)
Lemma normalize_transform (t : R → R) (nf : option NormFunc) (σ : store)
    (self : ref) (o : Heatmap) :
  σ !! self = Some o →
  usable (clusterer o) →
  (∀ q v, points o !! q = Some v → (0 <= v)%R) →
  (∃ p v, points o !! p = Some v ∧ (0 < v)%R) →
  (∀ v M, (0 <= v)%R → apply_norm nf v M = Ok (t v)) →
  (∀ a b, (0 <= a <= b)%R → (t a <= t b)%R) →
  (∀ v, (0 <= v)%R → (0 <= t v)%R) →
  (∀ v, (0 < v)%R → (0 < t v)%R) →
  ∃ (normalized : ref) (σ' : store) (n : Heatmap),
    Heatmap_normalize self nf σ = (Ok normalized, σ')
    ∧ σ' !! normalized = Some n
    ∧ Heatmap_max_value normalized σ' = (Ok 1%R, σ')
    ∧ ∀ p v, points o !! p = Some v → (0 < v)%R →
        ∃ v', points n !! p = Some v' ∧ (0 < v' <= 1)%R.
Proof.
  intros Hh Hc Hnn (p0 & v0 & Hp0 & Hv0) Ht Hmono Hnonneg Hpos.
  set (cp := clustered_points (clusterer o) (points o)).
  destruct (clustered_points_ge (clusterer o) (points o) Hc Hnn)
    as [Hge Hcnn]. fold cp in Hge, Hcnn.
  destruct (Hge p0 v0 Hp0) as (cv0 & Hcv0 & Hle0).
  destruct (py_max_spec ((map_to_list cp).*2)) as (m & Hmax & Hmin & Hub).
  { rewrite values_nil. intros E. by rewrite E in Hcv0. }
  apply elem_of_values in Hmin as [pm Hpm].
  assert (Hm : (0 < m)%R).
  { assert (cv0 <= m)%R by (apply Hub, elem_of_values; eauto). lra. }
  set (G := λ v : R, (t v * 1 / t m)%R).
  pose proof (Hpos m Hm) as HM.
  assert (HG : ∀ p v, cp !! p = Some v → norm_entry nf (t m) v = Ok (G v)).
  { intros p v Hp. unfold norm_entry.
    rewrite Ht by by eapply Hcnn. simpl. unfold py_div.
    rewrite decide_False by lra. done. }
  assert (Hbound : ∀ p v, cp !! p = Some v →
            (G v <= 1)%R ∧ ((0 < v)%R → (0 < G v)%R)).
  { intros p v Hp.
    assert (v <= m)%R by (apply Hub, elem_of_values; eauto).
    pose proof (Hcnn _ _ Hp).
    destruct (quotient_bounds (t v) (t m) HM) as [H1 H2].
    - split; [by apply Hnonneg | apply Hmono; lra].
    - split; [done|]. intros Hv. apply H2, Hpos, Hv. }
  destruct (Heatmap_normalize_run_ok self o nf σ m (t m) G Hh Hmax
              (Ht m m ltac:(lra)) HG) as (r & extra & Hrun & Hr).
  fold cp in Hr. eexists r, (σ ++ extra), _. split_and!; [done..| |].
  - rewrite (Heatmap_max_value_run r _ _ Hr). cbn [points]. f_equal.
    apply py_max_unique.
    + apply elem_of_values. exists pm. rewrite lookup_fmap, Hpm. simpl.
      f_equal. unfold G. field. lra.
    + intros v' [p Hp]%elem_of_values. rewrite lookup_fmap in Hp.
      destruct (cp !! p) as [v|] eqn:E; [|done]. injection Hp as <-.
      by apply (Hbound p v).
  - intros p v Hp Hv. destruct (Hge p v Hp) as (cv & Hcv & Hle).
    exists (G cv). cbn [points]. rewrite lookup_fmap, Hcv.
    split; [done|]. destruct (Hbound p cv Hcv) as [H1 H2].
    split; [apply H2; lra | done].
Qed.

Lemma log_norm_defined (v M : R) :
  (0 <= v)%R → apply_norm (Some log_norm) v M = Ok (ln (v + 1)).
Proof.
  intros Hv. unfold apply_norm, log_norm, py_log.
  destruct (Rlt_dec 0 (v + 1)); [done|lra].
Qed.

Lemma log_norm_monotone (a b : R) :
  (0 <= a <= b)%R → (ln (a + 1) <= ln (b + 1))%R.
Proof.
  intros [Ha Hab]. destruct (Req_dec_T a b) as [->|Hne]; [lra|].
  apply Rlt_le, ln_increasing; lra.
Qed.

Lemma log_norm_positive (v : R) : (0 < v)%R → (0 < ln (v + 1))%R.
Proof.
  intros Hv. rewrite <- ln_1. apply ln_increasing; lra.
Qed.

(** C1 (as the code has it).  The heatmap holds non-negative values, its
    maximum is positive, and its clusterer is the identity, a scaled one or
    a kernel clusterer of radius at least 1.  Then [normalize], without a
    transform or with the log transform, returns a heatmap whose maximum is
    1 and in which every cell that was positive in the source has a value
    in (0, 1]. *)
Theorem normalize_max_one (σ : store) (self : ref) (o : Heatmap)
    (norm_func : option NormFunc) (m : R) :
  σ !! self = Some o →
  usable (clusterer o) →
  (∀ p v, points o !! p = Some v → (0 <= v)%R) →
  Heatmap_max_value self σ = (Ok m, σ) →
  (0 < m)%R →
  norm_func = None ∨ norm_func = Some log_norm →
  ∃ (normalized : ref) (σ' : store) (n : Heatmap),
    Heatmap_normalize self norm_func σ = (Ok normalized, σ')
    ∧ σ' !! normalized = Some n
    ∧ Heatmap_max_value normalized σ' = (Ok 1%R, σ')
    ∧ ∀ p v, points o !! p = Some v → (0 < v)%R →
        ∃ v', points n !! p = Some v' ∧ (0 < v' <= 1)%R.
Proof.
  intros Hh Hc Hnn Hmax Hm Hnf.
  rewrite (Heatmap_max_value_run self o) in Hmax by done.
  injection Hmax as Hmax. apply py_max_Ok in Hmax as [Hin _].
  apply elem_of_values in Hin as [pm Hpm].
  assert (Hex : ∃ p v, points o !! p = Some v ∧ (0 < v)%R) by eauto.
  destruct Hnf as [->| ->].
  - apply (normalize_transform (λ v, v)); try done. intros a b. lra.
  - apply (normalize_transform (λ v, ln (v + 1))); try done.
    + intros v M. apply log_norm_defined.
    + apply log_norm_monotone.
    + intros v Hv. pose proof (log_norm_monotone 0 v ltac:(lra)) as H.
      rewrite Rplus_0_l, ln_1 in H. exact H.
    + apply log_norm_positive.
Qed.

Lemma Heatmap_max_value_single (c : Clusterer) (p : Point) (V : R) :
  Heatmap_max_value 0 [mkHeatmap c {[p := V]}]
  = (Ok V, [mkHeatmap c {[p := V]}]).
Proof.
  rewrite (Heatmap_max_value_run 0 (mkHeatmap c {[p := V]})) by done.
  cbn [points]. by rewrite map_to_list_singleton.
Qed.

(** A linear kernel of radius 2 and the log transform on one point counted
    twice. *)
Lemma normalize_max_one_witness :
  ∃ (normalized : ref) (σ' : store) (n : Heatmap),
    Heatmap_normalize 0 (Some log_norm)
      [mkHeatmap (LinearKernelClusterer 2) {[mkPoint 3 4 := 2%R]}]
    = (Ok normalized, σ')
    ∧ σ' !! normalized = Some n
    ∧ Heatmap_max_value normalized σ' = (Ok 1%R, σ').
Proof.
  destruct (normalize_max_one
              [mkHeatmap (LinearKernelClusterer 2) {[mkPoint 3 4 := 2%R]}]
              0%nat
              (mkHeatmap (LinearKernelClusterer 2) {[mkPoint 3 4 := 2%R]})
              (Some log_norm) 2%R)
    as (normalized & σ' & n & Hrun & Hn & Hmax & _).
  - reflexivity.
  - simpl. lia.
  - cbn [points]. intros p v [_ <-]%lookup_singleton_Some. lra.
  - apply Heatmap_max_value_single.
  - lra.
  - by right.
  - by exists normalized, σ', n.
Defined.

(** C1, as stated, fails: a heatmap with one point counted once and a
    linear kernel clusterer of radius 0 has maximum 1, the clustered value
    of the point is 0, and [normalize] raises on the division by the
    maximum 0. *)
Lemma normalize_radius_zero_counterexample :
  Heatmap_max_value 0
    [mkHeatmap (LinearKernelClusterer 0) {[mkPoint 0 0 := 1%R]}]
  = (Ok 1%R, [mkHeatmap (LinearKernelClusterer 0) {[mkPoint 0 0 := 1%R]}])
  ∧ (Heatmap_normalize 0 None
       [mkHeatmap (LinearKernelClusterer 0) {[mkPoint 0 0 := 1%R]}]).1
    = Raise ZeroDivisionError
  ∧ ¬ ∀ (σ : store) (self : ref) (o : Heatmap) (m : R),
        σ !! self = Some o →
        Heatmap_max_value self σ = (Ok m, σ) → (0 < m)%R →
        ∃ (normalized : ref) (σ' : store),
          Heatmap_normalize self None σ = (Ok normalized, σ').
Proof.
  change (LinearKernelClusterer 0) with (Kernel (LinearKernel 0)).
  set (src := mkHeatmap (Kernel (LinearKernel 0)) {[mkPoint 0 0 := 1%R]}).
  assert (Hw : get_weight (LinearKernel 0) 0 = 0%R).
  { simpl. destruct (Rge_dec 0 0); [done|lra]. }
  assert (Hrun : (Heatmap_normalize 0 None [src]).1 = Raise ZeroDivisionError).
  { unfold Heatmap_normalize.
    rewrite bind_run, (deref_run 0 src) by done.
    rewrite bind_run, (cluster_heatmap_run _ 0 src) by done.
    cbn [clusterer src points length].
    rewrite clustered_points_single, Hw, Rmult_0_r.
    set (co := mkHeatmap (Kernel (LinearKernel 0))
                 {[mkPoint 0 0 := 0%R]}).
    rewrite bind_run, (Heatmap_max_value_run 1 co) by done.
    cbn [points co]. rewrite map_to_list_singleton. cbn [fmap list_fmap snd py_max foldl].
    rewrite bind_run, lift_run. cbn [apply_norm].
    rewrite bind_run. unfold Heatmap_new, alloc. rewrite bind_run.
    rewrite (Heatmap_items_run 1 co) by done. cbn [points co].
    rewrite map_to_list_singleton, bind_run. cbn [for_each].
    rewrite bind_run, bind_run, lift_run. cbn [apply_norm].
    rewrite bind_run, lift_run. unfold py_div.
    by rewrite decide_True. }
  split_and!; [apply Heatmap_max_value_single | done |].
  intros H.
  destruct (H [src] 0%nat src 1%R eq_refl (Heatmap_max_value_single _ _ _)
              ltac:(lra)) as (r & σ' & E).
  rewrite E in Hrun. discriminate.
Qed.

(** *** Two runs on concrete inputs *)

(** The count-once clusterer of magnification 3 on a line that stays in a
    cell, moves on and comes back: repeated cells are yielded once per
    stay. *)
Example cluster_points_once_example :
  cluster_points (OnceScaledClusterer 3)
    [mkPoint 0 0; mkPoint 1 0; mkPoint 3 0; mkPoint 4 1; mkPoint 0 0]
  = [mkPoint 0 0; mkPoint 1 0; mkPoint 0 0].
Proof.
  unfold OnceScaledClusterer. rewrite ScaledClusterer_3.
  cbn [cluster_points scaled_cluster_points].
  rewrite (cluster_point_third true 0 0 0 0) by (simpl; lra).
  rewrite (cluster_point_third true 1 0 0 0) by (simpl; lra).
  rewrite (cluster_point_third true 3 0 1 0) by (simpl; lra).
  rewrite (cluster_point_third true 4 1 1 0) by (simpl; lra).
  reflexivity.
Qed.

Lemma hypot_ge_l (a b : R) : (0 <= a)%R → (a <= hypot a b)%R.
Proof.
  intros Ha. unfold hypot.
  rewrite <- (sqrt_square a) at 1 by done.
  apply sqrt_le_1_alt. nra.
Qed.

Lemma METERS_PER_DEGREE_upper : (METERS_PER_DEGREE < 150000)%R.
Proof.
  unfold METERS_PER_DEGREE, AVG_EARTH_RADIUS. pose proof PI_4. lra.
Qed.

(** The scenario of the specification: the points (0, 0), (0, 0.001) and
    (10, 10), a threshold of 700 m and the equirectangular projection at
    1 m per pixel give a polyline of two points and a polyline of one. *)
Example get_lines_three_points :
  ∃ l1 l2,
    get_lines (Equirectangular_project (METERS_PER_DEGREE / 1)) MAX_GAP
      [mkLatLon 0 0; mkLatLon 0 (1 / 1000); mkLatLon 10 10]
    = [l1; l2]
    ∧ length l1 = 2%nat ∧ length l2 = 1%nat.
Proof.
  pose proof METERS_PER_DEGREE_lower as Hlo.
  pose proof METERS_PER_DEGREE_upper as Hhi.
  set (proj := Equirectangular_project (METERS_PER_DEGREE / 1)).
  assert (H1 : project_point proj (mkLatLon 0 0) = mkPoint 0 0).
  { unfold project_point, proj, Equirectangular_project. simpl.
    rewrite Rmult_0_l. apply Point_new_IZR. }
  assert (H2 : ∃ k, project_point proj (mkLatLon 0 (1 / 1000)) = mkPoint k 0
                    ∧ k ≠ 0).
  { unfold project_point, proj, Equirectangular_project, Point_new. simpl.
    rewrite Rmult_0_l, py_round_IZR. eexists. split; [reflexivity|].
    intros Hk.
    pose proof (py_round_error (1 / 1000 * (METERS_PER_DEGREE / 1))) as He.
    rewrite Hk in He. lra. }
  destruct H2 as (k & H2 & Hk).
  assert (G2 : is_gap MAX_GAP
                 (LatLon_distance (mkLatLon 0 (1 / 1000))
                                  (Some (mkLatLon 0 0))) = false).
  { unfold is_gap, LatLon_distance, MAX_GAP. simpl.
    destruct (decide _); [done|]. destruct (Rgt_dec _ _) as [Hgt|]; [|done].
    exfalso. revert Hgt. unfold radians.
    replace (0 * PI / 180)%R with 0%R by lra. rewrite cos_0.
    replace (0 - 0)%R with 0%R by lra.
    replace ((1 / 1000 - 0) * 1)%R with (/ 1000)%R by lra.
    unfold hypot. rewrite Rmult_0_l, Rplus_0_l, sqrt_square by lra. lra. }
  assert (G3 : is_gap MAX_GAP
                 (LatLon_distance (mkLatLon 10 10)
                                  (Some (mkLatLon 0 (1 / 1000)))) = true).
  { unfold is_gap, LatLon_distance, MAX_GAP. simpl.
    assert (10 <= hypot (10 - 0)
                    ((10 - 1 / 1000) * cos (radians 10)))%R.
    { replace (10 - 0)%R with 10%R by lra. apply hypot_ge_l. lra. }
    destruct (decide _) as [E|]; [nra|].
    destruct (Rgt_dec _ _) as [|Hn]; [done|]. exfalso. apply Hn. nra. }
  unfold get_lines. cbn [get_lines_from]. fold proj.
  rewrite G2, G3, H1, H2. cbn [LatLon_distance is_gap].
  unfold PolyLine.append, PolyLine.empty. simpl.
  rewrite decide_False by (intros [= ?]; lia). simpl.
  eexists _, _. split; [reflexivity|]. done.
Qed.

(** ** Further properties of geo.py *)

Lemma max_Z_loop_spec (xs : list Z) :
  ∀ m0 : Z,
    let m := foldl (λ m y, if Z.ltb m y then y else m) m0 xs in
    m ∈ m0 :: xs ∧ ∀ v, v ∈ m0 :: xs → v ≤ m.
Proof.
  induction xs as [|a xs IH]; intros m0; simpl.
  - split; [by left|]. intros v ->%list_elem_of_singleton. lia.
  - destruct (IH (if Z.ltb m0 a then a else m0)) as [Hin Hub]. split.
    + apply elem_of_cons in Hin as [->|Hin]; [|by do 2 right].
      destruct (Z.ltb m0 a); [right; left | left].
    + intros v Hv. destruct (Z.ltb_spec m0 a).
      * apply elem_of_cons in Hv as [->|Hv]; [|by apply Hub].
        pose proof (Hub a ltac:(left)). lia.
      * apply elem_of_cons in Hv as [->|Hv]; [by apply Hub; left|].
        apply elem_of_cons in Hv as [->|Hv]; [|by apply Hub; right].
        pose proof (Hub m0 ltac:(left)). lia.
Qed.

Lemma min_Z_loop_spec (xs : list Z) :
  ∀ m0 : Z,
    let m := foldl (λ m y, if Z.ltb y m then y else m) m0 xs in
    m ∈ m0 :: xs ∧ ∀ v, v ∈ m0 :: xs → m ≤ v.
Proof.
  induction xs as [|a xs IH]; intros m0; simpl.
  - split; [by left|]. intros v ->%list_elem_of_singleton. lia.
  - destruct (IH (if Z.ltb a m0 then a else m0)) as [Hin Hlb]. split.
    + apply elem_of_cons in Hin as [->|Hin]; [|by do 2 right].
      destruct (Z.ltb a m0); [right; left | left].
    + intros v Hv. destruct (Z.ltb_spec a m0).
      * apply elem_of_cons in Hv as [->|Hv]; [|by apply Hlb].
        pose proof (Hlb a ltac:(left)). lia.
      * apply elem_of_cons in Hv as [->|Hv]; [by apply Hlb; left|].
        apply elem_of_cons in Hv as [->|Hv]; [|by apply Hlb; right].
        pose proof (Hlb m0 ltac:(left)). lia.
Qed.

Lemma py_max_Z_spec (xs : list Z) :
  xs ≠ [] → ∃ m, py_max_Z xs = Ok m ∧ m ∈ xs ∧ ∀ v, v ∈ xs → v ≤ m.
Proof.
  destruct xs as [|a xs]; [done|]. intros _. eexists. split; [done|].
  apply max_Z_loop_spec.
Qed.

Lemma py_min_Z_spec (xs : list Z) :
  xs ≠ [] → ∃ m, py_min_Z xs = Ok m ∧ m ∈ xs ∧ ∀ v, v ∈ xs → m ≤ v.
Proof.
  destruct xs as [|a xs]; [done|]. intros _. eexists. split; [done|].
  apply min_Z_loop_spec.
Qed.

(** The four extremes that [Extent.update] computes for a non-empty list
    of coordinates. *)
Lemma coords_extremes (coords : list Point) :
  coords ≠ [] →
  ∃ max_x min_x max_y min_y,
    py_max_Z (x <$> coords) = Ok max_x
    ∧ py_min_Z (x <$> coords) = Ok min_x
    ∧ py_max_Z (y <$> coords) = Ok max_y
    ∧ py_min_Z (y <$> coords) = Ok min_y
    ∧ (∀ c, c ∈ coords → min_x ≤ x c ≤ max_x ∧ min_y ≤ y c ≤ max_y)
    ∧ (∃ c, c ∈ coords ∧ x c = min_x) ∧ (∃ c, c ∈ coords ∧ x c = max_x)
    ∧ (∃ c, c ∈ coords ∧ y c = min_y) ∧ (∃ c, c ∈ coords ∧ y c = max_y).
Proof.
  intros Hne.
  assert (Hx : x <$> coords ≠ []) by by destruct coords.
  assert (Hy : y <$> coords ≠ []) by by destruct coords.
  destruct (py_max_Z_spec _ Hx) as (max_x & -> & Hmx & Hbx).
  destruct (py_min_Z_spec _ Hx) as (min_x & -> & Hnx & Hlx).
  destruct (py_max_Z_spec _ Hy) as (max_y & -> & Hmy & Hby).
  destruct (py_min_Z_spec _ Hy) as (min_y & -> & Hny & Hly).
  exists max_x, min_x, max_y, min_y. split_and!; try done.
  - intros c Hc.
    assert (x c ∈ x <$> coords) by (apply list_elem_of_fmap; eauto).
    assert (y c ∈ y <$> coords) by (apply list_elem_of_fmap; eauto).
    split_and!; auto.
  - apply list_elem_of_fmap in Hnx as (c & -> & ?). eauto.
  - apply list_elem_of_fmap in Hmx as (c & -> & ?). eauto.
  - apply list_elem_of_fmap in Hny as (c & -> & ?). eauto.
  - apply list_elem_of_fmap in Hmy as (c & -> & ?). eauto.
Qed.

Lemma Extent_is_inside_true (lo hi c : Point) :
  Extent_is_inside (Extent.mk (Some lo) (Some hi)) c = Ok true
  ↔ (x lo ≤ x c ≤ x hi ∧ y lo ≤ y c ≤ y hi).
Proof.
  unfold Extent_is_inside. simpl. split.
  - intros [= H]. rewrite !andb_true_iff, !Z.leb_le in H. lia.
  - intros H. f_equal. rewrite !andb_true_iff, !Z.leb_le. lia.
Qed.

(** A new extent built from a non-empty list of coordinates is their
    bounding box: every coordinate is inside, and each of the four bounds is
    reached by a coordinate. *)
Theorem Extent_init_bounding_box (coords : list Point) :
  coords ≠ [] →
  ∃ lo hi,
    Extent_init (Some coords) = Ok (Extent.mk (Some lo) (Some hi))
    ∧ (∀ c, c ∈ coords →
         Extent_is_inside (Extent.mk (Some lo) (Some hi)) c = Ok true)
    ∧ (∃ c, c ∈ coords ∧ x c = x lo) ∧ (∃ c, c ∈ coords ∧ x c = x hi)
    ∧ (∃ c, c ∈ coords ∧ y c = y lo) ∧ (∃ c, c ∈ coords ∧ y c = y hi).
Proof.
  intros Hne.
  destruct (coords_extremes coords Hne)
    as (max_x & min_x & max_y & min_y & E1 & E2 & E3 & E4 & Hin & H1 & H2
        & H3 & H4).
  exists (mkPoint min_x min_y), (mkPoint max_x max_y).
  split_and!; try done.
  - destruct coords as [|c cs]; [done|]. unfold Extent_init, Extent.update.
    rewrite E1, E2, E3, E4. reflexivity.
  - intros c Hc. apply Extent_is_inside_true. simpl. by apply Hin.
Qed.

(** The bounding box of the three corners (4, 1), (-2, 7), (0, 3). *)
Lemma Extent_init_bounding_box_witness :
  ∃ lo hi,
    Extent_init (Some [mkPoint 4 1; mkPoint (-2) 7; mkPoint 0 3])
    = Ok (Extent.mk (Some lo) (Some hi))
    ∧ Extent_is_inside (Extent.mk (Some lo) (Some hi)) (mkPoint 0 3) = Ok true.
Proof.
  destruct (Extent_init_bounding_box
              [mkPoint 4 1; mkPoint (-2) 7; mkPoint 0 3] ltac:(discriminate))
    as (lo & hi & E & Hin & _).
  exists lo, hi. split; [exact E|]. apply Hin. do 2 right. left.
Defined.

Lemma Extent_resize_ok (lo hi : Point) (size : Z) :
  x lo ≤ x hi → y lo ≤ y hi → 0 ≤ size →
  Extent_resize (Extent.mk (Some lo) (Some hi)) size
  = Ok (Extent.mk (Some (mkPoint (x lo - size) (y lo - size)))
                  (Some (mkPoint (x hi + size) (y hi + size)))).
Proof.
  intros Hx Hy Hs.
  unfold Extent_resize, Extent_init, Extent.update. simpl.
  repeat match goal with
         | |- context [Z.ltb ?a ?b] => destruct (Z.ltb_spec a b)
         end; try lia; unfold mret, result_ret; repeat f_equal; lia.
Qed.

(** [resize] by a margin that is not negative moves min down and max up by
    the margin and widens both sides by twice the margin; on an extent
    without bounds it raises. *)
Theorem Extent_resize_margin (lo hi : Point) (size : Z) :
  x lo ≤ x hi → y lo ≤ y hi → 0 ≤ size →
  Extent_resize (Extent.mk (Some lo) (Some hi)) size
  = Ok (Extent.mk (Some (mkPoint (x lo - size) (y lo - size)))
                  (Some (mkPoint (x hi + size) (y hi + size))))
  ∧ Extent_width (Extent.mk (Some (mkPoint (x lo - size) (y lo - size)))
                            (Some (mkPoint (x hi + size) (y hi + size))))
    = Ok (x hi - x lo + 1 + 2 * size)
  ∧ Extent_height (Extent.mk (Some (mkPoint (x lo - size) (y lo - size)))
                             (Some (mkPoint (x hi + size) (y hi + size))))
    = Ok (y hi - y lo + 1 + 2 * size)
  ∧ Extent_resize Extent.empty size = Raise AttributeError.
Proof.
  intros Hx Hy Hs. split_and!.
  - by apply Extent_resize_ok.
  - unfold Extent_width. simpl. f_equal. lia.
  - unfold Extent_height. simpl. f_equal. lia.
  - reflexivity.
Qed.

Lemma Extent_resize_margin_witness :
  Extent_resize (Extent.mk (Some (mkPoint 0 0)) (Some (mkPoint 9 4))) 100
  = Ok (Extent.mk (Some (mkPoint (-100) (-100))) (Some (mkPoint 109 104))).
Proof.
  exact (proj1 (Extent_resize_margin (mkPoint 0 0) (mkPoint 9 4) 100
                  ltac:(simpl; lia) ltac:(simpl; lia) ltac:(lia))).
Defined.

(** A coordinate inside an extent is translated to a pixel of the canvas:
    its coordinates are not negative and below the width and the height. *)
Theorem Extent_translate_in_canvas (self : Extent.t) (coord : Point) :
  Extent_is_inside self coord = Ok true →
  ∃ t w h,
    Extent_translate self coord = Ok t
    ∧ Extent_width self = Ok w ∧ Extent_height self = Ok h
    ∧ 0 ≤ x t < w ∧ 0 ≤ y t < h.
Proof.
  destruct self as [[lo|] [hi|]]; try discriminate.
  intros H%Extent_is_inside_true.
  eexists _, _, _. split_and!; try reflexivity; simpl; lia.
Qed.

Lemma Extent_translate_in_canvas_witness :
  ∃ t w h,
    Extent_translate (Extent.mk (Some (mkPoint 10 20)) (Some (mkPoint 15 30)))
                     (mkPoint 12 30) = Ok t
    ∧ Extent_width (Extent.mk (Some (mkPoint 10 20)) (Some (mkPoint 15 30)))
      = Ok w
    ∧ Extent_height (Extent.mk (Some (mkPoint 10 20)) (Some (mkPoint 15 30)))
      = Ok h
    ∧ 0 ≤ x t < w ∧ 0 ≤ y t < h.
Proof.
  exact (Extent_translate_in_canvas
           (Extent.mk (Some (mkPoint 10 20)) (Some (mkPoint 15 30)))
           (mkPoint 12 30) eq_refl).
Defined.

Lemma Extent_update_nonempty (e : Extent.t) (line : list Point) :
  line ≠ [] → ∃ lo hi, Extent.update e line = Ok (Extent.mk (Some lo) (Some hi)).
Proof.
  intros Hne.
  destruct (coords_extremes line Hne)
    as (max_x & min_x & max_y & min_y & E1 & E2 & E3 & E4 & _).
  unfold Extent.update. rewrite E1, E2, E3, E4. simpl. eauto.
Qed.

Lemma Extent_update_empty_line (e : Extent.t) :
  Extent.update e [] = Raise ValueError.
Proof. reflexivity. Qed.

(** One step of the loop of [from_lines] in the positive quadrant. *)
Lemma Extent_update_positive (e : Extent.t) (line : list Point) :
  line ≠ [] → Forall positive_point line → positive_extent e →
  ∃ lo hi,
    Extent.update e line = Ok (Extent.mk (Some lo) (Some hi))
    ∧ positive_extent (Extent.mk (Some lo) (Some hi))
    ∧ (∀ c, c ∈ line →
         Extent_is_inside (Extent.mk (Some lo) (Some hi)) c = Ok true)
    ∧ (∀ c, Extent_is_inside e c = Ok true →
         Extent_is_inside (Extent.mk (Some lo) (Some hi)) c = Ok true).
Proof.
  intros Hne Hpos He. rewrite Forall_forall in Hpos.
  destruct (coords_extremes line Hne)
    as (max_x & min_x & max_y & min_y & E1 & E2 & E3 & E4 & Hin
        & (c1 & Hc1 & X1) & (c2 & Hc2 & X2) & (c3 & Hc3 & X3)
        & (c4 & Hc4 & X4)).
  pose proof (Hpos _ Hc1) as [P1 _]. pose proof (Hpos _ Hc2) as [P2 _].
  pose proof (Hpos _ Hc3) as [_ P3]. pose proof (Hpos _ Hc4) as [_ P4].
  pose proof (Hin _ Hc1) as B1. pose proof (Hin _ Hc3) as B3.
  unfold Extent.update. rewrite E1, E2, E3, E4. simpl.
  eexists _, _. split; [reflexivity|].
  unfold positive_extent in He.
  destruct e as [[lo|] [hi|]]; simpl in He; try done.
  - assert (A1 : Extent.and_or (Some hi) (λ m, Z.max (x m) max_x) max_x
                 = Z.max (x hi) max_x).
    { unfold Extent.and_or. destruct (Z.eqb_spec (Z.max (x hi) max_x) 0); lia. }
    assert (A2 : Extent.and_or (Some hi) (λ m, Z.max (y m) max_y) max_y
                 = Z.max (y hi) max_y).
    { unfold Extent.and_or. destruct (Z.eqb_spec (Z.max (y hi) max_y) 0); lia. }
    assert (A3 : Extent.and_or (Some lo) (λ m, Z.min (x m) min_x) min_x
                 = Z.min (x lo) min_x).
    { unfold Extent.and_or. destruct (Z.eqb_spec (Z.min (x lo) min_x) 0); lia. }
    assert (A4 : Extent.and_or (Some lo) (λ m, Z.min (y m) min_y) min_y
                 = Z.min (y lo) min_y).
    { unfold Extent.and_or. destruct (Z.eqb_spec (Z.min (y lo) min_y) 0); lia. }
    cbn [Extent.max Extent.min]. rewrite A1, A2, A3, A4. split_and!.
    + unfold positive_extent. simpl. lia.
    + intros c Hc. apply Extent_is_inside_true. simpl.
      pose proof (Hin c Hc). lia.
    + intros c Hc%Extent_is_inside_true. apply Extent_is_inside_true.
      simpl. lia.
  - cbn [Extent.max Extent.min Extent.and_or]. split_and!.
    + unfold positive_extent. simpl. lia.
    + intros c Hc. apply Extent_is_inside_true. simpl. by apply Hin.
    + intros c Hc. discriminate.
Qed.

Lemma Extent_update_lines_positive (lines : list PolyLine.t) :
  ∀ e : Extent.t,
    Forall (λ l, l ≠ [] ∧ Forall positive_point l) lines →
    positive_extent e →
    ∃ e',
      Extent_update_lines e lines = Ok e'
      ∧ positive_extent e'
      ∧ (lines ≠ [] → ∃ lo hi, e' = Extent.mk (Some lo) (Some hi))
      ∧ (∀ c, Extent_is_inside e c = Ok true → Extent_is_inside e' c = Ok true)
      ∧ (∀ l c, l ∈ lines → c ∈ l → Extent_is_inside e' c = Ok true).
Proof.
  induction lines as [|line lines IH]; intros e Hl He.
  - exists e. split_and!; try done. intros l c Hin. by apply elem_of_nil in Hin.
  - apply Forall_cons in Hl as [[Hne Hpos] Hl].
    destruct (Extent_update_positive e line Hne Hpos He)
      as (lo & hi & E & Hgood & Hline & Hkeep).
    destruct (IH _ Hl Hgood) as (e' & E' & Hgood' & Hb & Hkeep' & Hall).
    exists e'. cbn [Extent_update_lines]. rewrite E. simpl.
    split_and!; try done.
    + intros _. destruct lines as [|l2 lines]; [|by apply Hb].
      simpl in E'. injection E' as <-. eauto.
    + auto.
    + intros l c [->|Hin]%elem_of_cons Hc; [auto | eauto].
Qed.

(** In the positive quadrant [from_lines] covers its input: when every
    polyline has a point and every coordinate is strictly positive, the
    extent it returns, with or without a margin that is not negative,
    contains every point of every polyline. *)
Theorem Extent_from_lines_covers (lines : list PolyLine.t)
    (margin : option Z) :
  lines ≠ [] →
  Forall (λ l, l ≠ [] ∧ Forall positive_point l) lines →
  (∀ m, margin = Some m → 0 ≤ m) →
  ∃ e,
    Extent_from_lines lines margin = Ok e
    ∧ ∀ l c, l ∈ lines → c ∈ l → Extent_is_inside e c = Ok true.
Proof.
  intros Hne Hl Hm.
  destruct (Extent_update_lines_positive lines Extent.empty Hl I)
    as (e' & E & Hgood & Hb & _ & Hall).
  destruct (Hb Hne) as (lo & hi & ->).
  unfold Extent_from_lines. rewrite E. simpl.
  destruct margin as [m|]; [|eauto].
  destruct (Z.eqb_spec m 0); [eauto|].
  unfold positive_extent in Hgood. simpl in Hgood.
  rewrite (Extent_resize_ok lo hi m); try lia.
  2: { by apply Hm. }
  eexists. split; [reflexivity|]. intros l c Hin Hc.
  pose proof (Hall l c Hin Hc) as H%Extent_is_inside_true.
  apply Extent_is_inside_true. simpl. pose proof (Hm m eq_refl). lia.
Qed.

Lemma Extent_from_lines_covers_witness :
  ∃ e,
    Extent_from_lines [[mkPoint 3 4; mkPoint 5 2]; [mkPoint 1 9]] (Some 100)
    = Ok e
    ∧ Extent_is_inside e (mkPoint 5 2) = Ok true.
Proof.
  destruct (Extent_from_lines_covers
              [[mkPoint 3 4; mkPoint 5 2]; [mkPoint 1 9]] (Some 100))
    as (e & E & Hin).
  - discriminate.
  - repeat constructor; try discriminate; simpl; lia.
  - intros m [= <-]. lia.
  - exists e. split; [exact E|].
    apply (Hin [mkPoint 3 4; mkPoint 5 2]); [left | right; left].
Defined.

(** [from_lines] raises on degenerate input: without lines a margin has
    nothing to resize, and a polyline without points stops the loop (the
    polylines before it having points).  The second happens for the output
    of [get_lines] on an activity without points. *)
Theorem Extent_from_lines_errors :
  (∀ m, m ≠ 0 → Extent_from_lines [] (Some m) = Raise AttributeError)
  ∧ (∀ pre post margin,
       Forall (λ l, l ≠ []) pre →
       Extent_from_lines (pre ++ [] :: post) margin = Raise ValueError)
  ∧ (∀ project max_gap margin,
       Extent_from_lines (get_lines project max_gap []) margin
       = Raise ValueError).
Proof.
  assert (Hloop : ∀ pre post e,
            Forall (λ l : PolyLine.t, l ≠ []) pre →
            Extent_update_lines e (pre ++ [] :: post) = Raise ValueError).
  { induction pre as [|l pre IH]; intros post e Hpre; [done|].
    apply Forall_cons in Hpre as [Hl Hpre].
    destruct (Extent_update_nonempty e l Hl) as (lo & hi & E).
    cbn [app Extent_update_lines]. rewrite E. simpl. by apply IH. }
  split_and!.
  - intros m Hm. unfold Extent_from_lines. simpl.
    by destruct (Z.eqb_spec m 0).
  - intros pre post margin Hpre. unfold Extent_from_lines.
    by rewrite Hloop.
  - reflexivity.
Qed.

Lemma Extent_from_lines_errors_witness :
  Extent_from_lines [] (Some 100) = Raise AttributeError
  ∧ Extent_from_lines ([[mkPoint 1 1]] ++ [] :: []) None = Raise ValueError.
Proof.
  split.
  - exact (proj1 Extent_from_lines_errors 100 ltac:(lia)).
  - exact (proj1 (proj2 Extent_from_lines_errors) [[mkPoint 1 1]] [] None
             ltac:(repeat constructor; discriminate)).
Defined.

(** *** Polylines *)

Lemma no_adjacent_dup_snoc (l : list Point) (c : Point) :
  no_adjacent_dup l → last l ≠ Some c → no_adjacent_dup (l ++ [c]).
Proof.
  induction l as [|a l IH]; intros Hl Hlast; [done|].
  destruct l as [|b l].
  - simpl in *. split; [congruence|done].
  - destruct Hl as [Hab Hl]. cbn [app no_adjacent_dup].
    split; [done|]. apply IH; [done|]. by rewrite last_cons_cons in Hlast.
Qed.

Lemma PolyLine_append_no_adjacent_dup (l : PolyLine.t) (c : Point) :
  no_adjacent_dup l → no_adjacent_dup (PolyLine.append l c).
Proof.
  intros Hl. unfold PolyLine.append. destruct (last l) as [c'|] eqn:E.
  - destruct (decide (c' = c)) as [->|Hne]; [done|].
    apply no_adjacent_dup_snoc; [done|]. congruence.
  - apply no_adjacent_dup_snoc; [done|]. congruence.
Qed.

Lemma PolyLine_append_elem (l : PolyLine.t) (c d : Point) :
  d ∈ PolyLine.append l c ↔ d ∈ l ∨ d = c.
Proof.
  unfold PolyLine.append. destruct (last l) as [c'|] eqn:E.
  - destruct (decide (c' = c)) as [->|Hne].
    + split; [by left|]. intros [?| ->]; [done|].
      apply last_Some in E as [l' ->]. apply elem_of_app. right. by left.
    + rewrite elem_of_app, list_elem_of_singleton. done.
  - rewrite elem_of_app, list_elem_of_singleton. done.
Qed.

Lemma PolyLine_append_length (l : PolyLine.t) (c : Point) :
  (length l ≤ length (PolyLine.append l c) ≤ length l + 1)%nat.
Proof.
  unfold PolyLine.append.
  destruct (last l); [destruct (decide _)|]; rewrite ?length_app; simpl; lia.
Qed.

Lemma PolyLine_extend_no_adjacent_dup (coords : list Point) :
  ∀ self : PolyLine.t,
    no_adjacent_dup self → no_adjacent_dup (PolyLine_extend self coords).
Proof.
  induction coords as [|a coords IH]; intros self Hs; [done|].
  cbn [PolyLine_extend foldl].
  fold (PolyLine_extend (PolyLine.append self a) coords).
  by apply IH, PolyLine_append_no_adjacent_dup.
Qed.

Lemma PolyLine_extend_elem (coords : list Point) :
  ∀ (self : PolyLine.t) (c : Point),
    c ∈ PolyLine_extend self coords ↔ c ∈ self ∨ c ∈ coords.
Proof.
  induction coords as [|a coords IH]; intros self c.
  - simpl. split; [by left|]. intros [?|H]; [done|].
    by apply elem_of_nil in H.
  - cbn [PolyLine_extend foldl].
    fold (PolyLine_extend (PolyLine.append self a) coords).
    rewrite IH, PolyLine_append_elem, elem_of_cons. tauto.
Qed.

Lemma PolyLine_extend_length (coords : list Point) :
  ∀ self : PolyLine.t,
    (length self ≤ length (PolyLine_extend self coords)
     ≤ length self + length coords)%nat.
Proof.
  induction coords as [|a coords IH]; intros self; [simpl; lia|].
  cbn [PolyLine_extend foldl].
  fold (PolyLine_extend (PolyLine.append self a) coords).
  pose proof (IH (PolyLine.append self a)).
  pose proof (PolyLine_append_length self a). simpl. lia.
Qed.

(** [extend] keeps a polyline free of equal neighbours, adds exactly the
    given coordinates to its set of points, never shortens it and adds at
    most one entry per coordinate. *)
Theorem PolyLine_extend_dedup (coords : list Point) :
  ∀ self : PolyLine.t,
    no_adjacent_dup self →
    no_adjacent_dup (PolyLine_extend self coords)
    ∧ (∀ c, c ∈ PolyLine_extend self coords ↔ c ∈ self ∨ c ∈ coords)
    ∧ (length self ≤ length (PolyLine_extend self coords)
       ≤ length self + length coords)%nat.
Proof.
  induction coords as [|a coords IH]; intros self Hs.
  - simpl. split_and!; try done; try lia. intros c. split; [by left|].
    intros [?|H]; [done|]. by apply elem_of_nil in H.
  - cbn [PolyLine_extend foldl]. fold (PolyLine_extend (PolyLine.append self a) coords).
    destruct (IH _ (PolyLine_append_no_adjacent_dup self a Hs))
      as (H1 & H2 & H3).
    pose proof (PolyLine_append_length self a). split_and!; try done.
    + intros c. rewrite H2, PolyLine_append_elem, elem_of_cons. tauto.
    + lia.
    + simpl. lia.
Qed.

Lemma PolyLine_extend_dedup_witness :
  no_adjacent_dup
    (PolyLine_extend [] [mkPoint 1 1; mkPoint 1 1; mkPoint 2 1; mkPoint 1 1]).
Proof.
  exact (proj1 (PolyLine_extend_dedup
                  [mkPoint 1 1; mkPoint 1 1; mkPoint 2 1; mkPoint 1 1] [] I)).
Defined.

(** *** The polylines of get_lines *)

Section get_lines_more.

Variable project : LatLon → Coord.
Variable max_gap : R.

Local Abbreviation segments_from := (get_lines_from project max_gap).
Local Abbreviation px := (project_point project).

Lemma PolyLine_append_nonempty (l : PolyLine.t) (c : Point) :
  PolyLine.append l c ≠ [].
Proof.
  intros E. pose proof (PolyLine_last_append l c) as H. by rewrite E in H.
Qed.

Lemma get_lines_from_shape (activity : list LatLon) :
  ∀ line prev,
    (activity = [] → line ≠ []) → no_adjacent_dup line →
    Forall (λ l, l ≠ [] ∧ no_adjacent_dup l) (segments_from line prev activity).
Proof.
  induction activity as [|p activity IH]; intros line prev Hne Hnd.
  - repeat constructor; auto.
  - cbn [get_lines_from]. destruct (is_gap _ _).
    + apply Forall_app. split.
      * destruct line; simpl; repeat constructor; done.
      * apply IH; [intros _; apply PolyLine_append_nonempty|].
        by apply PolyLine_append_no_adjacent_dup.
    + apply IH; [intros _; apply PolyLine_append_nonempty|].
      by apply PolyLine_append_no_adjacent_dup.
Qed.

(** The polylines of an activity: without points there is exactly one
    polyline, and it is empty; with points every polyline is non-empty and
    has no two equal neighbours. *)
Theorem get_lines_shape (activity : list LatLon) :
  get_lines project max_gap [] = [[]]
  ∧ (activity ≠ [] →
     Forall (λ l, l ≠ [] ∧ no_adjacent_dup l)
            (get_lines project max_gap activity)).
Proof.
  split; [done|]. intros Hne. by apply get_lines_from_shape.
Qed.

Lemma get_lines_from_length (activity : list LatLon) :
  ∀ line prev,
    loop_state project line prev →
    length (segments_from line prev activity)
    = S (gaps_after max_gap prev activity).
Proof.
  induction activity as [|p activity IH]; intros line prev Hst; [done|].
  cbn [get_lines_from gaps_after]. destruct (is_gap _ _) eqn:Hgap.
  - destruct (is_gap_Some _ _ _ Hgap) as [q ->]. simpl in Hst.
    rewrite (PolyLine_nonempty_last _ _ Hst), length_app.
    rewrite IH by apply PolyLine_last_append. simpl. lia.
  - rewrite IH by apply PolyLine_last_append. simpl. lia.
Qed.

(** The number of polylines is one more than the number of gaps: every
    gap closes a polyline, and nothing else does. *)
Theorem get_lines_count (activity : list LatLon) :
  length (get_lines project max_gap activity)
  = S (gaps_after max_gap None activity).
Proof. by apply get_lines_from_length. Qed.

Lemma get_lines_from_elem (activity : list LatLon) :
  ∀ line prev c,
    (∃ l, l ∈ segments_from line prev activity ∧ c ∈ l)
    ↔ c ∈ line ∨ ∃ p, p ∈ activity ∧ c = px p.
Proof.
  induction activity as [|p activity IH]; intros line prev c.
  - simpl. split.
    + intros (l & ->%list_elem_of_singleton & Hc). by left.
    + intros [Hc|(q & Hq & _)]; [|by apply elem_of_nil in Hq].
      exists line. split; [by left|done].
  - cbn [get_lines_from]. destruct (is_gap _ _).
    + split.
      * intros (l & [Hl|Hl]%elem_of_app & Hc).
        -- destruct line as [|a line]; [by apply elem_of_nil in Hl|].
           simpl in Hl. apply list_elem_of_singleton in Hl as ->. by left.
        -- destruct (proj1 (IH _ _ c) (ex_intro _ l (conj Hl Hc)))
             as [H|(q & Hq & ->)].
           ++ apply PolyLine_append_elem in H as [H| ->];
                [by apply elem_of_nil in H|].
              right. exists p. split; [by left|done].
           ++ right. exists q. split; [by right|done].
      * intros [Hc|(q & Hq & ->)].
        -- exists line. split; [|done]. apply elem_of_app. left.
           destruct line; [by apply elem_of_nil in Hc|]. by left.
        -- assert (H : px q ∈ PolyLine.append PolyLine.empty (px p)
                       ∨ ∃ p', p' ∈ activity ∧ px q = px p').
           { apply elem_of_cons in Hq as [->|Hq]; [left|right; eauto].
             apply PolyLine_append_elem. by right. }
           apply (IH _ (Some p)) in H as (l & Hl & Hc).
           exists l. split; [|done]. apply elem_of_app. by right.
    + rewrite IH, PolyLine_append_elem. split.
      * intros [[?| ->]|(q & Hq & ->)]; [by left| |].
        -- right. exists p. split; [by left|done].
        -- right. exists q. split; [by right|done].
      * intros [?|(q & [->|Hq]%elem_of_cons & ->)]; [by do 2 left| |].
        -- left. by right.
        -- right. eauto.
Qed.

(** No pixel is lost or invented: a pixel occurs in some polyline exactly
    when it is the pixel of some point of the activity. *)
Theorem get_lines_pixels (activity : list LatLon) (c : Point) :
  (∃ l, l ∈ get_lines project max_gap activity ∧ c ∈ l)
  ↔ ∃ p, p ∈ activity ∧ c = px p.
Proof.
  unfold get_lines. rewrite get_lines_from_elem. split; [|by right].
  intros [H|H]; [by apply elem_of_nil in H | done].
Qed.

End get_lines_more.

Lemma get_lines_shape_witness :
  Forall (λ l, l ≠ [] ∧ no_adjacent_dup l)
         (get_lines (Equirectangular_project 1) 700
                    [mkLatLon 10 10; mkLatLon 0 0]).
Proof.
  exact (proj2 (get_lines_shape (Equirectangular_project 1) 700
                  [mkLatLon 10 10; mkLatLon 0 0]) ltac:(discriminate)).
Defined.

(** *** Distances *)

Lemma hypot_le_hypot (a b b' : R) :
  (b * b <= b' * b')%R → (hypot a b <= hypot a b')%R.
Proof. intros H. unfold hypot. apply sqrt_le_1_alt. lra. Qed.

Lemma hypot_abs_l (a b : R) : (Rabs a <= hypot a b)%R.
Proof.
  unfold hypot. rewrite <- sqrt_Rsqr_abs. apply sqrt_le_1_alt.
  unfold Rsqr. nra.
Qed.

Lemma METERS_PER_DEGREE_pos : (0 < METERS_PER_DEGREE)%R.
Proof. pose proof METERS_PER_DEGREE_lower. lra. Qed.

Lemma LatLon_distance_nonneg (a b : LatLon) :
  ∃ d, LatLon_distance a (Some b) = Some d ∧ (0 <= d)%R.
Proof.
  pose proof METERS_PER_DEGREE_pos as Hm.
  eexists. split; [reflexivity|].
  pose proof (hypot_nonneg (lat a - lat b)
                ((lon a - lon b) * cos (radians (lat a)))). nra.
Qed.

(** [LatLon.distance] is never negative; it is at least the difference of
    the latitudes and at most the plain Euclidean distance in degrees,
    both in meters; it is symmetric between points of equal latitude.  It
    is not symmetric in general, because the longitudes are scaled with the
    latitude of [self] alone. *)
Theorem LatLon_distance_bounds (a b : LatLon) :
  ∃ d,
    LatLon_distance a (Some b) = Some d
    ∧ (0 <= d)%R
    ∧ (Rabs (lat a - lat b) * METERS_PER_DEGREE <= d)%R
    ∧ (d <= hypot (lat a - lat b) (lon a - lon b) * METERS_PER_DEGREE)%R
    ∧ (lat a = lat b → LatLon_distance b (Some a) = Some d).
Proof.
  pose proof METERS_PER_DEGREE_pos as Hm.
  eexists. split; [reflexivity|]. split_and!.
  - pose proof (hypot_nonneg (lat a - lat b)
                  ((lon a - lon b) * cos (radians (lat a)))). nra.
  - apply Rmult_le_compat_r; [lra|]. apply hypot_abs_l.
  - apply Rmult_le_compat_r; [lra|]. apply hypot_le_hypot.
    pose proof (COS_bound (radians (lat a))) as [H1 H2].
    set (u := (lon a - lon b)%R). set (c := cos (radians (lat a))) in *.
    assert (Hc : (c * c <= 1)%R) by nra.
    pose proof (Rle_0_sqr u) as Hu. unfold Rsqr in Hu.
    replace (u * c * (u * c))%R with (u * u * (c * c))%R by ring.
    rewrite <- (Rmult_1_r (u * u)) at 2. by apply Rmult_le_compat_l.
  - intros E. unfold LatLon_distance. rewrite E. f_equal. f_equal.
    unfold hypot. f_equal. nra.
Qed.

Lemma radians_90 : radians 90 = (PI / 2)%R.
Proof. unfold radians. lra. Qed.

Lemma radians_0 : radians 0 = 0%R.
Proof. unfold radians. lra. Qed.

(** From the equator to the pole and back: the two directions differ. *)
Lemma LatLon_distance_asymmetric :
  LatLon_distance (mkLatLon 0 0) (Some (mkLatLon 90 10))
  ≠ LatLon_distance (mkLatLon 90 10) (Some (mkLatLon 0 0)).
Proof.
  unfold LatLon_distance. simpl. rewrite radians_0, radians_90, cos_0, cos_PI2.
  intros [= E]. pose proof METERS_PER_DEGREE_pos as Hm.
  apply Rmult_eq_reg_r in E; [|lra].
  unfold hypot in E. apply (f_equal (λ r, r * r)%R) in E.
  rewrite !sqrt_sqrt in E by nra. lra.
Qed.

(** *** Projections *)

Lemma EARTH_RADIUS_pos (kind : ProjectionKind) : (0 < EARTH_RADIUS kind)%R.
Proof. destruct kind; unfold EARTH_RADIUS, AVG_EARTH_RADIUS; lra. Qed.

Lemma Projection_init_ok (kind : ProjectionKind) (scale : R) :
  scale ≠ 0%R →
  Projection_init kind scale
  = Ok (mkProjection kind
          (2 * PI * EARTH_RADIUS kind / 360)
          (degrees (2 * PI * EARTH_RADIUS kind / 360))
          (2 * PI * EARTH_RADIUS kind / 360 / scale)
          (degrees (2 * PI * EARTH_RADIUS kind / 360 / scale))).
Proof.
  intros Hs. unfold Projection_init, set_meters_per_pixel, py_div. simpl.
  by rewrite decide_False.
Qed.

Lemma mercator_angle (l : R) :
  (-90 < l < 90)%R → (0 < PI / 4 + radians (l / 2) < PI / 2)%R.
Proof. intros Hl. pose proof PI_RGT_0. unfold radians. split; nra. Qed.

(** Web Mercator: every latitude strictly between the poles is projected,
    with the longitude times the pixels per degree as x; at the south pole
    the tangent is 0 and its logarithm raises. *)
Theorem WebMercator_project (scale : R) (a : LatLon) :
  scale ≠ 0%R → (-90 < lat a < 90)%R →
  ∃ p ca,
    Projection_init WebMercatorProjection scale = Ok p
    ∧ Projection_project p a = Ok ca
    ∧ cx ca = (lon a * pixels_per_degree p)%R
    ∧ ∀ l, Projection_project p (mkLatLon (-90) l) = Raise ValueError.
Proof.
  intros Hs Ha. pose proof PI_RGT_0 as Hpi.
  pose proof (mercator_angle _ Ha) as Aa.
  pose proof (tan_gt_0 _ (proj1 Aa) (proj2 Aa)) as Ta.
  eexists _, _. split; [by apply Projection_init_ok|].
  unfold Projection_project, py_log. simpl.
  destruct (Rlt_dec 0 (tan (PI / 4 + radians (lat a / 2)))); [|done].
  simpl. split_and!; try reflexivity.
  intros l. unfold radians.
  replace (PI / 4 + -90 / 2 * PI / 180)%R with 0%R by lra.
  rewrite tan_0. by destruct (Rlt_dec 0 0); [lra|].
Qed.

Lemma WebMercator_project_witness :
  ∃ p ca,
    Projection_init WebMercatorProjection 30 = Ok p
    ∧ Projection_project p (mkLatLon 50 20) = Ok ca
    ∧ cx ca = (20 * pixels_per_degree p)%R.
Proof.
  destruct (WebMercator_project 30 (mkLatLon 50 20))
    as (p & ca & Hp & Ha & Hx & _); [simpl; lra..|].
  by exists p, ca.
Defined.

(** *** The length of an activity *)

Lemma Activity_distance_from_ge (latlons : list LatLon) :
  ∀ acc prev, (acc <= Activity_distance_from acc prev latlons)%R.
Proof.
  induction latlons as [|p latlons IH]; intros acc prev; simpl; [lra|].
  destruct prev as [q|]; simpl; [|apply IH].
  destruct (LatLon_distance_nonneg p q) as (d & E & Hd).
  injection E as E. etransitivity; [|apply IH]. lra.
Qed.

(** [Activity.distance] is never negative; [avg_distance] raises on an
    activity without points (the division by its length) and otherwise
    returns the distance over the number of points, which is not
    negative. *)
Theorem Activity_avg_distance_defined (latlons : list LatLon) :
  (0 <= Activity_distance latlons)%R
  ∧ Activity_avg_distance [] = Raise ZeroDivisionError
  ∧ (latlons ≠ [] →
     Activity_avg_distance latlons
     = Ok (Activity_distance latlons / INR (length latlons))%R
     ∧ (0 <= Activity_distance latlons / INR (length latlons))%R).
Proof.
  assert (H0 : (0 <= Activity_distance latlons)%R)
    by apply Activity_distance_from_ge.
  split_and!; [done| |].
  - unfold Activity_avg_distance, py_div. simpl. by rewrite decide_True.
  - intros Hne.
    assert (Hn : (0 < INR (length latlons))%R).
    { apply lt_0_INR. destruct latlons; [done|simpl; lia]. }
    split.
    + unfold Activity_avg_distance, py_div. rewrite decide_False; [done|lra].
    + apply Rmult_le_pos; [done|]. apply Rlt_le. by apply Rinv_0_lt_compat.
Qed.

Lemma Activity_avg_distance_defined_witness :
  Activity_avg_distance [mkLatLon 0 0; mkLatLon 10 10]
  = Ok (Activity_distance [mkLatLon 0 0; mkLatLon 10 10]
        / INR (length [mkLatLon 0 0; mkLatLon 10 10]))%R.
Proof.
  exact (proj1 (proj2 (proj2 (Activity_avg_distance_defined
                                [mkLatLon 0 0; mkLatLon 10 10]))
                      ltac:(discriminate))).
Defined.

Lemma Activity_distance_from_no_gap (max_gap : R) (latlons : list LatLon) :
  (0 <= max_gap)%R →
  ∀ acc prev,
    gaps_after max_gap prev latlons = 0%nat →
    (Activity_distance_from acc prev latlons
     <= acc + INR (length latlons) * max_gap)%R.
Proof.
  intros Hg. induction latlons as [|p latlons IH]; intros acc prev Hgaps.
  - simpl. lra.
  - cbn [gaps_after] in Hgaps. cbn [Activity_distance_from length].
    rewrite S_INR.
    destruct (is_gap max_gap (LatLon_distance p prev)) eqn:E; [simpl in Hgaps; lia|].
    specialize (IH (match LatLon_distance p prev with
                    | Some d => acc + d | None => acc end)%R
                   (Some p) ltac:(simpl in Hgaps; lia)).
    destruct (LatLon_distance p prev) as [d|]; [|nra].
    unfold is_gap in E. destruct (decide (d = 0%R)) as [->|]; [nra|].
    destruct (Rgt_dec d max_gap); [done|]. nra.
Qed.

(** An activity that [get_lines] leaves in one polyline (for a threshold
    that is not negative) is short: its distance is at most the threshold
    times the number of its steps. *)
Theorem Activity_distance_single_polyline (project : LatLon → Coord)
    (max_gap : R) (p : LatLon) (latlons : list LatLon) :
  (0 <= max_gap)%R →
  length (get_lines project max_gap (p :: latlons)) = 1%nat →
  (Activity_distance (p :: latlons) <= INR (length latlons) * max_gap)%R.
Proof.
  intros Hg Hlen. rewrite get_lines_count in Hlen.
  cbn [gaps_after LatLon_distance is_gap] in Hlen.
  unfold Activity_distance. cbn [Activity_distance_from LatLon_distance].
  pose proof (Activity_distance_from_no_gap max_gap latlons Hg 0 (Some p)
                ltac:(simpl in Hlen; lia)). lra.
Qed.

Lemma Activity_distance_single_polyline_witness :
  (Activity_distance [mkLatLon 0 0; mkLatLon 0 0] <= INR 1 * 700)%R.
Proof.
  apply (Activity_distance_single_polyline (Equirectangular_project 1) 700
           (mkLatLon 0 0) [mkLatLon 0 0]); [lra|].
  rewrite get_lines_count. cbn [gaps_after].
  rewrite LatLon_distance_self. cbn [LatLon_distance is_gap].
  by rewrite decide_True.
Defined.

(** ** Further properties of heatmap.py *)

(** *** cluster_points *)

Lemma scaled_cluster_points_every (c : Clusterer) (line : list Point) :
  ∀ prev, scaled_cluster_points c false prev line = cluster_point c <$> line.
Proof.
  induction line as [|p line IH]; intros prev; [done|].
  cbn [scaled_cluster_points]. by rewrite IH.
Qed.

Lemma scaled_cluster_points_extend (c : Clusterer) (line : list Point) :
  ∀ acc : PolyLine.t,
    PolyLine_extend acc (cluster_point c <$> line)
    = acc ++ scaled_cluster_points c true (last acc) line.
Proof.
  induction line as [|p line IH]; intros acc.
  - simpl. by rewrite app_nil_r.
  - rewrite fmap_cons. cbn [PolyLine_extend foldl scaled_cluster_points].
    fold (PolyLine_extend (PolyLine.append acc (cluster_point c p))
                          (cluster_point c <$> line)).
    rewrite IH, PolyLine_last_append. unfold PolyLine.append.
    destruct (last acc) as [q|] eqn:E.
    + destruct (decide (q = cluster_point c p)) as [->|Hne].
      * by rewrite decide_True.
      * rewrite decide_False by congruence. by rewrite <- (assoc_L (++)).
    + rewrite decide_False by done. by rewrite <- (assoc_L (++)).
Qed.

(** What [cluster_points] yields: the line itself for the base class and
    the kernel clusterers; the cell of every point for the count-every
    scaled clusterer, one entry per point; and for the count-once scaled
    clusterer the same cells with runs of equal cells collapsed, as
    [PolyLine.extend] would collapse them, so without equal neighbours. *)
Theorem cluster_points_variants (line : list Point) :
  cluster_points Identity line = line
  ∧ (∀ k, cluster_points (Kernel k) line = line)
  ∧ (∀ s, cluster_points (Scaled s false) line
          = cluster_point (Scaled s false) <$> line)
  ∧ (∀ s, cluster_points (Scaled s true) line
          = PolyLine_extend [] (cluster_point (Scaled s true) <$> line)
          ∧ no_adjacent_dup (cluster_points (Scaled s true) line)
          ∧ (length (cluster_points (Scaled s true) line) ≤ length line)%nat
          ∧ ∀ cell, cell ∈ cluster_points (Scaled s true) line
                    ↔ cell ∈ cluster_points (Scaled s false) line).
Proof.
  split_and!; try done.
  - intros s. apply scaled_cluster_points_every.
  - intros s.
    assert (E : cluster_points (Scaled s true) line
                = PolyLine_extend [] (cluster_point (Scaled s true) <$> line)).
    { by rewrite scaled_cluster_points_extend. }
    pose proof (PolyLine_extend_length
                  (cluster_point (Scaled s true) <$> line) []) as H3.
    rewrite E. split_and!; try done.
    + by apply PolyLine_extend_no_adjacent_dup.
    + rewrite length_fmap in H3. simpl in H3. lia.
    + intros cell. rewrite PolyLine_extend_elem.
      cbn [cluster_points]. rewrite scaled_cluster_points_every.
      split; [intros [H|H]; [by apply elem_of_nil in H|done] | by right].
Qed.

Lemma cluster_points_covers (c : Clusterer) (line : list Point) (p : Point) :
  p ∈ line → cluster_point c p ∈ cluster_points c line.
Proof.
  intros Hp. destruct c as [|s [|]|k]; try done.
  - cbn [cluster_points].
    pose proof (scaled_cluster_points_extend (Scaled s true) line []) as E.
    simpl in E. rewrite <- E. apply PolyLine_extend_elem. right.
    apply list_elem_of_fmap. eauto.
  - cbn [cluster_points]. rewrite scaled_cluster_points_every.
    apply list_elem_of_fmap. eauto.
Qed.

(** *** update and get *)

(** [update] adds to every cell the number of times [cluster_points] yields
    it, and nothing else: no count goes down, no cell disappears. *)
Theorem Heatmap_update_counts (σ : store) (h : ref) (o : Heatmap)
    (line : list Point) :
  σ !! h = Some o →
  ∃ σ' o',
    Heatmap_update h line σ = (Ok tt, σ')
    ∧ σ' !! h = Some o'
    ∧ clusterer o' = clusterer o
    ∧ (∀ cell,
         default 0%R (points o' !! cell)
         = (default 0 (points o !! cell)
            + INR (occurrences cell (cluster_points (clusterer o) line)))%R)
    ∧ (∀ cell, is_Some (points o !! cell) → is_Some (points o' !! cell))
    ∧ (∀ h' o2, h' ≠ h → σ !! h' = Some o2 → σ' !! h' = Some o2).
Proof.
  intros Hh. eexists _, _. split; [by apply Heatmap_update_run|].
  assert (Hlt : (h < length σ)%nat) by by eapply lookup_lt_Some.
  split_and!.
  - by apply list_lookup_insert_eq.
  - done.
  - intros cell. apply count_points_lookup.
  - intros cell. cbn [points].
    generalize (cluster_points (clusterer o) line) (points o).
    intros l. induction l as [|p l IH]; intros pts Hs; [done|].
    cbn [count_points foldl]. apply IH. unfold incr.
    destruct (decide (p = cell)) as [->|Hne].
    + rewrite lookup_insert_eq. eauto.
    + by rewrite lookup_insert_ne.
  - intros h' o2 Hne Hh'. by rewrite list_lookup_insert_ne.
Qed.

Lemma Heatmap_update_counts_witness :
  ∃ σ' o',
    Heatmap_update 0 [mkPoint 1 1; mkPoint 1 1; mkPoint 2 1]
      [mkHeatmap Identity ∅]
    = (Ok tt, σ')
    ∧ σ' !! 0%nat = Some o'
    ∧ default 0%R (points o' !! mkPoint 1 1)
      = (default 0 ((∅ : gmap Point R) !! mkPoint 1 1)
         + INR (occurrences (mkPoint 1 1)
                  (cluster_points Identity
                     [mkPoint 1 1; mkPoint 1 1; mkPoint 2 1])))%R.
Proof.
  destruct (Heatmap_update_counts [mkHeatmap Identity ∅] 0%nat
              (mkHeatmap Identity ∅)
              [mkPoint 1 1; mkPoint 1 1; mkPoint 2 1] eq_refl)
    as (σ' & o' & Hrun & Hh & _ & Hc & _).
  exists σ', o'. split_and!; [done..|]. apply Hc.
Defined.

Lemma Heatmap_get_run (h : ref) (o : Heatmap) (p : Point) (σ : store) :
  σ !! h = Some o →
  Heatmap_get h p σ
  = (Ok (default 0%R (points o !! cluster_point (clusterer o) p)), σ).
Proof.
  intros H. unfold Heatmap_get. by rewrite bind_run, (deref_run h o).
Qed.

(** Reading back what was written: after [update] with a line, [get] of
    any point of that line is at least 1 more than before, for every
    clusterer ([get] looks up the cell that [update] counted). *)
Theorem Heatmap_get_after_update (σ : store) (h : ref) (o : Heatmap)
    (line : list Point) (p : Point) :
  σ !! h = Some o → p ∈ line →
  ∃ σ' before after,
    Heatmap_get h p σ = (Ok before, σ)
    ∧ Heatmap_update h line σ = (Ok tt, σ')
    ∧ Heatmap_get h p σ' = (Ok after, σ')
    ∧ (before + 1 <= after)%R.
Proof.
  intros Hh Hp.
  assert (Hlt : (h < length σ)%nat) by by eapply lookup_lt_Some.
  eexists _, _, _. split_and!.
  - by apply Heatmap_get_run.
  - by apply Heatmap_update_run.
  - apply Heatmap_get_run. by apply list_lookup_insert_eq.
  - cbn [clusterer points]. rewrite count_points_lookup.
    pose proof (occurrences_pos _ _ (cluster_points_covers (clusterer o) line p Hp))
      as Hn.
    apply le_INR in Hn. simpl in Hn. lra.
Qed.

Lemma Heatmap_get_after_update_witness :
  ∃ σ' before after,
    Heatmap_get 0 (mkPoint 2 1) [mkHeatmap Identity ∅]
    = (Ok before, [mkHeatmap Identity ∅])
    ∧ Heatmap_update 0 [mkPoint 1 1; mkPoint 2 1] [mkHeatmap Identity ∅]
      = (Ok tt, σ')
    ∧ Heatmap_get 0 (mkPoint 2 1) σ' = (Ok after, σ')
    ∧ (before + 1 <= after)%R.
Proof.
  apply (Heatmap_get_after_update [mkHeatmap Identity ∅] 0%nat
           (mkHeatmap Identity ∅) [mkPoint 1 1; mkPoint 2 1] (mkPoint 2 1)
           eq_refl).
  right. left.
Defined.

(** *** The weights matrix *)

Lemma weights_matrix_elem (k : KernelClusterer) (dx dy : Z) (w : R) :
  ((dx, dy), w) ∈ weights_matrix k
  ↔ (- radius k ≤ dx ≤ radius k) ∧ (- radius k ≤ dy ≤ radius k)
    ∧ w = get_weight k (hypot (IZR dx) (IZR dy)) ∧ w ≠ 0%R.
Proof.
  unfold weights_matrix, range. rewrite list_elem_of_bind. split.
  - intros (a & (b & Hw & Hb)%list_elem_of_bind & Ha).
    apply elem_of_seqZ in Ha, Hb.
    destruct (decide _) as [|Hne]; [by apply elem_of_nil in Hw|].
    apply list_elem_of_singleton in Hw. injection Hw as -> -> ->.
    split_and!; try done; lia.
  - intros (Hx & Hy & -> & Hne). exists dx. split.
    + apply list_elem_of_bind. exists dy. split.
      * rewrite decide_False by done. by left.
      * apply elem_of_seqZ. lia.
    + apply elem_of_seqZ. lia.
Qed.

Lemma hypot_neg (a b : R) : hypot (- a) (- b) = hypot a b.
Proof. unfold hypot. f_equal. ring. Qed.

Lemma hypot_swap (a b : R) : hypot b a = hypot a b.
Proof. unfold hypot. f_equal. ring. Qed.

Lemma get_weight_nonzero_inside (k : KernelClusterer) (d : R) :
  get_weight k d ≠ 0%R → (d < IZR (radius k))%R.
Proof.
  destruct k as [r|r sc]; simpl;
    (destruct (Rge_dec d (IZR r)); [done|lra]).
Qed.

Lemma NoDup_bind_pairs {A : Type} (l1 l2 : list Z) (g : Z → Z → list (Z * Z * A)) :
  NoDup l1 → NoDup l2 →
  (∀ a b e, e ∈ g a b → e.1 = (a, b)) →
  (∀ a b, (length (g a b) ≤ 1)%nat) →
  NoDup ((l1 ≫= λ a, l2 ≫= λ b, g a b).*1).
Proof.
  intros H1 H2 Hg Hlen.
  assert (Hinner : ∀ a l, NoDup l → NoDup ((l ≫= λ b, g a b).*1)).
  { intros a l Hl. induction Hl as [|b l Hb Hl IH]; [constructor|].
    rewrite bind_cons, fmap_app. apply NoDup_app. split_and!; [|  |done].
    - destruct (g a b) as [|e [|e' t]] eqn:E; try by repeat constructor.
      + apply NoDup_singleton.
      + specialize (Hlen a b). rewrite E in Hlen. simpl in Hlen. lia.
    - intros key (e & -> & He)%list_elem_of_fmap
        (e' & E' & (b' & He' & Hb')%list_elem_of_bind)%list_elem_of_fmap.
      rewrite (Hg _ _ _ He) in E'. rewrite (Hg _ _ _ He') in E'.
      injection E' as <-. done. }
  induction H1 as [|a l Ha Hl IH]; [constructor|].
  rewrite bind_cons, fmap_app. apply NoDup_app. split_and!; [by apply Hinner| |done].
  intros key (e & -> & (b & He & Hb)%list_elem_of_bind)%list_elem_of_fmap
    (e' & E' & (a' & (b' & He' & Hb')%list_elem_of_bind & Ha')%list_elem_of_bind)
      %list_elem_of_fmap.
  rewrite (Hg _ _ _ He) in E'. rewrite (Hg _ _ _ He') in E'.
  injection E' as <- <-. done.
Qed.

(** The weights matrix of a kernel clusterer: its offsets are pairwise
    different (it is a dictionary), every offset lies strictly within the
    radius and carries the weight of its distance, which is not 0; and the
    matrix is symmetric under reflection through the origin and under
    exchange of the axes. *)
Theorem weights_matrix_symmetric (k : KernelClusterer) :
  NoDup (weights_matrix k).*1
  ∧ ∀ dx dy w,
      ((dx, dy), w) ∈ weights_matrix k →
      (hypot (IZR dx) (IZR dy) < IZR (radius k))%R
      ∧ w = get_weight k (hypot (IZR dx) (IZR dy))
      ∧ w ≠ 0%R
      ∧ ((- dx, - dy), w) ∈ weights_matrix k
      ∧ ((dy, dx), w) ∈ weights_matrix k.
Proof.
  split.
  - unfold weights_matrix. apply NoDup_bind_pairs; try apply NoDup_seqZ.
    + intros a b e He. destruct (decide _); [by apply elem_of_nil in He|].
      by apply list_elem_of_singleton in He as ->.
    + intros a b. destruct (decide _); simpl; lia.
  - intros dx dy w (Hx & Hy & Hw & Hne)%weights_matrix_elem.
    split_and!; try done.
    + apply get_weight_nonzero_inside. by rewrite <- Hw.
    + apply weights_matrix_elem. rewrite !opp_IZR, hypot_neg.
      split_and!; try done; lia.
    + apply weights_matrix_elem. rewrite hypot_swap.
      split_and!; try done; lia.
Qed.

Lemma weights_matrix_symmetric_witness :
  ((- 0, - 0), 1%R) ∈ weights_matrix (LinearKernel 3).
Proof.
  exact (proj1 (proj2 (proj2 (proj2
           (proj2 (weights_matrix_symmetric (LinearKernel 3)) 0 0 1%R
              (weights_matrix_origin (LinearKernel 3) ltac:(simpl; lia))))))).
Defined.

Lemma Rpower_e (y : R) : Rpower (exp 1) y = exp y.
Proof. unfold Rpower. by rewrite ln_exp, Rmult_1_r. Qed.

(** The weights of the two kernels, for a radius of at least 1 and a
    distance that is not negative: 0 from the radius on; below the radius
    the linear weight lies in (0, 1] and the Gaussian weight, with the scale
    that the constructor computes, lies in (1/256, 1]; both are 1 at
    distance 0 and fall as the distance grows. *)
Theorem kernel_weight_range (r : Z) (d d' : R) :
  1 ≤ r → (0 <= d)%R →
  ∃ g,
    GaussianKernelClusterer r = Ok (Kernel g)
    ∧ ((IZR r <= d)%R →
         get_weight (LinearKernel r) d = 0%R ∧ get_weight g d = 0%R)
    ∧ ((d < IZR r)%R →
         (0 < get_weight (LinearKernel r) d <= 1)%R
         ∧ (/ 256 < get_weight g d <= 1)%R)
    ∧ ((d < d' < IZR r)%R →
         (get_weight (LinearKernel r) d' < get_weight (LinearKernel r) d)%R
         ∧ (get_weight g d' < get_weight g d)%R).
Proof.
  intros Hr Hd. assert (Hr' : (1 <= IZR r)%R) by by apply IZR_le.
  assert (Hln : (0 < ln 256)%R).
  { rewrite <- ln_1. apply ln_increasing; lra. }
  assert (Hinv : (0 < / IZR r)%R) by (apply Rinv_0_lt_compat; lra).
  assert (Hsc : (0 < ln 256 / IZR r)%R) by by apply Rmult_lt_0_compat.
  unfold GaussianKernelClusterer. rewrite decide_False by lia.
  eexists. split; [reflexivity|]. simpl. split_and!.
  - intros Hge. destruct (Rge_dec d (IZR r)); [done|lra].
  - intros Hlt. destruct (Rge_dec d (IZR r)) as [|_]; [lra|].
    assert (Hq : (0 <= d / IZR r < 1)%R).
    { split; [by apply Rmult_le_pos; lra|].
      apply Rmult_lt_reg_r with (IZR r); [lra|].
      unfold Rdiv. rewrite Rmult_assoc, Rinv_l by lra. lra. }
    split; [lra|]. rewrite Rpower_e. split.
    + rewrite <- (exp_ln 256) at 1 by lra. rewrite <- exp_Ropp.
      apply exp_increasing.
      replace (- d * (ln 256 / IZR r))%R with (- (ln 256 * (d / IZR r)))%R
        by (unfold Rdiv; ring).
      apply Ropp_lt_contravar. nra.
    + rewrite <- exp_0. destruct (Req_dec_T d 0) as [->|Hnz].
      * right. f_equal. lra.
      * left. apply exp_increasing. nra.
  - intros [Hlt Hlt'].
    destruct (Rge_dec d (IZR r)) as [|_]; [lra|].
    destruct (Rge_dec d' (IZR r)) as [|_]; [lra|]. split.
    + assert (d * / IZR r < d' * / IZR r)%R
        by by apply Rmult_lt_compat_r.
      unfold Rdiv. lra.
    + rewrite !Rpower_e. apply exp_increasing. nra.
Qed.

Lemma kernel_weight_range_witness :
  ∃ g,
    GaussianKernelClusterer 5 = Ok (Kernel g)
    ∧ (0 < get_weight (LinearKernel 5) 2 <= 1)%R
    ∧ (/ 256 < get_weight g 2 <= 1)%R.
Proof.
  destruct (kernel_weight_range 5 2 3 ltac:(lia) ltac:(lra))
    as (g & Hg & _ & Hin & _).
  exists g. split; [exact Hg|]. apply Hin. lra.
Defined.

(** *** cluster_heatmap and its result *)

(** What [cluster_heatmap] returns.  The base class and the scaled
    clusterer return the very heatmap they are given, store untouched, so
    the result is another name of the source.  A kernel clusterer returns a
    new heatmap with exactly the cells of the source (no cell is added, none
    is dropped) and leaves the source as it was; with a radius of at least 1
    and counts that are not negative, no cell gets less than its count. *)
Theorem cluster_heatmap_cells (c : Clusterer) (σ : store) (h : ref)
    (o : Heatmap) :
  σ !! h = Some o →
  match c with
  | Identity | Scaled _ _ => cluster_heatmap c h σ = (Ok h, σ)
  | Kernel k =>
      ∃ co,
        cluster_heatmap c h σ = (Ok (length σ), σ ++ [co])
        ∧ (σ ++ [co]) !! h = Some o
        ∧ (σ ++ [co]) !! length σ = Some co
        ∧ clusterer co = c
        ∧ (∀ cell, is_Some (points co !! cell) ↔ is_Some (points o !! cell))
        ∧ (1 ≤ radius k →
           (∀ cell v, points o !! cell = Some v → (0 <= v)%R) →
           ∀ cell v, points o !! cell = Some v →
             ∃ cv, points co !! cell = Some cv ∧ (v <= cv)%R)
  end.
Proof.
  intros Hh. rewrite (cluster_heatmap_run c h o) by done.
  destruct c as [| |k]; try done.
  eexists. split; [reflexivity|]. split_and!.
  - by apply lookup_app_l_Some.
  - apply lookup_snoc_new.
  - done.
  - intros cell. cbn [points clustered_points]. rewrite map_lookup_imap.
    destruct (points o !! cell); simpl; split; intros [? ?]; eauto; done.
  - intros Hr Hnn.
    by apply (proj1 (clustered_points_ge (Kernel k) (points o) Hr Hnn)).
Qed.

Lemma cluster_heatmap_cells_witness :
  ∃ co,
    cluster_heatmap (Kernel (LinearKernel 2)) 0
      [mkHeatmap (Kernel (LinearKernel 2)) {[mkPoint 0 0 := 1%R]}]
    = (Ok 1%nat,
       [mkHeatmap (Kernel (LinearKernel 2)) {[mkPoint 0 0 := 1%R]}] ++ [co])
    ∧ (is_Some (points co !! mkPoint 5 5)
       ↔ is_Some (({[mkPoint 0 0 := 1%R]} : gmap Point R) !! mkPoint 5 5)).
Proof.
  destruct (cluster_heatmap_cells (Kernel (LinearKernel 2))
              [mkHeatmap (Kernel (LinearKernel 2)) {[mkPoint 0 0 := 1%R]}]
              0%nat
              (mkHeatmap (Kernel (LinearKernel 2)) {[mkPoint 0 0 := 1%R]})
              eq_refl)
    as (co & Hrun & _ & _ & _ & Hcells & _).
  exists co. split; [exact Hrun|]. apply Hcells.
Defined.

(** *** Scaled cells *)

Lemma Int_part_mono (a b : R) : (a <= b)%R → Int_part a ≤ Int_part b.
Proof.
  intros Hab. destruct (base_Int_part a) as [Ha _].
  destruct (base_Int_part b) as [_ Hb].
  assert (H : (IZR (Int_part a) < IZR (Int_part b + 1))%R).
  { rewrite plus_IZR. lra. }
  apply lt_IZR in H. lia.
Qed.

Lemma Int_part_nonneg (a : R) : (0 <= a)%R → 0 ≤ Int_part a.
Proof.
  intros Ha. destruct (base_Int_part a) as [_ H].
  assert (H' : (IZR (-1) < IZR (Int_part a))%R) by lra.
  apply lt_IZR in H'. lia.
Qed.

Lemma py_round_mono (a b : R) : (a <= b)%R → py_round a ≤ py_round b.
Proof.
  intros Hab. unfold py_round.
  destruct (Rle_dec 0 a) as [Ha|Ha], (Rle_dec 0 b) as [Hb|Hb]; try lra.
  - apply Int_part_mono. lra.
  - pose proof (Int_part_nonneg (- a + / 2) ltac:(lra)).
    pose proof (Int_part_nonneg (b + / 2) ltac:(lra)). lia.
  - pose proof (Int_part_mono (- b + / 2) (- a + / 2) ltac:(lra)). lia.
Qed.

(** [ScaledClusterer] with a positive scale always works with a reduction
    factor in (0, 1].  With such a factor [cluster_point] keeps the order of
    the coordinates and never moves a coordinate away from 0 or across
    it. *)
Theorem scaled_cluster_point_monotone (s : R) (once : bool) (p q : Point) :
  (0 < s)%R →
  ∃ f,
    ScaledClusterer s once = Scaled f once
    ∧ (0 < f <= 1)%R
    ∧ (x p ≤ x q →
       x (cluster_point (Scaled f once) p) ≤ x (cluster_point (Scaled f once) q))
    ∧ (y p ≤ y q →
       y (cluster_point (Scaled f once) p) ≤ y (cluster_point (Scaled f once) q))
    ∧ (0 ≤ x p → 0 ≤ x (cluster_point (Scaled f once) p) ≤ x p)
    ∧ (x p ≤ 0 → x p ≤ x (cluster_point (Scaled f once) p) ≤ 0).
Proof.
  intros Hs. eexists. split; [reflexivity|].
  set (f := if Rgt_dec s 1 then (1 / s)%R else s).
  assert (Hf : (0 < f <= 1)%R).
  { unfold f. destruct (Rgt_dec s 1) as [Hgt|]; [|lra].
    assert (0 < / s)%R by by apply Rinv_0_lt_compat.
    assert (/ s < 1)%R.
    { rewrite <- Rinv_1. apply Rinv_lt_contravar; lra. }
    lra. }
  assert (Hmono : ∀ a b : Z, a ≤ b →
            py_round (IZR a * f) ≤ py_round (IZR b * f)).
  { intros a b Hab. apply py_round_mono. apply IZR_le in Hab. nra. }
  split; [done|]. cbn [cluster_point Point_new x y]. split_and!.
  - apply Hmono.
  - apply Hmono.
  - intros Hp. assert (0 <= IZR (x p))%R by by apply IZR_le.
    pose proof (py_round_mono (IZR 0) (IZR (x p) * f) ltac:(nra)) as H1.
    pose proof (py_round_mono (IZR (x p) * f) (IZR (x p)) ltac:(nra)) as H2.
    rewrite py_round_IZR in H1, H2. lia.
  - intros Hp. assert (IZR (x p) <= 0)%R by by apply IZR_le.
    pose proof (py_round_mono (IZR (x p) * f) (IZR 0) ltac:(nra)) as H1.
    pose proof (py_round_mono (IZR (x p)) (IZR (x p) * f) ltac:(nra)) as H2.
    rewrite py_round_IZR in H1, H2. lia.
Qed.

Lemma scaled_cluster_point_monotone_witness :
  ∃ f,
    ScaledClusterer 3 true = Scaled f true
    ∧ (0 < f <= 1)%R
    ∧ x (cluster_point (Scaled f true) (mkPoint 4 0))
      ≤ x (cluster_point (Scaled f true) (mkPoint 10 0)).
Proof.
  destruct (scaled_cluster_point_monotone 3 true (mkPoint 4 0) (mkPoint 10 0)
              ltac:(lra)) as (f & Hc & Hf & Hx & _).
  exists f. split; [exact Hc|]. split; [exact Hf|]. apply Hx. simpl. lia.
Defined.

(** *** What normalize stores *)

Lemma clustered_points_plain (c : Clusterer) (pts : gmap Point R) :
  plain_clusterer c → clustered_points c pts = pts.
Proof. by destruct c. Qed.

(** Without a transform and with the base or a scaled clusterer,
    [normalize] returns a new heatmap with the same clusterer and the same
    cells, each value divided by the maximum of the source (which must not
    be 0). *)
Theorem normalize_divides_by_max (σ : store) (self : ref) (o : Heatmap)
    (m : R) :
  σ !! self = Some o →
  plain_clusterer (clusterer o) →
  Heatmap_max_value self σ = (Ok m, σ) →
  m ≠ 0%R →
  ∃ normalized σ',
    Heatmap_normalize self None σ = (Ok normalized, σ')
    ∧ σ' !! normalized
      = Some (mkHeatmap (clusterer o) ((λ v, v * 1 / m)%R <$> points o))
    ∧ σ' !! self = Some o
    ∧ normalized ≠ self.
Proof.
  intros Hh Hc Hmax Hm.
  rewrite (Heatmap_max_value_run self o) in Hmax by done.
  injection Hmax as Hmax.
  destruct (Heatmap_normalize_run_ok self o None σ m m (λ v, v * 1 / m)%R)
    as (r & extra & Hrun & Hr); try done.
  - by rewrite clustered_points_plain.
  - intros p v _. unfold norm_entry, py_div. simpl.
    by rewrite decide_False.
  - rewrite clustered_points_plain in Hr by done.
    exists r, (σ ++ extra). split_and!; try done.
    + by apply lookup_app_l_Some.
    + intros ->.
      destruct (Heatmap_normalize_frame self None σ)
        as (res & extra2 & Hrun2 & Hfresh).
      rewrite Hrun in Hrun2. injection Hrun2 as <- _.
      pose proof (Hfresh self eq_refl). apply lookup_lt_Some in Hh. lia.
Qed.

(** Normalizing twice: with the base or a scaled clusterer, no transform
    and a positive maximum, normalizing the normalized heatmap gives the
    same values again. *)
Theorem normalize_idempotent (σ : store) (self : ref) (o : Heatmap) (m : R) :
  σ !! self = Some o →
  plain_clusterer (clusterer o) →
  Heatmap_max_value self σ = (Ok m, σ) →
  (0 < m)%R →
  ∃ r1 σ1 n1 r2 σ2 n2,
    Heatmap_normalize self None σ = (Ok r1, σ1)
    ∧ σ1 !! r1 = Some n1
    ∧ Heatmap_normalize r1 None σ1 = (Ok r2, σ2)
    ∧ σ2 !! r2 = Some n2
    ∧ points n2 = points n1.
Proof.
  intros Hh Hc Hmax Hm.
  rewrite (Heatmap_max_value_run self o) in Hmax by done.
  injection Hmax as Hmax.
  set (G := λ v : R, (v * 1 / m)%R).
  destruct (Heatmap_normalize_run_ok self o None σ m m G)
    as (r1 & extra1 & Hrun1 & Hr1); try done.
  { by rewrite clustered_points_plain. }
  { intros p v _. unfold norm_entry, py_div. simpl.
    rewrite decide_False; [done|lra]. }
  rewrite clustered_points_plain in Hr1 by done.
  set (n1 := mkHeatmap (clusterer o) (G <$> points o)) in *.
  apply py_max_Ok in Hmax as [Hin Hub].
  apply elem_of_values in Hin as [pm Hpm].
  assert (Hmax1 : py_max ((map_to_list (points n1)).*2) = Ok 1%R).
  { apply py_max_unique.
    - apply elem_of_values. exists pm. cbn [points n1].
      rewrite lookup_fmap, Hpm. simpl. f_equal. unfold G. field. lra.
    - intros v' [p Hp]%elem_of_values. cbn [points n1] in Hp.
      rewrite lookup_fmap in Hp.
      destruct (points o !! p) as [v|] eqn:E; [|done]. injection Hp as <-.
      assert (v <= m)%R by (apply Hub, elem_of_values; eauto).
      unfold G. apply Rmult_le_reg_r with m; [done|].
      unfold Rdiv. rewrite Rmult_assoc, Rinv_l by lra. lra. }
  destruct (Heatmap_normalize_run_ok r1 n1 None (σ ++ extra1) 1 1
              (λ v, v * 1 / 1)%R)
    as (r2 & extra2 & Hrun2 & Hr2); try done.
  { by rewrite clustered_points_plain. }
  { intros p v _. unfold norm_entry, py_div. simpl.
    rewrite decide_False; [done|lra]. }
  rewrite clustered_points_plain in Hr2 by done.
  eexists r1, _, n1, r2, _, _. split_and!; try done.
  cbn [points]. apply map_eq. intros p. rewrite lookup_fmap.
  match goal with |- _ <$> ?e = _ => destruct e as [v|] end; simpl; [|done].
  f_equal. field.
Qed.

Lemma normalize_idempotent_witness :
  ∃ r1 σ1 n1 r2 σ2 n2,
    Heatmap_normalize 0 None [mkHeatmap Identity {[mkPoint 1 2 := 4%R]}]
    = (Ok r1, σ1)
    ∧ σ1 !! r1 = Some n1
    ∧ Heatmap_normalize r1 None σ1 = (Ok r2, σ2)
    ∧ σ2 !! r2 = Some n2
    ∧ points n2 = points n1.
Proof.
  apply (normalize_idempotent [mkHeatmap Identity {[mkPoint 1 2 := 4%R]}]
           0%nat (mkHeatmap Identity {[mkPoint 1 2 := 4%R]}) 4%R).
  - reflexivity.
  - exact I.
  - apply Heatmap_max_value_single.
  - lra.
Defined.

Lemma normalize_divides_by_max_witness :
  ∃ normalized σ',
    Heatmap_normalize 0 None [mkHeatmap Identity {[mkPoint 1 2 := 4%R]}]
    = (Ok normalized, σ')
    ∧ σ' !! normalized
      = Some (mkHeatmap Identity
                ((λ v, v * 1 / 4)%R <$> {[mkPoint 1 2 := 4%R]})).
Proof.
  destruct (normalize_divides_by_max
              [mkHeatmap Identity {[mkPoint 1 2 := 4%R]}] 0%nat
              (mkHeatmap Identity {[mkPoint 1 2 := 4%R]}) 4%R)
    as (r & σ' & Hrun & Hr & _).
  - reflexivity.
  - exact I.
  - apply Heatmap_max_value_single.
  - lra.
  - by exists r, σ'.
Defined.

(** The log transform keeps the order: with the base or a scaled
    clusterer, counts that are not negative and a positive maximum,
    [normalize_log] stores log(v + 1) / log(max + 1) for every cell, so a
    cell with a greater count gets a greater or equal value. *)
Theorem normalize_log_order (σ : store) (self : ref) (o : Heatmap) (m : R) :
  σ !! self = Some o →
  plain_clusterer (clusterer o) →
  (∀ p v, points o !! p = Some v → (0 <= v)%R) →
  Heatmap_max_value self σ = (Ok m, σ) →
  (0 < m)%R →
  ∃ normalized σ' n,
    Heatmap_normalize_log self σ = (Ok normalized, σ')
    ∧ σ' !! normalized = Some n
    ∧ points n = (λ v, ln (v + 1) * 1 / ln (m + 1))%R <$> points o
    ∧ ∀ p q v w v' w',
        points o !! p = Some v → points o !! q = Some w →
        points n !! p = Some v' → points n !! q = Some w' →
        (v <= w)%R → (v' <= w')%R.
Proof.
  intros Hh Hc Hnn Hmax Hm.
  rewrite (Heatmap_max_value_run self o) in Hmax by done.
  injection Hmax as Hmax.
  pose proof (log_norm_positive m Hm) as HM.
  set (G := λ v : R, (ln (v + 1) * 1 / ln (m + 1))%R).
  destruct (Heatmap_normalize_run_ok self o (Some log_norm) σ m
              (ln (m + 1)) G)
    as (r & extra & Hrun & Hr); try done.
  { by rewrite clustered_points_plain. }
  { apply log_norm_defined. lra. }
  { intros p v Hp. rewrite clustered_points_plain in Hp by done.
    unfold norm_entry. rewrite log_norm_defined by by eapply Hnn.
    simpl. unfold py_div. rewrite decide_False; [done|lra]. }
  rewrite clustered_points_plain in Hr by done.
  eexists r, _, _. split_and!; try done.
  intros p q v w v' w' Hp Hq Hp' Hq' Hvw. cbn [points] in Hp', Hq'.
  rewrite lookup_fmap, Hp in Hp'. rewrite lookup_fmap, Hq in Hq'.
  injection Hp' as <-. injection Hq' as <-. unfold G.
  pose proof (log_norm_monotone v w (conj (Hnn _ _ Hp) Hvw)).
  assert (0 < / ln (m + 1))%R by by apply Rinv_0_lt_compat.
  unfold Rdiv. apply Rmult_le_compat_r; lra.
Qed.

Lemma normalize_log_order_witness :
  ∃ normalized σ' n,
    Heatmap_normalize_log 0 [mkHeatmap Identity {[mkPoint 1 2 := 4%R]}]
    = (Ok normalized, σ')
    ∧ σ' !! normalized = Some n
    ∧ points n
      = (λ v, ln (v + 1) * 1 / ln (4 + 1))%R <$> {[mkPoint 1 2 := 4%R]}.
Proof.
  destruct (normalize_log_order
              [mkHeatmap Identity {[mkPoint 1 2 := 4%R]}] 0%nat
              (mkHeatmap Identity {[mkPoint 1 2 := 4%R]}) 4%R)
    as (r & σ' & n & Hrun & Hr & Hpts & _).
  - reflexivity.
  - exact I.
  - cbn [points]. intros p v [_ <-]%lookup_singleton_Some. lra.
  - apply Heatmap_max_value_single.
  - lra.
  - by exists r, σ', n.
Defined.

(** *** Timeseries *)

Lemma filter_none {B} (P : B → Prop) `{!∀ x, Decision (P x)} (l : list B) :
  (∀ x, x ∈ l → ¬ P x) → filter P l = [].
Proof.
  induction l as [|x l IH]; intros Hl; [done|].
  rewrite filter_cons_False by (apply Hl; by left).
  apply IH. intros; apply Hl; by right.
Qed.

Lemma uniq_cons_eq (k : key) (ks : list key) :
  uniq (k :: k :: ks) = uniq (k :: ks).
Proof. change (uniq (k :: k :: ks)) with
  (if decide (k = k) then uniq (k :: ks) else k :: uniq (k :: ks)).
  by rewrite decide_True.
Qed.

Lemma uniq_cons_ne (k k' : key) (ks : list key) :
  k ≠ k' → uniq (k :: k' :: ks) = k :: uniq (k' :: ks).
Proof.
  intros Hne. change (uniq (k :: k' :: ks)) with
  (if decide (k = k') then uniq (k' :: ks) else k :: uniq (k' :: ks)).
  by rewrite decide_False.
Qed.

Lemma elem_of_uniq (ks : list key) (k : key) : k ∈ uniq ks ↔ k ∈ ks.
Proof.
  induction ks as [|k0 ks IH]; [done|].
  cbn [uniq]. destruct ks as [|k1 ks]; [done|].
  destruct (decide (k0 = k1)) as [->|Hne].
  - rewrite IH. rewrite !elem_of_cons. tauto.
  - rewrite elem_of_cons, IH. by rewrite (elem_of_cons (k1 :: ks)).
Qed.

(** A list of keys in which a key that has been left does not return. *)
Local Abbreviation no_return ks :=
  (∀ (i j : nat) (x : key), (i + 1 < j)%nat →
     ks !! i = Some x → ks !! j = Some x → ks !! (i + 1)%nat = Some x).

Lemma no_return_tail (k : key) (ks : list key) :
  no_return (k :: ks) → no_return ks.
Proof.
  intros Hnr i j x Hij Hi Hj. apply (Hnr (S i) (S j) x); [lia|done..].
Qed.

Lemma no_return_head (k k' : key) (ks : list key) :
  no_return (k :: k' :: ks) → k' ≠ k → k ∉ k' :: ks.
Proof.
  intros Hnr Hne [j Hj]%list_elem_of_lookup_1.
  destruct j as [|j]; [simpl in Hj; congruence|].
  specialize (Hnr 0%nat (S (S j)) k ltac:(lia) eq_refl Hj).
  simpl in Hnr. congruence.
Qed.

Lemma NoDup_uniq (ks : list key) : no_return ks → NoDup (uniq ks).
Proof.
  induction ks as [|k ks IH]; intros Hnr; [constructor|].
  cbn [uniq]. destruct ks as [|k' ks]; [apply NoDup_singleton|].
  specialize (IH (no_return_tail _ _ Hnr)).
  destruct (decide (k = k')) as [->|Hne]; [done|].
  constructor; [|done]. rewrite elem_of_uniq.
  apply no_return_head; [done|congruence].
Qed.

Section Timeseries_facts.

Context {T : Type} `{Countable T} (before : relation T) `{!RelDecision before}.
Context {A : Type}.
Context `{!StrictOrder before} `{!Trichotomy before}.

Local Abbreviation ts := (@Timeseries T _ _ A).

Lemma StronglySorted_lookup_lt (l : list T) (i j : nat) (x y : T) :
  StronglySorted before l → (i < j)%nat →
  l !! i = Some x → l !! j = Some y → before x y.
Proof.
  intros Hs. revert i j. induction Hs as [|a l Hs IH Hall]; intros i j Hij Hi Hj.
  { done. }
  destruct j as [|j]; [lia|]. simpl in Hj.
  destruct i as [|i]; simpl in Hi.
  - injection Hi as <-. rewrite Forall_forall in Hall.
    apply Hall. by eapply list_elem_of_lookup_2.
  - apply (IH i j); [lia|done..].
Qed.

(** The loop invariant of the binary search on a sorted list. *)
Lemma bisect_left_loop_spec (rounds : nat) (a : list T) (x : T) (lo hi : nat) :
  StronglySorted before a →
  (lo ≤ hi ≤ length a)%nat → (hi - lo ≤ rounds)%nat →
  (∀ j y, (j < lo)%nat → a !! j = Some y → before y x) →
  (∀ j y, (hi ≤ j)%nat → a !! j = Some y → ¬ before y x) →
  let i := bisect_left_loop before rounds a x lo hi in
  (i ≤ length a)%nat
  ∧ (∀ j y, (j < i)%nat → a !! j = Some y → before y x)
  ∧ (∀ j y, (i ≤ j)%nat → a !! j = Some y → ¬ before y x).
Proof.
  intros Hs. revert lo hi.
  induction rounds as [|rounds IH]; intros lo hi Hb Hr Hlo Hhi;
    cbn [bisect_left_loop].
  { assert (lo = hi) as -> by lia. split_and!; [lia|done..]. }
  destruct (decide (lo < hi)%nat) as [Hlt|Hge].
  2: { assert (lo = hi) as -> by lia. split_and!; [lia|done..]. }
  set (mid := ((lo + hi) / 2)%nat).
  assert (lo ≤ mid < hi)%nat as Hmid.
  { pose proof (Nat.div_mod_eq (lo + hi) 2).
    pose proof (Nat.mod_upper_bound (lo + hi) 2). unfold mid. lia. }
  destruct (lookup_lt_is_Some_2 a mid) as [a_mid Ha]; [lia|].
  rewrite Ha.
  destruct (decide (before a_mid x)) as [Hlt'|Hnlt].
  - apply IH; [lia|lia| |done].
    intros j y Hj Hy. destruct (decide (j = mid)) as [->|].
    + by simplify_eq.
    + transitivity a_mid; [|done].
      apply (StronglySorted_lookup_lt a j mid); [done|lia|done..].
  - apply IH; [lia|lia|done|].
    intros j y Hj Hy Hyx. destruct (decide (j = mid)) as [->|].
    + by simplify_eq.
    + apply Hnlt. transitivity y; [|done].
      apply (StronglySorted_lookup_lt a mid j); [done|lia|done..].
Qed.

Lemma bisect_left_spec (a : list T) (x : T) :
  StronglySorted before a →
  let i := bisect_left before a x in
  (i ≤ length a)%nat
  ∧ (∀ j y, (j < i)%nat → a !! j = Some y → before y x)
  ∧ (∀ j y, (i ≤ j)%nat → a !! j = Some y → ¬ before y x).
Proof.
  intros Hs. apply bisect_left_loop_spec; [done|lia|lia|lia|].
  intros j y Hj Hy. apply lookup_lt_Some in Hy. lia.
Qed.


Lemma py_insert_sorted (a : list T) (x : T) (i : nat) :
  StronglySorted before a →
  (∀ j y, (j < i)%nat → a !! j = Some y → before y x) →
  (∀ j y, (i ≤ j)%nat → a !! j = Some y → ¬ before y x) →
  a !! i ≠ Some x →
  StronglySorted before (py_insert i x a).
Proof.
  intros Hs Hlo Hhi Hne. unfold py_insert.
  rewrite <- (take_drop i a) in Hs.
  assert (Hafter : ∀ y, y ∈ drop i a → before x y).
  { intros y [j Hj]%list_elem_of_lookup_1. rewrite lookup_drop in Hj.
    destruct (trichotomy before y x) as [Hyx|[->|Hxy]]; [|  |done].
    - by destruct (Hhi (i + j)%nat y ltac:(lia) Hj).
    - destruct j as [|j]; [by rewrite Nat.add_0_r in Hj|].
      destruct (lookup_lt_is_Some_2 a i) as [z Hz].
      { apply lookup_lt_Some in Hj. lia. }
      destruct (trichotomy before z x) as [Hzx|[->|Hxz]]; [| done |].
      + by destruct (Hhi i z ltac:(lia) Hz).
      + destruct (irreflexivity before x). transitivity z; [done|].
        rewrite (take_drop i a) in Hs.
        apply (StronglySorted_lookup_lt a i (i + S j)); [done|lia|done..]. }
  apply StronglySorted_app_2.
  - intros x1 x2 [j Hj]%list_elem_of_lookup_1 Hx2.
    apply lookup_take_Some in Hj as [Hj Hji].
    assert (before x1 x) by by eapply Hlo.
    apply elem_of_cons in Hx2 as [->|Hx2]; [done|].
    transitivity x; [done|]. by apply Hafter.
  - by eapply StronglySorted_app_1_l.
  - apply StronglySorted_cons. split.
    + by apply Forall_forall.
    + by eapply StronglySorted_app_1_r.
Qed.

Lemma elem_of_py_insert (a : list T) (x y : T) (i : nat) :
  y ∈ py_insert i x a ↔ y = x ∨ y ∈ a.
Proof.
  unfold py_insert. rewrite elem_of_app, elem_of_cons.
  rewrite <- (take_drop i a) at 3. rewrite elem_of_app. tauto.
Qed.

(** What [add] does to the dates. *)
Lemma Timeseries_add_dates (date : T) (value : A) (self : ts) :
  StronglySorted before (_dates self) →
  StronglySorted before (_dates (Timeseries_add before date value self))
  ∧ ∀ d, d ∈ _dates (Timeseries_add before date value self)
         ↔ d = date ∨ d ∈ _dates self.
Proof.
  intros Hs. unfold Timeseries_add.
  destruct (bisect_left_spec (_dates self) date Hs) as (Hlen & Hlo & Hhi).
  destruct (defaultdict_get date (_values self)) as [l values].
  cbn [_dates].
  destruct (bool_decide (bisect_left before (_dates self) date
                         < length (_dates self))%nat
            && bool_decide (_dates self !! bisect_left before (_dates self) date
                            = Some date)) eqn:E.
  - apply andb_true_iff in E as [_ E%bool_decide_eq_true].
    split; [done|]. intros d. split; [tauto|]. intros [->|Hd]; [|done].
    by eapply list_elem_of_lookup_2.
  - split; [|intros d; apply elem_of_py_insert].
    apply py_insert_sorted; [done..|]. intros Hi.
    apply andb_false_iff in E as [E|E]; apply bool_decide_eq_false in E.
    + apply lookup_lt_Some in Hi. lia.
    + done.
Qed.

(** What [add] does to the values. *)
Lemma Timeseries_add_values (date : T) (value : A) (self : ts) (d : T) :
  _values (Timeseries_add before date value self) !! d
  = if decide (d = date)
    then Some (default [] (_values self !! date) ++ [value])
    else _values self !! d.
Proof.
  unfold Timeseries_add, defaultdict_get.
  destruct (_values self !! date) as [l|] eqn:E; cbn [_values default].
  - destruct (decide (d = date)) as [->|Hne].
    + by rewrite lookup_insert_eq.
    + by rewrite lookup_insert_ne.
  - destruct (decide (d = date)) as [->|Hne].
    + by rewrite lookup_insert_eq.
    + by rewrite !lookup_insert_ne.
Qed.

Lemma Timeseries_adds_snoc (entries : list (T * A)) (e : T * A) (self : ts) :
  Timeseries_adds before (entries ++ [e]) self
  = Timeseries_add before e.1 e.2 (Timeseries_adds before entries self).
Proof. unfold Timeseries_adds. by rewrite foldl_snoc. Qed.


Lemma Timeseries_add_len_step (date : T) (value : A) (self : ts) :
  Timeseries_len (Timeseries_add before date value self)
  = S (Timeseries_len self).
Proof.
  unfold Timeseries_len, Timeseries_add, defaultdict_get.
  destruct (_values self !! date) as [l|] eqn:E; cbn [_values].
  - rewrite <- insert_delete_eq.
    rewrite map_to_list_insert by apply lookup_delete_eq.
    rewrite <- (map_to_list_delete (_values self) date l E).
    rewrite !fmap_cons. cbn [snd sum_list_with]. rewrite length_app. simpl. lia.
  - rewrite insert_insert_eq. rewrite map_to_list_insert by done.
    by rewrite !fmap_cons.
Qed.

Local Abbreviation on_date d := (λ e : T * A, e.1 = d).
Local Abbreviation built es := (Timeseries_adds before es Timeseries_init).

Lemma filter_on_date_nil (es : list (T * A)) (d : T) :
  d ∉ es.*1 → filter (on_date d) es = [].
Proof.
  intros Hd. induction es as [|e es IH]; [done|].
  rewrite fmap_cons, not_elem_of_cons in Hd. destruct Hd as [Hne Hd].
  rewrite filter_cons_False by (simpl; congruence). by apply IH.
Qed.

Lemma filter_on_date_tag (es : list (T * A)) (d : T) :
  (λ v, (d, v)) <$> (filter (on_date d) es).*2 = filter (on_date d) es.
Proof.
  induction es as [|[d' v] es IH]; [done|].
  rewrite filter_cons. destruct (decide (on_date d (d', v))) as [Hd|Hd].
  - simpl in Hd. subst d'. rewrite !fmap_cons. simpl. by rewrite IH.
  - done.
Qed.

Lemma built_dates (es : list (T * A)) :
  StronglySorted before (_dates (built es))
  ∧ ∀ d, d ∈ _dates (built es) ↔ d ∈ es.*1.
Proof.
  induction es as [|e es [IHs IHd]] using rev_ind.
  { split; [constructor|]. intros d. simpl. set_solver. }
  rewrite Timeseries_adds_snoc.
  destruct (Timeseries_add_dates e.1 e.2 (built es) IHs) as [Hs Hd].
  split; [done|]. intros d. rewrite Hd, IHd, fmap_app, elem_of_app.
  simpl. rewrite list_elem_of_singleton. tauto.
Qed.

Lemma built_values (es : list (T * A)) (d : T) :
  _values (built es) !! d
  = if decide (d ∈ es.*1) then Some (filter (on_date d) es).*2 else None.
Proof.
  induction es as [|e es IH] using rev_ind.
  { simpl. by rewrite lookup_empty. }
  rewrite Timeseries_adds_snoc, Timeseries_add_values.
  rewrite filter_app, !fmap_app. cbn [fmap list_fmap].
  destruct (decide (d = e.1)) as [->|Hne].
  - rewrite (decide_True (P := e.1 ∈ _)) by set_solver.
    rewrite filter_cons_True by done. rewrite IH. f_equal. f_equal.
    destruct (decide (e.1 ∈ es.*1)) as [Hd|Hd]; [done|].
    by rewrite filter_on_date_nil.
  - rewrite filter_cons_False by (simpl; congruence).
    rewrite filter_nil, app_nil_r, IH.
    destruct (decide (d ∈ es.*1)) as [Hd|Hd].
    + by rewrite decide_True by (rewrite elem_of_app; by left).
    + rewrite decide_False; [done|]. rewrite elem_of_app, list_elem_of_singleton.
      tauto.
Qed.

Lemma built_default (es : list (T * A)) (d : T) :
  default [] (_values (built es) !! d) = (filter (on_date d) es).*2.
Proof.
  rewrite built_values. destruct (decide (d ∈ es.*1)); [done|].
  by rewrite filter_on_date_nil.
Qed.

Lemma built_entries (es : list (T * A)) :
  Timeseries_entries (built es)
  = d ← _dates (built es); filter (on_date d) es.
Proof.
  unfold Timeseries_entries. apply list_bind_ext; [|done].
  intros d. by rewrite built_default, filter_on_date_tag.
Qed.


Lemma filter_on_date_twice (es : list (T * A)) (d d' : T) :
  filter (on_date d) (filter (on_date d') es)
  = if decide (d = d') then filter (on_date d) es else [].
Proof.
  induction es as [|e es IH]; [by destruct (decide (d = d'))|].
  rewrite (filter_cons (on_date d')).
  destruct (decide (on_date d' e)) as [He|He]; simpl in He.
  - rewrite !filter_cons. destruct (decide (d = d')) as [->|Hne].
    + rewrite decide_True by done. rewrite IH. by rewrite decide_True.
    + rewrite decide_False by (simpl; congruence). by rewrite IH.
  - rewrite IH. destruct (decide (d = d')) as [->|Hne]; [|done].
    by rewrite filter_cons_False.
Qed.

(** The blocks of the dates, one after the other, are the entries sorted
    by date, each date's entries in the order of arrival. *)
Lemma blocks_stable (ds : list T) (es : list (T * A)) (d : T) :
  NoDup ds →
  filter (on_date d) (d' ← ds; filter (on_date d') es)
  = if decide (d ∈ ds) then filter (on_date d) es else [].
Proof.
  induction 1 as [|d0 ds Hd0 Hnd IH]; [done|].
  rewrite bind_cons, filter_app, IH, filter_on_date_twice.
  destruct (decide (d = d0)) as [->|Hne].
  - rewrite decide_False by done. rewrite app_nil_r.
    by rewrite decide_True by left.
  - simpl. destruct (decide (d ∈ ds)) as [Hd|Hd].
    + by rewrite decide_True by by right.
    + rewrite decide_False; [done|]. rewrite not_elem_of_cons. tauto.
Qed.

Lemma blocks_sorted (ds : list T) (es : list (T * A)) :
  StronglySorted before ds →
  StronglySorted (λ a b : T * A, ¬ before b.1 a.1)
    (d ← ds; filter (on_date d) es).
Proof.
  induction 1 as [|d ds Hs IH Hall]; [constructor|].
  rewrite bind_cons. apply StronglySorted_app_2.
  - intros x1 x2 [Hx1 _]%list_elem_of_filter Hx2. simpl in Hx1.
    apply list_elem_of_bind in Hx2 as (d' & [Hx2 _]%list_elem_of_filter & Hd').
    simpl in Hx2. rewrite Hx1, Hx2. rewrite Forall_forall in Hall.
    intros Hlt. apply (irreflexivity before d).
    transitivity d'; [by apply Hall|exact Hlt].
  - clear IH. induction es as [|e es IHes]; [constructor|].
    rewrite filter_cons. destruct (decide (on_date d e)) as [He|He]; [|done].
    apply StronglySorted_cons. split; [|done].
    apply Forall_forall. intros x [Hx _]%list_elem_of_filter.
    simpl in He, Hx. rewrite He, Hx. apply irreflexivity, _.
  - done.
Qed.

Lemma blocks_permutation (ds : list T) (es : list (T * A)) :
  NoDup ds → (∀ e, e ∈ es → e.1 ∈ ds) →
  (d ← ds; filter (on_date d) es) ≡ₚ es.
Proof.
  intros Hnd. revert es.
  induction Hnd as [|d ds Hd Hnd IH]; intros es Hes.
  { destruct es as [|e es]; [done|].
    exfalso. eapply not_elem_of_nil, (Hes e). by left. }
  rewrite bind_cons.
  etrans; [|apply (filter_app_complement (on_date d) es)].
  apply Permutation_app_head.
  rewrite <- (IH (filter (λ e, ¬ on_date d e) es)).
  2: { intros e [He Hin]%list_elem_of_filter. simpl in He.
       apply Hes in Hin. apply elem_of_cons in Hin as [?|?]; done. }
  apply reflexive_eq. apply Forall_bind_ext, Forall_forall. intros d' Hd'.
  rewrite list_filter_filter. apply list_filter_iff. intros e. simpl.
  split; [|tauto]. intros ->. split; [done|]. by intros ->.
Qed.

Lemma StronglySorted_NoDup (ds : list T) : StronglySorted before ds → NoDup ds.
Proof.
  induction 1 as [|d ds Hs IH Hall]; constructor; [|done].
  intros Hd. rewrite Forall_forall in Hall.
  by apply (irreflexivity before d), Hall.
Qed.

Lemma iter_from_run (ds : list T) (values : gmap T (list A)) :
  (∀ d, d ∈ ds → is_Some (values !! d)) →
  iter_from ds values = (d ← ds; default [] (values !! d), values).
Proof.
  induction ds as [|d ds IH]; intros Hds; [done|].
  cbn [iter_from]. unfold defaultdict_get.
  destruct (Hds d) as [l Hl]; [by left|]. rewrite Hl.
  rewrite IH by (intros; apply Hds; by right). by rewrite bind_cons, Hl.
Qed.

Lemma entries_values (self : ts) :
  (Timeseries_entries self).*2 = d ← _dates self; default [] (_values self !! d).
Proof.
  unfold Timeseries_entries. induction (_dates self) as [|d ds IH]; [done|].
  rewrite !bind_cons, fmap_app, IH. f_equal.
  rewrite <- list_fmap_compose. apply list_fmap_id.
Qed.

Lemma built_domain (es : list (T * A)) (d : T) :
  d ∈ _dates (built es) → is_Some (_values (built es) !! d).
Proof.
  intros Hd%built_dates. rewrite built_values. by rewrite decide_True.
Qed.


Local Abbreviation tagged store ds :=
  (d ← ds; (λ v : A, (d, v)) <$> default [] (store !! d)).
Local Abbreviation with_key g k := (λ e : T * A, g e.1 = k).

Lemma filter_tagged (g : T → key) (k : key) (d : T) (l : list A) :
  (filter (with_key g k) ((λ v, (d, v)) <$> l)).*2
  = if decide (g d = k) then l else [].
Proof.
  destruct (decide (g d = k)) as [Hk|Hk].
  - induction l as [|v l IH]; [done|].
    rewrite fmap_cons, filter_cons_True by done. by rewrite fmap_cons, IH.
  - induction l as [|v l IH]; [done|].
    by rewrite fmap_cons, filter_cons_False.
Qed.

(** The loop of [_grouped_values] once a first date has been seen. *)
Lemma grouped_from_run (g : T → key) (ds : list T)
    (store : gmap T (list A)) (values : list A) (prev : key) :
  truthy prev = true → values ≠ [] →
  (∀ d, d ∈ ds → truthy (g d) = true) →
  (∀ d, d ∈ ds → ∃ l, store !! d = Some l ∧ l ≠ []) →
  no_return (prev :: (g <$> ds)) →
  grouped_from (Some g) ds store values prev
  = ((λ k, (k, Values ((if decide (k = prev) then values else [])
                       ++ (filter (with_key g k) (tagged store ds)).*2)))
       <$> uniq (prev :: (g <$> ds)),
     None, store).
Proof.
  revert values prev.
  induction ds as [|d ds IH]; intros values prev Hprev Hvalues Hg Hdom Hnr.
  { simpl. destruct values; [done|]. by rewrite decide_True, app_nil_r. }
  cbn [grouped_from]. unfold defaultdict_get.
  destruct (Hdom d) as (l & Hl & Hne); [by left|]. rewrite Hl, Hprev.
  rewrite andb_true_l, fmap_cons, bind_cons, Hl. cbn [default from_option].
  unfold id.
  assert (Hg' : ∀ d, d ∈ ds → truthy (g d) = true)
    by (intros; apply Hg; by right).
  assert (Hdom' : ∀ d, d ∈ ds → ∃ l, store !! d = Some l ∧ l ≠ [])
    by (intros; apply Hdom; by right).
  assert (Hnr' : no_return (g d :: (g <$> ds)))
    by exact (no_return_tail prev _ Hnr).
  destruct (decide (g d = prev)) as [Heq|Hneq].
  - rewrite bool_decide_eq_true_2 by done. cbn [negb].
    rewrite Heq in *.
    rewrite (IH (values ++ l) prev); first last.
    { done. }
    { done. } { done. } { by destruct values. } { done. }
    rewrite uniq_cons_eq.
    f_equal. f_equal. apply list_fmap_ext. intros _ k _. f_equal. f_equal.
    rewrite filter_app, fmap_app, filter_tagged, Heq.
    destruct (decide (k = prev)) as [->|Hk].
    + rewrite decide_True by done. by rewrite app_assoc.
    + rewrite decide_False by congruence. done.
  - rewrite bool_decide_eq_false_2 by done. cbn [negb].
    rewrite (IH ([] ++ l) (g d)); first last.
    { done. }
    { done. } { done. } { done. } { apply Hg. by left. }
    assert (Hout : prev ∉ g d :: (g <$> ds)) by by apply no_return_head.
    rewrite uniq_cons_ne by congruence.
    rewrite fmap_cons. cbn [app]. f_equal. f_equal. f_equal.
    + f_equal. f_equal. rewrite decide_True by done.
      rewrite filter_app, fmap_app, filter_tagged.
      rewrite decide_False by done. cbn [app].
      rewrite filter_none; [by rewrite app_nil_r|].
      intros e (d' & (v & -> & _)%list_elem_of_fmap & Hd')%list_elem_of_bind.
      simpl. intros Hk. apply Hout. right. rewrite <- Hk.
      by apply list_elem_of_fmap_2.
    + apply list_fmap_ext. intros _ k Hk%list_elem_of_lookup_2.
      rewrite elem_of_uniq in Hk. f_equal. f_equal.
      rewrite (decide_False (P := k = prev)) by (by intros ->).
      rewrite filter_app, fmap_app, filter_tagged. cbn [app].
      destruct (decide (k = g d)) as [->|Hkd].
      * by rewrite decide_True.
      * by rewrite decide_False by congruence.
Qed.


Lemma grouped_values_run (g : T → key) (self : ts) :
  (∀ d, d ∈ _dates self → truthy (g d) = true) →
  (∀ d, d ∈ _dates self → ∃ l, _values self !! d = Some l ∧ l ≠ []) →
  no_return (g <$> _dates self) →
  Timeseries_grouped_values (Some g) self
  = ((λ k, (k, Values (filter (with_key g k) (Timeseries_entries self)).*2))
       <$> uniq (g <$> _dates self),
     None, self).
Proof.
  intros Hg Hdom Hnr. unfold Timeseries_grouped_values, Timeseries_entries.
  destruct self as [ds store]. cbn [_dates _values] in *.
  destruct ds as [|d ds]; [done|].
  cbn [grouped_from]. unfold defaultdict_get.
  destruct (Hdom d) as (l & Hl & Hne); [by left|]. rewrite Hl.
  cbn [truthy andb app].
  rewrite (grouped_from_run g ds store l (g d)); first last.
  { done. }
  { intros; apply Hdom; by right. }
  { intros; apply Hg; by right. }
  { done. }
  { apply Hg; by left. }
  rewrite fmap_cons. f_equal. f_equal. apply list_fmap_ext. intros _ k _.
  f_equal. f_equal.
  rewrite bind_cons, Hl, filter_app, fmap_app, filter_tagged.
  destruct (decide (k = g d)) as [->|Hk].
  - by rewrite decide_True.
  - by rewrite decide_False by congruence.
Qed.

Lemma grouped_from_all (ds : list T) (store : gmap T (list A))
    (values : list A) :
  (∀ d, d ∈ ds → is_Some (store !! d)) →
  grouped_from (Some all_group) ds store values KNone
  = (match values ++ (d ← ds; default [] (store !! d)) with
     | [] => []
     | _ :: _ =>
         [(KNone, Values (values ++ (d ← ds; default [] (store !! d))))]
     end, None, store).
Proof.
  revert values. induction ds as [|d ds IH]; intros values Hdom.
  { simpl. rewrite app_nil_r. by destruct values. }
  cbn [grouped_from]. unfold defaultdict_get.
  destruct (Hdom d) as [l Hl]; [by left|]. rewrite Hl.
  cbn [truthy andb app]. rewrite IH by (intros; apply Hdom; by right).
  by rewrite bind_cons, Hl, !app_assoc.
Qed.

Lemma built_eta (es : list (T * A)) :
  mkTimeseries (_dates (built es)) (_values (built es)) = built es.
Proof. by destruct (built es). Qed.

Lemma built_no_dates (es : list (T * A)) :
  _dates (built es) = [] ↔ es = [].
Proof.
  split; [|by intros ->]. intros Hd.
  destruct es as [|e es]; [done|].
  assert (e.1 ∈ _dates (built (e :: es))) as He.
  { apply built_dates. by left. }
  rewrite Hd in He. by apply not_elem_of_nil in He.
Qed.

(** For every instance with sorted dates, [add] keeps the dates sorted
    and without repetition, adds the date to them if it is new, appends
    the value to the values of the date and leaves those of the other
    dates as they are. *)
Theorem Timeseries_add_sorted (date : T) (value : A) (self : ts) :
  StronglySorted before (_dates self) →
  StronglySorted before (_dates (Timeseries_add before date value self))
  ∧ (∀ d, d ∈ _dates (Timeseries_add before date value self)
          ↔ d = date ∨ d ∈ _dates self)
  ∧ _values (Timeseries_add before date value self) !! date
    = Some (default [] (_values self !! date) ++ [value])
  ∧ ∀ d, d ≠ date →
         _values (Timeseries_add before date value self) !! d
         = _values self !! d.
Proof.
  intros Hs. destruct (Timeseries_add_dates date value self Hs) as [H1 H2].
  split_and!; [done|done| |].
  - by rewrite Timeseries_add_values, decide_True.
  - intros d Hd. by rewrite Timeseries_add_values, decide_False.
Qed.

(** [len] counts the values: every [add] increases it by one, whatever
    the state of the instance and whether the date is new or not. *)
Theorem Timeseries_len_adds (entries : list (T * A)) (self : ts) :
  Timeseries_len (Timeseries_adds before entries self)
  = (length entries + Timeseries_len self)%nat.
Proof.
  induction entries as [|e es IH] using rev_ind; [done|].
  rewrite Timeseries_adds_snoc, Timeseries_add_len_step, IH, length_app.
  simpl. lia.
Qed.

(** Iterating over an instance filled by [add] yields all added values
    sorted by date, values of the same date in the order they were added,
    and does not change the instance. *)
Theorem Timeseries_iter_by_date (es : list (T * A)) :
  Timeseries_iter (built es) = ((Timeseries_entries (built es)).*2, built es)
  ∧ Timeseries_entries (built es) ≡ₚ es
  ∧ StronglySorted (λ a b : T * A, ¬ before b.1 a.1)
      (Timeseries_entries (built es))
  ∧ ∀ d, filter (on_date d) (Timeseries_entries (built es))
         = filter (on_date d) es.
Proof.
  destruct (built_dates es) as [Hs Hd].
  pose proof (StronglySorted_NoDup _ Hs) as Hnd.
  split_and!.
  - unfold Timeseries_iter.
    rewrite iter_from_run by apply built_domain.
    by rewrite entries_values, built_eta.
  - rewrite built_entries. apply blocks_permutation; [done|].
    intros e He. apply Hd. by apply list_elem_of_fmap_2.
  - rewrite built_entries. by apply blocks_sorted.
  - intros d. rewrite built_entries, blocks_stable by done.
    destruct (decide (d ∈ _dates (built es))) as [Hin|Hout]; [done|].
    rewrite filter_on_date_nil; [done|]. by rewrite <- Hd.
Qed.

(** Grouping with a key function whose keys are true values and do not
    return once left along the dates (year, quarter, month, day): the
    generator yields one pair per key, in the order of the dates, with
    all values of the dates of that key in the order of iteration; no key
    is yielded twice and every added value is in the group of its date's
    key. *)
Theorem Timeseries_grouped_by_key (es : list (T * A)) (g : T → key) :
  (∀ d, truthy (g d) = true) →
  (∀ a b c, before a b → before b c → g a = g c → g b = g a) →
  Timeseries_grouped_values (Some g) (built es)
  = ((λ k, (k, Values (filter (with_key g k)
                         (Timeseries_entries (built es))).*2))
       <$> uniq (g <$> _dates (built es)),
     None, built es)
  ∧ NoDup (uniq (g <$> _dates (built es)))
  ∧ ∀ k, k ∈ uniq (g <$> _dates (built es)) ↔ ∃ e, e ∈ es ∧ g e.1 = k.
Proof.
  intros Hg Hconvex. destruct (built_dates es) as [Hs Hd].
  assert (Hnr : no_return (g <$> _dates (built es))).
  { intros i j x Hij Hi Hj.
    apply list_lookup_fmap_Some in Hi as (a & -> & Ha).
    apply list_lookup_fmap_Some in Hj as (c & Hac & Hc).
    destruct (lookup_lt_is_Some_2 (_dates (built es)) (i + 1)) as [b Hb].
    { apply lookup_lt_Some in Hc. lia. }
    rewrite list_lookup_fmap, Hb. simpl. f_equal.
    apply (Hconvex a b c); [| |done].
    - apply (StronglySorted_lookup_lt (_dates (built es)) i (i + 1));
        [done|lia|done..].
    - apply (StronglySorted_lookup_lt (_dates (built es)) (i + 1) j);
        [done|lia|done..]. }
  split_and!.
  - apply grouped_values_run; [done| |done].
    intros d Hin. rewrite built_values.
    apply Hd in Hin. rewrite decide_True by done. eexists. split; [done|].
    apply list_elem_of_fmap in Hin as (e & -> & He).
    intros Hnil%fmap_nil_inv.
    eapply (filter_nil_not_elem_of _ _ e Hnil); done.
  - by apply NoDup_uniq.
  - intros k. rewrite elem_of_uniq, list_elem_of_fmap. split.
    + intros (d & -> & Hin). apply Hd in Hin.
      apply list_elem_of_fmap in Hin as (e & -> & He). by exists e.
    + intros (e & He & <-). exists e.1. split; [done|].
      apply Hd. by apply list_elem_of_fmap_2.
Qed.

(** The property [all]: one pair, with the key [None] and all values in
    the order of iteration, and nothing for an instance without values. *)
Theorem Timeseries_all_one_group (es : list (T * A)) :
  Timeseries_all (built es)
  = (match es with
     | [] => []
     | _ :: _ => [(KNone, Values (Timeseries_entries (built es)).*2)]
     end, None, built es).
Proof.
  unfold Timeseries_all, Timeseries_grouped_values.
  rewrite grouped_from_all by apply built_domain.
  cbn [app]. rewrite <- entries_values, built_eta.
  destruct (built_dates es) as [Hs Hd].
  assert (Hperm : Timeseries_entries (built es) ≡ₚ es).
  { rewrite built_entries. apply blocks_permutation.
    - by apply StronglySorted_NoDup.
    - intros e He. apply Hd. by apply list_elem_of_fmap_2. }
  destruct es as [|e es].
  - apply Permutation_nil_r in Hperm. by rewrite Hperm.
  - destruct (Timeseries_entries (built (e :: es))) as [|e' es'] eqn:E; [|done].
    by apply Permutation_nil_cons in Hperm.
Qed.

(** Without a group function the generator yields the pair of [None] and
    the instance itself and then, as soon as there is a date, calls
    [None]: it raises [TypeError]. *)
Theorem Timeseries_grouped_default_raises (es : list (T * A)) :
  Timeseries_grouped_values None (built es)
  = ([(KNone, Whole (built es))],
     match es with [] => None | _ :: _ => Some TypeError end,
     built es).
Proof.
  unfold Timeseries_grouped_values.
  pose proof (built_no_dates es) as Hnil.
  destruct (_dates (built es)) as [|d ds] eqn:E.
  - rewrite (proj1 Hnil eq_refl) in *. done.
  - cbn [grouped_from app]. rewrite <- E, built_eta.
    destruct es as [|e es]; [|done]. by destruct Hnil as [_ Hnil'].
Qed.

End Timeseries_facts.

(** The order of the dates is a strict total order. *)
#[global] Instance date_before_strict : StrictOrder date_before.
Proof.
  split.
  - intros a. unfold complement, date_before. lia.
  - intros a b c. unfold date_before. lia.
Qed.

#[global] Instance date_before_trichotomy : Trichotomy date_before.
Proof.
  intros [ya ma da] [yb mb db]. unfold date_before. simpl.
  destruct (decide (ya = yb)) as [->|]; [|lia].
  destruct (decide (ma = mb)) as [->|]; [|lia].
  destruct (decide (da = db)) as [->|]; [|lia].
  right. by left.
Qed.

Lemma year_key_convex (a b c : date) :
  date_before a b → date_before b c → year_key a = year_key c →
  year_key b = year_key a.
Proof.
  unfold date_before, year_key, year_group. intros Hab Hbc [= Hac].
  f_equal. f_equal. lia.
Qed.

Lemma Timeseries_add_sorted_witness :
  StronglySorted date_before
    (_dates (Timeseries_add date_before (mkDate 2020 3 2) 7%nat
               (mkTimeseries [mkDate 2019 1 1; mkDate 2021 5 1] ∅))).
Proof.
  apply (Timeseries_add_sorted date_before (mkDate 2020 3 2) 7%nat
           (mkTimeseries [mkDate 2019 1 1; mkDate 2021 5 1] ∅)).
  simpl. repeat constructor.
Defined.

Lemma Timeseries_iter_by_date_witness :
  Timeseries_entries
    (Timeseries_adds date_before
       [(mkDate 2021 5 1, 1%nat); (mkDate 2020 3 2, 2%nat);
        (mkDate 2021 5 1, 3%nat)] Timeseries_init)
  ≡ₚ [(mkDate 2021 5 1, 1%nat); (mkDate 2020 3 2, 2%nat);
      (mkDate 2021 5 1, 3%nat)].
Proof.
  apply (Timeseries_iter_by_date date_before
           [(mkDate 2021 5 1, 1%nat); (mkDate 2020 3 2, 2%nat);
            (mkDate 2021 5 1, 3%nat)]).
Defined.

Lemma Timeseries_grouped_by_key_witness :
  NoDup (uniq (year_key <$>
    _dates (Timeseries_adds date_before
              [(mkDate 2021 5 1, 1%nat); (mkDate 2020 3 2, 2%nat);
               (mkDate 2021 7 9, 3%nat)] Timeseries_init))).
Proof.
  apply (Timeseries_grouped_by_key date_before
           [(mkDate 2021 5 1, 1%nat); (mkDate 2020 3 2, 2%nat);
            (mkDate 2021 7 9, 3%nat)] year_key).
  - reflexivity.
  - apply year_key_convex.
Defined.

Lemma Timeseries_all_one_group_witness :
  Timeseries_all
    (Timeseries_adds date_before
       [(mkDate 2021 5 1, 1%nat); (mkDate 2020 3 2, 2%nat)] Timeseries_init)
  = ([(KNone,
       Values (Timeseries_entries
                 (Timeseries_adds date_before
                    [(mkDate 2021 5 1, 1%nat); (mkDate 2020 3 2, 2%nat)]
                    Timeseries_init)).*2)],
     None,
     Timeseries_adds date_before
       [(mkDate 2021 5 1, 1%nat); (mkDate 2020 3 2, 2%nat)] Timeseries_init).
Proof.
  apply (Timeseries_all_one_group date_before
           [(mkDate 2021 5 1, 1%nat); (mkDate 2020 3 2, 2%nat)]).
Defined.

Lemma Timeseries_grouped_default_raises_witness :
  Timeseries_grouped_values None
    (Timeseries_adds date_before [(mkDate 2021 5 1, 1%nat)] Timeseries_init)
  = ([(KNone,
       Whole (Timeseries_adds date_before [(mkDate 2021 5 1, 1%nat)]
                Timeseries_init))],
     Some TypeError,
     Timeseries_adds date_before [(mkDate 2021 5 1, 1%nat)] Timeseries_init).
Proof.
  apply (Timeseries_grouped_default_raises date_before
           [(mkDate 2021 5 1, 1%nat)]).
Defined.

Lemma Timeseries_len_adds_witness :
  Timeseries_len
    (Timeseries_adds date_before
       [(mkDate 2021 5 1, 1%nat); (mkDate 2020 3 2, 2%nat);
        (mkDate 2021 5 1, 3%nat)] Timeseries_init)
  = (3 + Timeseries_len (@Timeseries_init date _ _ nat))%nat.
Proof.
  apply (Timeseries_len_adds date_before
           [(mkDate 2021 5 1, 1%nat); (mkDate 2020 3 2, 2%nat);
            (mkDate 2021 5 1, 3%nat)] Timeseries_init).
Defined.
